(** * TarkovStatsWeb: statistics derivation, selectors, file reader and the parse worker pool

  A shallow embedding of

  - [src/lib/logs/analytics.ts]   ([deriveStatistics], its accumulators and
    the session builder),
  - [src/lib/logs/selectors.ts]   ([getConnectionSuccessRate],
    [downsampleData] and the selectors over parsed files),
  - [src/lib/ingest/fileReader.ts] ([isLogFile], [extractSessionFromPath]),
  - [src/lib/ingest/parseWorkerPool.ts] and the worker script
    ([ParseWorkerPool], the [onmessage] and [onerror] handlers),

  together with the properties the specification states about them.

  Conventions of the embedding.

  - A JavaScript value read out of an event's open [fields] bag is a
    [JsVal]; numbers are exact rationals ([Q]), so the infinities and
    rounding are outside the model. [NaN] is modelled where the fold
    itself makes it, by adding 1 to a member that is [undefined]
    ([NotANumber], [NaNValue]); no field carries it.
  - Strings are ASCII strings.
  - A function that can raise a [TypeError] returns in [Res].
  - An object literal used as a dictionary ([Record<string, T>]) is a
    [gmap string T] of its own properties; a read that falls through to
    [Object.prototype] finds one of its standard members ([inheritedKey])
    or a member the fold itself has written there: the counters of a
    network address spelled [__proto__] land on [Object.prototype], and
    [ObjectPrototype] tracks them. The state of [Object.prototype] is an
    input of [deriveStatistics] and is threaded through the fold.
  - The modules are strict code: an assignment to a property of a
    primitive value raises a [TypeError].
  - A [Map] or a [Set] is a list in insertion order.
  - The pool runs on one event loop: a state and a step relation. A turn
    is a worker's reply to a posted message or a worker's error event.
*)

From stdpp Require Import gmap strings list.
From Stdlib Require Import QArith Qround Qabs.
From Stdlib Require Import Ascii.

Local Open Scope Z_scope.
Local Open Scope string_scope.

(* ===================================================================== *)
(** ** JavaScript values and exceptions                                   *)
(* ===================================================================== *)

Module Js.

(** Plain data as it crosses the worker boundary. *)
#[local] Set Warnings "-register-all".
Inductive JsVal : Type :=
| JUndef
| JNull
| JBool (b : bool)
| JNum (q : Q)
| JStr (s : string)
| JArr (items : list JsVal)
| JObj (props : list (string * JsVal)).

(** The exception a statement raises. *)
Inductive JsError : Type :=
| TypeError (what : string).

(** Outcome of a statement sequence: normal completion or a throw. *)
Inductive Res (A : Type) : Type :=
| Ok (a : A)
| Throw (e : JsError).
Arguments Ok {A} a.
Arguments Throw {A} e.

Definition bind {A B} (r : Res A) (k : A -> Res B) : Res B :=
  match r with
  | Ok a => k a
  | Throw e => Throw e
  end.

(** [ToBoolean]. *)
Definition truthy (v : JsVal) : bool :=
  match v with
  | JUndef | JNull => false
  | JBool b => b
  | JNum q => negb (Qeq_bool q 0)
  | JStr s => negb (String.eqb s "")
  | JArr _ | JObj _ => true
  end.

(** [v ?? d] on an optional read. *)
Definition nullish (v : JsVal) : bool :=
  match v with JUndef | JNull => true | _ => false end.

(** [v === false]. *)
Definition isFalse (v : JsVal) : bool :=
  match v with JBool false => true | _ => false end.

(** [typeof v === "number"], with the number. *)
Definition asNumber (v : JsVal) : option Q :=
  match v with JNum q => Some q | _ => None end.

(** [String(v)] and the coercion of a value used as a property key. How a
    number prints is the host's business: [numberToString] stands for
    [Number.prototype.toString]. *)
Section ToString.
Variable numberToString : Q -> string.

Fixpoint toString (v : JsVal) : string :=
  match v with
  | JUndef => "undefined"
  | JNull => "null"
  | JBool true => "true"
  | JBool false => "false"
  | JNum q => numberToString q
  | JStr s => s
  | JArr items =>
      let element x := if nullish x then "" else toString x in
      (fix join (l : list JsVal) : string :=
         match l with
         | [] => ""
         | [x] => element x
         | x :: r => element x +:+ "," +:+ join r
         end) items
  | JObj _ => "[object Object]"
  end.

End ToString.

End Js.
Export Js.

(** [Res] is used through stdpp's [x ← r; k]. *)
#[export] Instance res_ret : MRet Res := @Ok.
#[export] Instance res_bind : MBind Res := fun A B k r => Js.bind r k.

(* ===================================================================== *)
(** ** Strings                                                            *)
(* ===================================================================== *)

Module Str.

Definition isUpper (c : ascii) : bool :=
  let n := nat_of_ascii c in (65 <=? n)%nat && (n <=? 90)%nat.

Definition lowerChar (c : ascii) : ascii :=
  if isUpper c then ascii_of_nat (nat_of_ascii c + 32) else c.

(** [s.toLowerCase()]. *)
Fixpoint toLowerCase (s : string) : string :=
  match s with
  | EmptyString => EmptyString
  | String c r => String (lowerChar c) (toLowerCase r)
  end.

Fixpoint startsWith (p s : string) : bool :=
  match p, s with
  | EmptyString, _ => true
  | String a p', String b s' => Ascii.eqb a b && startsWith p' s'
  | String _ _, EmptyString => false
  end.

(** [s.includes(p)]. *)
Fixpoint includes (s p : string) : bool :=
  startsWith p s ||
  match s with
  | EmptyString => false
  | String _ r => includes r p
  end.

Definition isDigit (c : ascii) : bool :=
  let n := nat_of_ascii c in (48 <=? n)%nat && (n <=? 57)%nat.

(** The class [[0-9a-f]] under the [i] flag. *)
Definition isHex (c : ascii) : bool :=
  let n := nat_of_ascii c in
  isDigit c || ((97 <=? n)%nat && (n <=? 102)%nat)
            || ((65 <=? n)%nat && (n <=? 70)%nat).

(** The class [\w]. *)
Definition isWord (c : ascii) : bool :=
  let n := nat_of_ascii c in
  isDigit c || ((97 <=? n)%nat && (n <=? 122)%nat)
            || ((65 <=? n)%nat && (n <=? 90)%nat)
            || (n =? 95)%nat.

(** [n] hexadecimal characters at the head of [s], and what follows. *)
Fixpoint takeHex (n : nat) (s : string) : option (string * string) :=
  match n with
  | O => Some (EmptyString, s)
  | S n' =>
      match s with
      | String c r =>
          if isHex c then
            match takeHex n' r with
            | Some (tok, rest) => Some (String c tok, rest)
            | None => None
            end
          else None
      | EmptyString => None
      end
  end.

Definition atWordEnd (rest : string) : bool :=
  match rest with
  | EmptyString => true
  | String c _ => negb (isWord c)
  end.

(** Leftmost match of [/\b([0-9a-f]{24})\b/i]: [prevWord] tells whether
    the character before the current position is a word character. *)
Fixpoint matchHex24 (prevWord : bool) (s : string) : option string :=
  match s with
  | EmptyString => None
  | String c r =>
      let here :=
        if prevWord then None
        else match takeHex 24 s with
             | Some (tok, rest) => if atWordEnd rest then Some tok else None
             | None => None
             end in
      match here with
      | Some tok => Some tok
      | None => matchHex24 (isWord c) r
      end
  end.

End Str.

(* ===================================================================== *)
(** ** Objects used as dictionaries                                       *)
(* ===================================================================== *)

Module Dict.

(** The property names every object literal inherits from
    [Object.prototype]. *)
Definition objectPrototypeKeys : list string :=
  [ "constructor"; "__proto__"; "hasOwnProperty"; "isPrototypeOf";
    "propertyIsEnumerable"; "toLocaleString"; "toString"; "valueOf";
    "__defineGetter__"; "__defineSetter__";
    "__lookupGetter__"; "__lookupSetter__" ].

Definition inheritedKey (k : string) : bool :=
  existsb (String.eqb k) objectPrototypeKeys.

(** What the fold has added to [Object.prototype]: the members [connect],
    [disconnect] and [timeout], each holding [NaN] once written. *)
Record ObjectPrototype : Type := mkPrototype {
  connectIsNaN : bool;
  disconnectIsNaN : bool;
  timeoutIsNaN : bool
}.

(** [Object.prototype] with its standard members only. *)
Definition standardPrototype : ObjectPrototype := mkPrototype false false false.

Definition addedKey (proto : ObjectPrototype) (k : string) : bool :=
  (connectIsNaN proto && String.eqb k "connect") ||
  (disconnectIsNaN proto && String.eqb k "disconnect") ||
  (timeoutIsNaN proto && String.eqb k "timeout").

(** What [obj[k]] finds. *)
Inductive Slot (T : Type) : Type :=
| Own (v : T)          (* an own property, written by this module *)
| Inherited            (* a standard member of Object.prototype: truthy, not a T *)
| InheritedNaN         (* a member the fold added to Object.prototype: NaN *)
| Missing.             (* undefined *)
Arguments Own {T} v.
Arguments Inherited {T}.
Arguments InheritedNaN {T}.
Arguments Missing {T}.

Definition get {T} (proto : ObjectPrototype) (m : gmap string T) (k : string) : Slot T :=
  match m !! k with
  | Some v => Own v
  | None =>
      if inheritedKey k then Inherited
      else if addedKey proto k then InheritedNaN
      else Missing
  end.

End Dict.

(* ===================================================================== *)
(** ** analytics.ts: the statistics derivation engine                     *)
(* ===================================================================== *)

Module Analytics.

(** Modelled from the spec: the declarations of [./types] are not among
    the sources. [AnyLogEvent] has the common members the accumulators
    read and the open [fields] bag; an absent optional member is [None]. *)
Record Event : Type := mkEvent {
  logType : string;
  eventFamily : option string;
  level : option string;
  message : option string;
  fields : option (gmap string JsVal)
}.

(** Modelled from the spec: [ParsedLogResult] of [./types], as far as the
    fold reads it. *)
Record ParsedLogResult : Type := mkResult {
  resultLogType : string;
  filePath : option string;
  events : list Event
}.

(** [fields?.name]. *)
Definition field (e : Event) (name : string) : JsVal :=
  match fields e with
  | Some bag => default JUndef (bag !! name)
  | None => JUndef
  end.

(** [event.message ?? ""]. *)
Definition messageOrEmpty (e : Event) : string := default "" (message e).

(** *** Counters kept in a dictionary *)

(** A slot of a [Record<string, number>]. [(m[k] ?? 0) + 1] on a key that
    [Object.prototype] defines reads the inherited member: on a standard
    member [+] concatenates, and [Text k n] is the string form of that
    member followed by [n] characters ["1"]; on a member the fold added
    the sum is [NaN], and stays [NaN]. *)
Inductive Counter : Type :=
| Count (n : nat)
| Text (k : string) (ones : nat)
| NotANumber.

(** [m[k] = (m[k] ?? 0) + 1]. Assigning a string to [__proto__] leaves the
    object as it is. *)
Definition bump (proto : Dict.ObjectPrototype) (m : gmap string Counter) (k : string)
  : gmap string Counter :=
  match Dict.get proto m k with
  | Dict.Own (Count n) => <[k := Count (S n)]> m
  | Dict.Own (Text k0 n) => <[k := Text k0 (S n)]> m
  | Dict.Own NotANumber => <[k := NotANumber]> m
  | Dict.Inherited =>
      if String.eqb k "__proto__" then m else <[k := Text k 1]> m
  | Dict.InheritedNaN => <[k := NotANumber]> m
  | Dict.Missing => <[k := Count 1]> m
  end.

(** *** Cache *)

Record CacheStats : Type := mkCache { hits : nat; misses : nat }.

Definition accumulateCache (event : Event) (cache : CacheStats) : CacheStats :=
  if negb (String.eqb (logType event) "backendCache") then cache
  else
    let hit := field event "cacheHit" in
    if isFalse hit then mkCache (hits cache) (S (misses cache))
    else mkCache (S (hits cache)) (misses cache).

(** *** Errors *)

Record ErrorStats : Type := mkErrors {
  totals : nat;
  byFamily : gmap string Counter
}.

Definition accumulateErrors (event : Event) (proto : Dict.ObjectPrototype)
    (errors : ErrorStats) : ErrorStats :=
  if negb (String.eqb (logType event) "errors") then errors
  else
    let family := default "unknown" (eventFamily event) in
    mkErrors (S (totals errors)) (bump proto (byFamily errors) family).

(** *** Push notifications and spatial audio *)

Record PushStats : Type := mkPush {
  pushConnections : nat;          (* [connections] *)
  drops : nat;
  notifications : nat
}.

Definition accumulatePush (event : Event) (push : PushStats) : PushStats :=
  if negb (String.eqb (logType event) "push-notifications") then push
  else
    let family := eventFamily event in
    if decide (family = Some "connection_params") then
      mkPush (S (pushConnections push)) (drops push) (notifications push)
    else if decide (family = Some "dropped") then
      mkPush (pushConnections push) (S (drops push)) (notifications push)
    else if decide (family = Some "notification" \/ family = Some "simple_notification") then
      mkPush (pushConnections push) (drops push) (S (notifications push))
    else push.

Record AudioStats : Type := mkAudio { initSuccess : nat; occlusionErrors : nat }.

Definition accumulateAudio (event : Event) (audio : AudioStats) : AudioStats :=
  if negb (String.eqb (logType event) "spatial-audio") then audio
  else
    let audio1 :=
      if decide (eventFamily event = Some "init_success")
      then mkAudio (S (initSuccess audio)) (occlusionErrors audio) else audio in
    if decide (eventFamily event = Some "occlusion_error")
    then mkAudio (initSuccess audio1) (S (occlusionErrors audio1)) else audio1.

(** *** Backend and inventory *)

Record BackendStats : Type := mkBackend {
  totalRequests : nat;
  totalResponses : nat;
  totalErrors : nat;
  retries : nat;
  byStatusCode : gmap string Counter;
  byEndpoint : gmap string Counter
}.

Record InventoryStats : Type := mkInventory {
  totalRejections : nat;
  byOperation : gmap string Counter;
  byCode : gmap string Counter;
  inventoryItems : gmap string Counter      (* [items] *)
}.

Inductive EntityKind : Type := KindItem | KindTrader.

Record ResolvedEntity : Type := mkEntity {
  entityId : JsVal;               (* [id] *)
  entityKind : EntityKind         (* [kind] *)
}.

(** *** Network *)

Record AddressEntry : Type := mkEntry {
  connect : nat; disconnect : nat; timeout : nat
}.

(** A slot of [byAddress]: an entry made here; or, for an address that
    names a standard member of [Object.prototype], that member itself (the
    counts the source then writes land on the built-in, not in the table);
    or, for an address that names a member the fold added, the number
    [NaN] that member holds. *)
Inductive AddressSlot : Type :=
| Entry (e : AddressEntry)
| Builtin (k : string)
| NaNValue.

(** The members of an entry. *)
Inductive EntryMember : Type := MemberConnect | MemberDisconnect | MemberTimeout.

Record NetworkMetrics : Type := mkMetrics {
  samples : nat;
  rttSamples : option nat;
  rttAvg : option Q;
  rpiAvg : option Q;
  ludAvg : option Q;
  totalPacketsLost : option Q;
  totalPacketsSent : option Q;
  totalPacketsReceived : option Q
}.

Record NetworkStats : Type := mkNetwork {
  connections : nat;
  disconnects : nat;
  timeouts : nat;
  byAddress : gmap string AddressSlot;
  metrics : NetworkMetrics
}.

(** [cur + (x - cur) / n]. *)
Definition runningAverage (cur x : Q) (n : nat) : Q :=
  (cur + (x - cur) / inject_Z (Z.of_nat n))%Q.

(** [total = (total ?? 0) + x] when [x] is a number. *)
Definition addWhenNumber (total : option Q) (v : JsVal) : option Q :=
  match asNumber v with
  | Some x => Some (default 0%Q total + x)%Q
  | None => total
  end.

(** [Object.prototype] after [NaN] was written to one of the members. *)
Definition pollute (member : EntryMember) (proto : Dict.ObjectPrototype)
  : Dict.ObjectPrototype :=
  match member with
  | MemberConnect =>
      Dict.mkPrototype true (Dict.disconnectIsNaN proto) (Dict.timeoutIsNaN proto)
  | MemberDisconnect =>
      Dict.mkPrototype (Dict.connectIsNaN proto) true (Dict.timeoutIsNaN proto)
  | MemberTimeout =>
      Dict.mkPrototype (Dict.connectIsNaN proto) (Dict.disconnectIsNaN proto) true
  end.

(** [entry.member += 1]. On an entry made here the count goes up. On a
    built-in the member read is [undefined] or [NaN], the sum is [NaN], and
    it is written onto the built-in: onto [Object.prototype] itself when
    the entry was read under [__proto__] ([underProto]), onto a function
    object otherwise, where no dictionary read finds it. On the number
    [NaN] the assignment raises. *)
Definition raiseMember (member : EntryMember) (entry : AddressSlot) (underProto : bool)
    (proto : Dict.ObjectPrototype) : Res (AddressSlot * Dict.ObjectPrototype) :=
  match entry with
  | Entry e =>
      Ok (Entry match member with
                | MemberConnect => mkEntry (S (connect e)) (disconnect e) (timeout e)
                | MemberDisconnect => mkEntry (connect e) (S (disconnect e)) (timeout e)
                | MemberTimeout => mkEntry (connect e) (disconnect e) (S (timeout e))
                end,
          proto)
  | Builtin k => Ok (Builtin k, if underProto then pollute member proto else proto)
  | NaNValue => Throw (TypeError "Cannot create property on number 'NaN'")
  end.

(** *** Anti-cheat *)

Record AntiCheatStats : Type := mkAntiCheat {
  initLines : nat;
  anticheatErrors : nat;          (* [errors] *)
  lastStatus : option string
}.

Definition accumulateAnticheat (event : Event) (anticheat : AntiCheatStats)
  : Res AntiCheatStats :=
  if negb (String.eqb (logType event) "application") then Ok anticheat
  else
    let anticheat1 :=
      if decide (eventFamily event = Some "anticheat")
      then mkAntiCheat (S (initLines anticheat)) (anticheatErrors anticheat) (message event)
      else anticheat in
    if decide (eventFamily event = Some "error") then
      match message event with
      | None => Throw (TypeError "Cannot read properties of undefined (reading 'toLowerCase')")
      | Some msg =>
          if Str.includes (Str.toLowerCase msg) "battleye"
          then Ok (mkAntiCheat (initLines anticheat1) (S (anticheatErrors anticheat1))
                     (lastStatus anticheat1))
          else Ok anticheat1
      end
    else Ok anticheat1.

(** *** Quests *)

Inductive QuestStatus : Type := Unknown | Started | Completed | Failed.

#[export] Instance QuestStatus_eq_dec : EqDecision QuestStatus.
Proof. solve_decision. Defined.

(** [QuestStat]. [rewardItems] keeps the templates that hold a count; the
    counts, which follow the coercions of [+] on whatever the event
    carried, are not modelled. [traderName] is never written. *)
Record QuestStat : Type := mkQuest {
  questId : JsVal;                (* [id] *)
  status : QuestStatus;
  relatedEvents : list Event;
  traderId : option JsVal;
  rewardRubles : option Q;
  rewardItems : option (gset string)
}.

(** The status chain of [accumulateQuest]. *)
Definition nextStatus (current : QuestStatus) (questStatus : string) : QuestStatus :=
  if Str.includes questStatus "completed" || String.eqb questStatus "success" then Completed
  else if Str.includes questStatus "fail" then Failed
  else if Str.includes questStatus "start" || Str.includes questStatus "description" then
    (if decide (current = Unknown) then Started else current)
  else current.

(** [(fields?.questStatus as string)?.toLowerCase() ??
     (event.message ?? "").toLowerCase()]: the cast checks nothing, so a
    value that is neither nullish nor a string has no [toLowerCase]. *)
Definition statusSource (event : Event) : Res string :=
  match field event "questStatus" with
  | JUndef | JNull => Ok (Str.toLowerCase (messageOrEmpty event))
  | JStr s => Ok (Str.toLowerCase s)
  | _ => Throw (TypeError "toLowerCase is not a function")
  end.

Fixpoint digits (fuel n : nat) (acc : string) : string :=
  match fuel with
  | O => acc
  | S fuel' =>
      let acc' := String (ascii_of_nat (48 + n mod 10)) acc in
      if (n <? 10)%nat then acc' else digits fuel' (n / 10) acc'
  end.

(** The decimal form of an array index. *)
Definition indexKey (n : nat) : string := digits (S n) n "".

Fixpoint chars (s : string) : list string :=
  match s with
  | EmptyString => []
  | String c r => String c EmptyString :: chars r
  end.

(** The keys of [Object.entries(v)]. *)
Definition entryKeys (v : JsVal) : list string :=
  match v with
  | JObj props => map fst props
  | JArr items => map indexKey (seq 0 (List.length items))
  | JStr s => map indexKey (seq 0 (String.length s))
  | _ => []
  end.

(** What [for (const tpl of v)] walks through. *)
Definition iterate (v : JsVal) : Res (list JsVal) :=
  match v with
  | JArr items => Ok items
  | JStr s => Ok (map JStr (chars s))
  | _ => Throw (TypeError "rewardItems is not iterable")
  end.

(** [target[k] = ...] with a number or a string on the right: every key
    becomes an own property, except [__proto__]. *)
Definition touch (k : string) (keys : gset string) : gset string :=
  if String.eqb k "__proto__" then keys else {[ k ]} ∪ keys.

Section WithNumberToString.
Variable numberToString : Q -> string.

(** [if (!target[id]) target[id] = { id, kind }]: [NaN] is falsy. *)
Definition upsertResolved (proto : Dict.ObjectPrototype)
    (target : gmap string ResolvedEntity) (id : JsVal)
    (kind : EntityKind) : gmap string ResolvedEntity :=
  let k := toString numberToString id in
  match Dict.get proto target k with
  | Dict.Missing | Dict.InheritedNaN => <[k := mkEntity id kind]> target
  | Dict.Own _ | Dict.Inherited => target
  end.

(** [if (v) m[v] = (m[v] ?? 0) + 1], the key coerced to a string. *)
Definition bumpWhen (proto : Dict.ObjectPrototype) (present : bool)
    (m : gmap string Counter) (v : JsVal) : gmap string Counter :=
  if present then bump proto m (toString numberToString v) else m.

Definition accumulateBackend (event : Event) (proto : Dict.ObjectPrototype)
    (backend : BackendStats) : BackendStats :=
  if negb (String.eqb (logType event) "backend") then backend
  else
    let url := field event "url" in
    let code := field event "responseCode" in
    let family := eventFamily event in
    if decide (family = Some "request") then
      mkBackend (S (totalRequests backend)) (totalResponses backend)
        (totalErrors backend) (retries backend) (byStatusCode backend)
        (bumpWhen proto (truthy url) (byEndpoint backend) url)
    else if decide (family = Some "response") then
      mkBackend (totalRequests backend) (S (totalResponses backend))
        (totalErrors backend) (retries backend)
        (bumpWhen proto (truthy code) (byStatusCode backend) code)
        (bumpWhen proto (truthy url) (byEndpoint backend) url)
    else if decide (family = Some "transport_error" \/ family = Some "server_exception") then
      mkBackend (totalRequests backend) (totalResponses backend)
        (S (totalErrors backend)) (retries backend)
        (bumpWhen proto (truthy code) (byStatusCode backend) code)
        (byEndpoint backend)
    else if decide (family = Some "retry") then
      mkBackend (totalRequests backend) (totalResponses backend)
        (totalErrors backend) (S (retries backend)) (byStatusCode backend)
        (byEndpoint backend)
    else backend.

Definition accumulateInventory (event : Event) (proto : Dict.ObjectPrototype)
    (inventory : InventoryStats)
    (items : gmap string ResolvedEntity) : InventoryStats * gmap string ResolvedEntity :=
  if negb (String.eqb (logType event) "inventory") then (inventory, items)
  else
    let op := field event "operationType" in
    let code := field event "code" in
    let itemId := field event "itemId" in
    let isDefined := match code with JUndef => false | _ => true end in
    (mkInventory (S (totalRejections inventory))
       (bumpWhen proto (truthy op) (byOperation inventory) op)
       (bumpWhen proto isDefined (byCode inventory) code)
       (bumpWhen proto (truthy itemId) (inventoryItems inventory) itemId),
     if truthy itemId then upsertResolved proto items itemId KindItem else items).

Definition accumulateConnection (event : Event) (proto : Dict.ObjectPrototype)
    (network : NetworkStats) : Res (NetworkStats * Dict.ObjectPrototype) :=
  let a := field event "address" in
  let addr := if nullish a then "unknown" else toString numberToString a in
  (* const entry = (byAddress[addr] = byAddress[addr] ?? {0, 0, 0}) *)
  let entry :=
    match Dict.get proto (byAddress network) addr with
    | Dict.Own s => s
    | Dict.Inherited => Builtin addr
    | Dict.InheritedNaN => NaNValue
    | Dict.Missing => Entry (mkEntry 0 0 0)
    end in
  (* the table holds the entry itself: a write to the entry shows there *)
  let store (s : AddressSlot) : gmap string AddressSlot :=
    if String.eqb addr "__proto__" then byAddress network
    else <[addr := s]> (byAddress network) in
  let underProto := String.eqb addr "__proto__" in
  let m := metrics network in
  let family := eventFamily event in
  if decide (family = Some "connect" \/ family = Some "state_enter") then
    '(entry', proto') ← raiseMember MemberConnect entry underProto proto;
    Ok (mkNetwork (S (connections network)) (disconnects network) (timeouts network)
          (store entry') m, proto')
  else if decide (family = Some "disconnect" \/ family = Some "send_disconnect") then
    '(entry', proto') ← raiseMember MemberDisconnect entry underProto proto;
    Ok (mkNetwork (connections network) (S (disconnects network)) (timeouts network)
          (store entry') m, proto')
  else if decide (family = Some "timeout") then
    '(entry', proto') ← raiseMember MemberTimeout entry underProto proto;
    Ok (mkNetwork (connections network) (disconnects network) (S (timeouts network))
          (store entry') m, proto')
  else if decide (family = Some "statistics") then
    let '(rttSamples', rttAvg') :=
      match asNumber (field event "rtt") with
      | Some rtt =>
          let n := S (default 0%nat (rttSamples m)) in
          let curRtt := default 0%Q (rttAvg m) in
          (Some n, Some (runningAverage curRtt rtt n))
      | None => (rttSamples m, rttAvg m)
      end in
    Ok (mkNetwork (connections network) (disconnects network) (timeouts network)
          (store entry)
          (mkMetrics (samples m) rttSamples' rttAvg' (rpiAvg m) (ludAvg m)
             (addWhenNumber (totalPacketsLost m) (field event "packetsLost"))
             (addWhenNumber (totalPacketsSent m) (field event "packetsSent"))
             (addWhenNumber (totalPacketsReceived m) (field event "packetsReceived"))),
        proto)
  else
    Ok (mkNetwork (connections network) (disconnects network) (timeouts network)
          (store entry) m, proto).

Definition accumulateMessages (event : Event) (network : NetworkStats) : NetworkStats :=
  let m := metrics network in
  let n := S (samples m) in
  let rpiAvg' :=
    match asNumber (field event "rpi") with
    | Some rpi => Some (runningAverage (default 0%Q (rpiAvg m)) rpi n)
    | None => rpiAvg m
    end in
  let ludAvg' :=
    match asNumber (field event "lud") with
    | Some lud => Some (runningAverage (default 0%Q (ludAvg m)) lud n)
    | None => ludAvg m
    end in
  mkNetwork (connections network) (disconnects network) (timeouts network)
    (byAddress network)
    (mkMetrics n (rttSamples m) (rttAvg m) rpiAvg' ludAvg'
       (totalPacketsLost m) (totalPacketsSent m) (totalPacketsReceived m)).

Definition accumulateNetwork (event : Event) (proto : Dict.ObjectPrototype)
    (network : NetworkStats) : Res (NetworkStats * Dict.ObjectPrototype) :=
  '(network1, proto1) ←
    (if String.eqb (logType event) "network-connection"
     then accumulateConnection event proto network else Ok (network, proto));
  Ok (if String.eqb (logType event) "network-messages"
      then accumulateMessages event network1 else network1,
      proto1).

Definition findQuestId (event : Event) : option JsVal :=
  match Str.matchHex24 false (messageOrEmpty event) with
  | Some tok => Some (JStr tok)
  | None =>
      let q := field event "questId" in
      if truthy q then Some q else None
  end.

Definition accumulateRewardItems (event : Event) (current : option (gset string))
  : Res (option (gset string)) :=
  let rewardItemsCounts := field event "questRewardItemsCounts" in
  let rewardItems := field event "questRewardItems" in
  if truthy rewardItemsCounts || truthy rewardItems then
    let keys0 := default ∅ current in
    let keys1 :=
      if truthy rewardItemsCounts
      then foldl (fun ks tpl => touch tpl ks) keys0 (entryKeys rewardItemsCounts)
      else keys0 in
    if truthy rewardItems then
      tpls ← iterate rewardItems;
      Ok (Some (foldl (fun ks tpl => touch (toString numberToString tpl) ks) keys1 tpls))
    else Ok (Some keys1)
  else Ok current.

(** The body of [accumulateQuest] once [quests[questId]] is a record. *)
Definition updateQuest (event : Event) (proto : Dict.ObjectPrototype)
    (key : string) (q : QuestStat)
    (quests : gmap string QuestStat) (traders : gmap string ResolvedEntity)
  : Res (gmap string QuestStat * gmap string ResolvedEntity) :=
  let related := (relatedEvents q ++ [event])%list in
  questStatus ← statusSource event;
  let status' := nextStatus (status q) questStatus in
  let rubles' := addWhenNumber (rewardRubles q) (field event "questRewardRubles") in
  items' ← accumulateRewardItems event (rewardItems q);
  let traderFromEvent := field event "questTraderId" in
  let '(trader', traders') :=
    match traderId q with
    | None =>
        if truthy traderFromEvent
        then (Some traderFromEvent,
              upsertResolved proto traders traderFromEvent KindTrader)
        else (None, traders)
    | Some t => (Some t, traders)
    end in
  Ok (<[key := mkQuest (questId q) status' related trader' rubles' items']> quests,
      traders').

Definition accumulateQuest (event : Event) (proto : Dict.ObjectPrototype)
    (quests : gmap string QuestStat) (traders : gmap string ResolvedEntity)
  : Res (gmap string QuestStat * gmap string ResolvedEntity) :=
  match findQuestId event with
  | None => Ok (quests, traders)
  | Some qid =>
      let key := toString numberToString qid in
      match Dict.get proto quests key with
      | Dict.Missing | Dict.InheritedNaN =>
          (* !quests[questId], NaN being falsy: a fresh record *)
          updateQuest event proto key (mkQuest qid Unknown [] None None None)
            quests traders
      | Dict.Own q => updateQuest event proto key q quests traders
      | Dict.Inherited =>
          (* a standard member of Object.prototype is truthy and has no
             relatedEvents *)
          Throw (TypeError "Cannot read properties of undefined (reading 'push')")
      end
  end.

(** *** The fold *)

(** [Statistics], without [sessions] and [matchmaking]: the session
    builder ([buildSessions], further down) and the matchmaking list raise
    nothing and write nothing the accumulators below read. *)
Record Statistics : Type := mkStatistics {
  backend : BackendStats;
  cache : CacheStats;
  inventory : InventoryStats;
  network : NetworkStats;
  push : PushStats;
  audio : AudioStats;
  errors : ErrorStats;
  anticheat : AntiCheatStats;
  quests : gmap string QuestStat;      (* read through Object.values *)
  traders : gmap string ResolvedEntity;
  items : gmap string ResolvedEntity
}.

Definition emptyStatistics : Statistics :=
  mkStatistics
    (mkBackend 0 0 0 0 ∅ ∅)
    (mkCache 0 0)
    (mkInventory 0 ∅ ∅ ∅)
    (mkNetwork 0 0 0 ∅ (mkMetrics 0 None None None None None None None))
    (mkPush 0 0 0)
    (mkAudio 0 0)
    (mkErrors 0 ∅)
    (mkAntiCheat 0 0 None)
    ∅ ∅ ∅.

(** The body of the inner loop. The accumulators run in the order of
    the source: those after [accumulateNetwork] read [Object.prototype]
    as that one left it. *)
Definition accumulateEvent (event : Event) (proto : Dict.ObjectPrototype)
    (st : Statistics) : Res (Statistics * Dict.ObjectPrototype) :=
  let backend' := accumulateBackend event proto (backend st) in
  let cache' := accumulateCache event (cache st) in
  let '(inventory', items') := accumulateInventory event proto (inventory st) (items st) in
  '(network', proto') ← accumulateNetwork event proto (network st);
  let push' := accumulatePush event (push st) in
  let audio' := accumulateAudio event (audio st) in
  let errors' := accumulateErrors event proto' (errors st) in
  anticheat' ← accumulateAnticheat event (anticheat st);
  '(quests', traders') ← accumulateQuest event proto' (quests st) (traders st);
  Ok (mkStatistics backend' cache' inventory' network' push' audio' errors'
        anticheat' quests' traders' items',
      proto').

Fixpoint foldEvents (evs : list Event) (proto : Dict.ObjectPrototype) (st : Statistics)
  : Res (Statistics * Dict.ObjectPrototype) :=
  match evs with
  | [] => Ok (st, proto)
  | event :: rest =>
      '(st', proto') ← accumulateEvent event proto st; foldEvents rest proto' st'
  end.

Fixpoint foldResults (results : list ParsedLogResult) (proto : Dict.ObjectPrototype)
    (st : Statistics) : Res (Statistics * Dict.ObjectPrototype) :=
  match results with
  | [] => Ok (st, proto)
  | result :: rest =>
      '(st', proto') ← foldEvents (events result) proto st; foldResults rest proto' st'
  end.

(** [deriveStatistics(results)], called with [Object.prototype] in the
    state [proto]. *)
Definition deriveStatistics (proto : Dict.ObjectPrototype)
    (results : list ParsedLogResult) : Res Statistics :=
  '(st, _) ← foldResults results proto emptyStatistics; Ok st.

End WithNumberToString.

(** *** Sessions *)

(** [ParsedLogResult.meta], as far as [buildSessions] reads it; kept
    beside the result. Modelled from its uses: the declaration is the
    library's. *)
Record ResultMeta : Type := mkMeta {
  sessionPrefix : option string;
  buildVersion : option string;
  earliestTimestamp : option string;
  latestTimestamp : option string
}.

(** [{ events, errors, warnings }]. *)
Record LevelCounts : Type := mkCounts {
  eventCount : nat;               (* [events] *)
  errorCount : nat;               (* [errors] *)
  warningCount : nat              (* [warnings] *)
}.

Definition countLevels (evs : list Event) : LevelCounts :=
  let visit (acc : nat * nat) (e : Event) : nat * nat :=
    let errors := if decide (level e = Some "Error") then S (fst acc) else fst acc in
    let warnings :=
      if decide (level e = Some "Warn" \/ level e = Some "Warning")
      then S (snd acc) else snd acc in
    (errors, warnings) in
  let counted := foldl visit (0, 0)%nat evs in
  mkCounts (List.length evs) (fst counted) (snd counted).

(** One position of the pattern of [extractSessionPrefix]: a literal
    character or [\d]. *)
Inductive Atom : Type :=
| Lit (c : ascii)
| Digit.

Definition matchesAtom (a : Atom) (c : ascii) : bool :=
  match a with
  | Lit x => Ascii.eqb x c
  | Digit => Str.isDigit c
  end.

(** [log_\d{4}\.\d{2}\.\d{2}_\d{2}-\d{2}-\d{2}]. *)
Definition sessionPattern : list Atom :=
  [ Lit "l"; Lit "o"; Lit "g"; Lit "_"; Digit; Digit; Digit; Digit;
    Lit "."; Digit; Digit; Lit "."; Digit; Digit;
    Lit "_"; Digit; Digit; Lit "-"; Digit; Digit; Lit "-"; Digit; Digit ]%char.

(** The atoms matched at the head of [s]: what they matched, and the rest. *)
Fixpoint matchAtoms (pattern : list Atom) (s : string) : option (string * string) :=
  match pattern with
  | [] => Some (EmptyString, s)
  | a :: pattern' =>
      match s with
      | String c r =>
          if matchesAtom a c then
            match matchAtoms pattern' r with
            | Some (matched, rest) => Some (String c matched, rest)
            | None => None
            end
          else None
      | EmptyString => None
      end
  end.

Definition isSeparator (c : ascii) : bool :=
  Ascii.eqb c "/" || Ascii.eqb c "\".

(** [[^/\\]*], greedy. *)
Fixpoint takeName (s : string) : string :=
  match s with
  | EmptyString => EmptyString
  | String c r => if isSeparator c then EmptyString else String c (takeName r)
  end.

(** The leftmost match of the whole pattern. *)
Fixpoint matchSession (s : string) : option string :=
  match matchAtoms sessionPattern s with
  | Some (matched, rest) => Some (matched +:+ takeName rest)
  | None =>
      match s with
      | EmptyString => None
      | String _ r => matchSession r
      end
  end.

Definition extractSessionPrefix (path : option string) : option string :=
  match path with
  | None => None
  | Some p => if String.eqb p "" then None else matchSession p
  end.

Record SessionSummary : Type := mkSession {
  sessionId : string;                      (* [id] *)
  sessionBuildVersion : option string;     (* [buildVersion] *)
  sessionEarliest : option string;         (* [earliestTimestamp] *)
  sessionLatest : option string;           (* [latestTimestamp] *)
  sessionLogTypes : list string;           (* [logTypes] *)
  sessionTotals : LevelCounts              (* [totals] *)
}.

(** [ToBoolean] of an optional string. *)
Definition truthyString (s : option string) : bool :=
  match s with
  | Some s => negb (String.eqb s "")
  | None => false
  end.

(** A [Map<string, V>], in insertion order. *)
Fixpoint mapGet {V} (k : string) (m : list (string * V)) : option V :=
  match m with
  | [] => None
  | (k', v) :: rest => if String.eqb k k' then Some v else mapGet k rest
  end.

(** Writing through the reference [get] returned: the entry keeps its place. *)
Fixpoint mapUpdate {V} (k : string) (v : V) (m : list (string * V)) : list (string * V) :=
  match m with
  | [] => []
  | (k', v') :: rest =>
      if String.eqb k k' then (k', v) :: rest else (k', v') :: mapUpdate k v rest
  end.

(** [res.meta.sessionPrefix ?? extractSessionPrefix(res.filePath) ?? "unknown"]. *)
Definition sessionOf (res : ParsedLogResult) (meta : ResultMeta) : string :=
  match sessionPrefix meta with
  | Some prefix => prefix
  | None => default "unknown" (extractSessionPrefix (filePath res))
  end.

(** The body of the loop of [buildSessions]. *)
Definition addResult (sessionsMap : list (string * SessionSummary))
    (r : ParsedLogResult * ResultMeta) : list (string * SessionSummary) :=
  let '(res, meta) := r in
  let id := sessionOf res meta in
  let counts := countLevels (events res) in
  match mapGet id sessionsMap with
  | None =>
      (sessionsMap ++
         [(id, mkSession id (buildVersion meta) (earliestTimestamp meta)
                 (latestTimestamp meta) [resultLogType res] counts)])%list
  | Some existing =>
      let totals :=
        mkCounts (eventCount (sessionTotals existing) + eventCount counts)
          (errorCount (sessionTotals existing) + errorCount counts)
          (warningCount (sessionTotals existing) + warningCount counts) in
      let logTypes :=
        if decide (resultLogType res ∈ sessionLogTypes existing)
        then sessionLogTypes existing
        else (sessionLogTypes existing ++ [resultLogType res])%list in
      let earliest :=
        if truthyString (earliestTimestamp meta) &&
           (negb (truthyString (sessionEarliest existing)) ||
            String.ltb (default "" (earliestTimestamp meta))
              (default "" (sessionEarliest existing)))
        then earliestTimestamp meta else sessionEarliest existing in
      let latest :=
        if truthyString (latestTimestamp meta) &&
           (negb (truthyString (sessionLatest existing)) ||
            String.ltb (default "" (sessionLatest existing))
              (default "" (latestTimestamp meta)))
        then latestTimestamp meta else sessionLatest existing in
      let build :=
        if negb (truthyString (sessionBuildVersion existing)) &&
           truthyString (buildVersion meta)
        then buildVersion meta else sessionBuildVersion existing in
      mapUpdate id (mkSession (sessionId existing) build earliest latest logTypes totals)
        sessionsMap
  end.

Definition buildSessions (results : list (ParsedLogResult * ResultMeta))
  : list SessionSummary :=
  map snd (foldl addResult [] results).

End Analytics.

(* ===================================================================== *)
(** ** selectors.ts                                                       *)
(* ===================================================================== *)

Module Selectors.

(** Modelled from the spec: [ConnectivityInsight] is declared by the
    insights library; [getConnectionSuccessRate] reads two event counts of
    it. *)
Record ConnectivityInsight : Type := mkConnectivity {
  totalConnections : nat;
  totalTimeouts : nat
}.

Definition ofNat (n : nat) : Q := inject_Z (Z.of_nat n).

Definition getConnectionSuccessRate (connectivity : ConnectivityInsight) : Q :=
  let total := (totalConnections connectivity + totalTimeouts connectivity)%nat in
  if (total =? 0)%nat then 100%Q
  else (ofNat (totalConnections connectivity) / ofNat total * 100)%Q.

(** [lo, lo+1, ..., hi-1]: the values a [for (j = lo; j < hi; j++)] takes. *)
Definition range (lo hi : Z) : list Z := seqZ lo (hi - lo).

Section Downsample.
Variable T : Type.
Variables px py : T -> Q.       (* the members [x] and [y] of a point *)

(** [data[i]]: [None] is [undefined]. *)
Definition item (data : list T) (i : Z) : option T :=
  if (i <? 0)%Z then None else data !! Z.to_nat i.

(** [p.x] and [p.y] on a possibly undefined [p]. *)
Definition coords (p : option T) : Res (Q * Q) :=
  match p with
  | Some t => Ok (px t, py t)
  | None => Throw (TypeError "Cannot read properties of undefined")
  end.

(** The sums [avgX], [avgY] over [data[lo .. hi-1]]. *)
Fixpoint sumRange (data : list T) (js : list Z) (acc : Q * Q) : Res (Q * Q) :=
  match js with
  | [] => Ok acc
  | j :: rest =>
      '(x, y) ← coords (item data j);
      sumRange data rest ((fst acc + x)%Q, (snd acc + y)%Q)
  end.

(** [sum / length]; [0 / 0] is [NaN], written [None]. *)
Definition average (sum : Q) (len : Z) : option Q :=
  if (len =? 0)%Z then None else Some (sum / inject_Z len)%Q.

(** [area > maxArea], false when the area is [NaN]. *)
Definition exceeds (area : option Q) (maxArea : Q) : bool :=
  match area with
  | Some a => negb (Qle_bool a maxArea)
  | None => false
  end.

(** The inner loop that looks for the largest triangle. *)
Fixpoint selectMax (data : list T) (prevPoint : option T) (avgX avgY : option Q)
    (js : list Z) (maxArea : Q) (maxAreaPoint : option T) : Res (option T) :=
  match js with
  | [] => Ok maxAreaPoint
  | j :: rest =>
      '(prevX, prevY) ← coords prevPoint;
      '(x, y) ← coords (item data j);
      let area :=
        match avgX, avgY with
        | Some ax, Some ay =>
            Some (Qabs ((prevX - ax) * (y - prevY) - (prevX - x) * (ay - prevY)))%Q
        | _, _ => None
        end in
      if exceeds area maxArea
      then selectMax data prevPoint avgX avgY rest (default maxArea area) (item data j)
      else selectMax data prevPoint avgX avgY rest maxArea maxAreaPoint
  end.

(** One turn of the bucket loop: the point pushed for bucket [i]. *)
Definition bucketPoint (data : list T) (bucketSize : Q) (prevPoint : option T) (i : Z)
  : Res (option T) :=
  let n := Z.of_nat (length data) in
  let avgRangeStart := (Qfloor (inject_Z (i + 1) * bucketSize) + 1)%Z in
  let avgRangeEnd := (Qfloor (inject_Z (i + 2) * bucketSize) + 1)%Z in
  let avgRangeLength := (Z.min avgRangeEnd n - avgRangeStart)%Z in
  '(sumX, sumY) ← sumRange data (range avgRangeStart (Z.min avgRangeEnd n)) (0%Q, 0%Q);
  let avgX := average sumX avgRangeLength in
  let avgY := average sumY avgRangeLength in
  let rangeStart := (Qfloor (inject_Z i * bucketSize) + 1)%Z in
  let rangeEnd := (Qfloor (inject_Z (i + 1) * bucketSize) + 1)%Z in
  selectMax data prevPoint avgX avgY (range rangeStart rangeEnd) (-1)%Q (item data rangeStart).

(** The bucket loop; [result] is the array built so far. *)
Fixpoint buckets (data : list T) (bucketSize : Q) (turns : list Z)
    (result : list (option T)) : Res (list (option T)) :=
  match turns with
  | [] => Ok result
  | i :: rest =>
      let prevPoint := mjoin (last result) in
      p ← bucketPoint data bucketSize prevPoint i;
      buckets data bucketSize rest (result ++ [p])%list
  end.

(** [downsampleData(data, maxPoints)] for an integer [maxPoints]. The
    elements of the array returned are [option T]: [data[0]] of an empty
    array is [undefined]. The quotient [bucketSize] is read only inside the
    bucket loop, which runs only when [maxPoints > 2]. *)
Definition downsampleData (data : list T) (maxPoints : Z) : Res (list (option T)) :=
  let n := Z.of_nat (length data) in
  if (n <=? maxPoints)%Z then Ok (map Some data)
  else
    let bucketSize := (inject_Z (n - 2) / inject_Z (maxPoints - 2))%Q in
    let result := [item data 0] in
    result' ← buckets data bucketSize (range 0 (maxPoints - 2)) result;
    Ok (result' ++ [item data (n - 1)])%list.

End Downsample.

(** *** Parsed files *)

(** [getTotalEventCount(results)]. *)
Definition getTotalEventCount (results : list Analytics.ParsedLogResult) : nat :=
  foldl (fun sum r => (sum + length (Analytics.events r))%nat) 0%nat results.

(** [set.add(x)] on a [Set<string>], in insertion order. *)
Definition setAdd (set : list string) (x : string) : list string :=
  if decide (x ∈ set) then set else (set ++ [x])%list.

(** [getUniqueLogTypes(results)]: [Array.from(new Set(...))]. *)
Definition getUniqueLogTypes (results : list Analytics.ParsedLogResult) : list string :=
  foldl setAdd [] (map Analytics.resultLogType results).

(** [groupResultsByLogType(results)]: the [Map], in insertion order. *)
Definition groupResultsByLogType (results : list Analytics.ParsedLogResult)
  : list (string * list Analytics.ParsedLogResult) :=
  foldl (fun grouped r =>
           let key := Analytics.resultLogType r in
           match Analytics.mapGet key grouped with
           | Some existing => Analytics.mapUpdate key (existing ++ [r])%list grouped
           | None => (grouped ++ [(key, [r])])%list
           end) [] results.

End Selectors.

(* ===================================================================== *)
(** ** parseWorkerPool.ts and the worker script                           *)
(* ===================================================================== *)

Module Pool.

Record ParseTask : Type := mkTask {
  taskId : string;                (* [id] *)
  fileName : string;
  content : string
}.

(** A [resolve] callback is known by the promise it settles, a worker by
    its position in [workers]. *)
Abbreviation PromiseId := nat.
Abbreviation Worker := nat.

Section WithParser.
(** [ParsedLogResult] and the parser are the library's: [parseText]
    returns a result or throws. *)
Variable Parsed : Type.

(** What a [catch] clause receives. *)
Inductive Thrown : Type :=
| ErrorObject (message : string)      (* an instance of Error *)
| OtherValue.

Variable parseText : string -> string -> Parsed + Thrown.

Record ParseResult : Type := mkParseResult {
  resultId : string;              (* [id] *)
  success : bool;
  result : option Parsed;
  error : option string
}.

(** The state of a promise handed out by [parse]. *)
Inductive Promise : Type :=
| Pending
| Resolved (value : ParseResult)
| Rejected (reason : string).

Record PendingTask : Type := mkPending {
  task : ParseTask;
  resolve : PromiseId
}.

(** The message the pool posts to a worker. *)
Record WorkerMessage : Type := mkMessage {
  msgId : string;
  msgFileName : string;
  msgContent : string
}.

Inductive ResponseType : Type := TypeResult | TypeError_.

Record WorkerResponse : Type := mkResponse {
  respType : ResponseType;
  respId : string;
  respResult : option Parsed;
  respError : option string
}.

(** The worker script's [onmessage]. *)
Definition workerOnMessage (m : WorkerMessage) : WorkerResponse :=
  match parseText (msgFileName m) (msgContent m) with
  | inl r => mkResponse TypeResult (msgId m) (Some r) None
  | inr (ErrorObject message) => mkResponse TypeError_ (msgId m) None (Some message)
  | inr OtherValue => mkResponse TypeError_ (msgId m) None (Some "Unknown parsing error")
  end.

(** The private members of [ParseWorkerPool]. *)
Record PoolState : Type := mkPool {
  poolSize : nat;
  workers : list Worker;
  availableWorkers : list Worker;
  pendingTasks : list PendingTask;
  taskMap : gmap string PendingTask;
  isTerminated : bool
}.

(** The pool together with what its methods reach: the promises handed
    out, and the messages posted to workers and not answered yet. *)
Record World : Type := mkWorld {
  pool : PoolState;
  promises : list Promise;
  posted : list (Worker * WorkerMessage)
}.

(** Calling a [resolve] callback: a promise settles once. *)
Definition resolvePromise (ps : list Promise) (p : PromiseId) (v : ParseResult)
  : list Promise :=
  match ps !! p with
  | Some Pending => <[p := Resolved v]> ps
  | _ => ps
  end.

(** [new ParseWorkerPool(poolSize)]. *)
Definition newPool (size : nat) : PoolState :=
  mkPool size (seq 0 size) (seq 0 size) [] ∅ false.

Definition newWorld (size : nat) : World := mkWorld (newPool size) [] [].

Definition processNextTask (w : World) : World :=
  let p := pool w in
  if isTerminated p then w
  else
    match pendingTasks p with
    | [] => w
    | pending :: queue =>                       (* pendingTasks.shift() *)
        match last (availableWorkers p) with
        | None => w
        | Some worker =>                        (* availableWorkers.pop() *)
            let t := task pending in
            mkWorld
              (mkPool (poolSize p) (workers p)
                 (removelast (availableWorkers p)) queue
                 (<[taskId t := pending]> (taskMap p)) false)
              (promises w)
              (posted w ++ [(worker, mkMessage (taskId t) (fileName t) (content t))])
        end
    end.

(** [parse(task)]: the new state and the promise returned. *)
Definition parse (t : ParseTask) (w : World) : World * PromiseId :=
  let p := pool w in
  let pid := length (promises w) in
  if isTerminated p then
    (mkWorld p
       (promises w ++
          [Resolved (mkParseResult (taskId t) false None
                       (Some "Worker pool has been terminated"))])
       (posted w),
     pid)
  else
    let queued :=
      mkWorld
        (mkPool (poolSize p) (workers p) (availableWorkers p)
           (pendingTasks p ++ [mkPending t pid]) (taskMap p) (isTerminated p))
        (promises w ++ [Pending]) (posted w) in
    (processNextTask queued, pid).

(** The pool's [worker.onmessage] for a reply of [worker]. *)
Definition onMessage (worker : Worker) (r : WorkerResponse) (w : World) : World :=
  let p := pool w in
  let id := respId r in
  let '(taskMap', promises') :=
    match taskMap p !! id with
    | Some pending =>
        (delete id (taskMap p),
         resolvePromise (promises w) (resolve pending)
           match respType r with
           | TypeResult => mkParseResult id true (respResult r) None
           | TypeError_ => mkParseResult id false None (respError r)
           end)
    | None => (taskMap p, promises w)
    end in
  processNextTask
    (mkWorld
       (mkPool (poolSize p) (workers p) (availableWorkers p ++ [worker])
          (pendingTasks p) taskMap' (isTerminated p))
       promises' (posted w)).

(** The pool's [worker.onerror] for an error event of [worker]: the worker
    goes back to the available ones and the next task is handed out;
    nothing is settled. *)
Definition onError (worker : Worker) (w : World) : World :=
  let p := pool w in
  processNextTask
    (mkWorld
       (mkPool (poolSize p) (workers p) (availableWorkers p ++ [worker])
          (pendingTasks p) (taskMap p) (isTerminated p))
       (promises w) (posted w)).

(** [terminate()]. *)
Definition terminate (p : PoolState) : PoolState :=
  mkPool (poolSize p) [] [] [] ∅ true.

Record Status : Type := mkStatus {
  statusTotalWorkers : nat;
  statusAvailableWorkers : nat;
  statusPendingTasks : nat;
  statusIsTerminated : bool
}.

Definition getStatus (p : PoolState) : Status :=
  mkStatus (length (workers p)) (length (availableWorkers p))
    (length (pendingTasks p)) (isTerminated p).

(** The calls [tasks.map((task) => this.parse(task) ...)] of [parseAll],
    left to right. *)
Fixpoint submitAll (tasks : list ParseTask) (w : World) : World * list PromiseId :=
  match tasks with
  | [] => (w, [])
  | t :: rest =>
      let '(w1, pid) := parse t w in
      let '(w2, pids) := submitAll rest w1 in
      (w2, pid :: pids)
  end.

(** [await Promise.all(promises)]: a value once every promise is resolved,
    the values in the order of the promises. *)
Definition settled (w : World) (pids : list PromiseId) : option (list ParseResult) :=
  mapM (fun pid =>
          match promises w !! pid with
          | Some (Resolved v) => Some v
          | _ => None
          end) pids.

(** What a turn of the event loop brings from a worker. *)
Inductive Turn : Type :=
| Reply          (* the answer to a posted message *)
| Crash          (* an error event where the answer to a message was due *)
| Failure.       (* an error event that no message is lost with *)

(** One turn of the event loop. The messages of one worker are handled in
    the order they were posted. The worker script catches whatever the
    parser throws and answers; [Reply] is that answer arriving. A worker
    that dies on a message raises an error event instead and the message
    is never answered ([Crash]); a worker can also raise an error event
    while it handles no message, when its script fails to load, say
    ([Failure]). Both reach [worker.onerror]. *)
Inductive step : Turn -> World -> World -> Prop :=
| step_reply (w : World) (before after : list (Worker * WorkerMessage))
    (worker : Worker) (m : WorkerMessage) :
    posted w = (before ++ (worker, m) :: after)%list ->
    worker ∉ map fst before ->
    step Reply w
      (onMessage worker (workerOnMessage m)
         (mkWorld (pool w) (promises w) (before ++ after)%list))
| step_crash (w : World) (before after : list (Worker * WorkerMessage))
    (worker : Worker) (m : WorkerMessage) :
    posted w = (before ++ (worker, m) :: after)%list ->
    worker ∉ map fst before ->
    step Crash w
      (onError worker (mkWorld (pool w) (promises w) (before ++ after)%list))
| step_failure (w : World) (worker : Worker) :
    worker ∈ workers (pool w) ->
    step Failure w (onError worker w).

(** The turns of the event loop, one after the other. *)
Inductive run : list Turn -> World -> World -> Prop :=
| run_nil w : run [] w w
| run_cons turn turns w1 w2 w3 :
    step turn w1 w2 -> run turns w2 w3 -> run (turn :: turns) w1 w3.

(** The states of a pool made by [new ParseWorkerPool(size)] and used
    through [parse] while the event loop turns. *)
Inductive reachable (size : nat) : World -> Prop :=
| reachable_new : reachable size (newWorld size)
| reachable_parse w t : reachable size w -> reachable size (fst (parse t w))
| reachable_step turn w w' : reachable size w -> step turn w w' -> reachable size w'.

(** What the pool answers for a task on its own. *)
Definition outcome (t : ParseTask) : ParseResult :=
  match parseText (fileName t) (content t) with
  | inl r => mkParseResult (taskId t) true (Some r) None
  | inr (ErrorObject message) => mkParseResult (taskId t) false None (Some message)
  | inr OtherValue => mkParseResult (taskId t) false None (Some "Unknown parsing error")
  end.

End WithParser.

Arguments mkParseResult {Parsed} _ _ _ _.
Arguments resultId {Parsed} _.
Arguments success {Parsed} _.
Arguments result {Parsed} _.
Arguments error {Parsed} _.
Arguments Pending {Parsed}.
Arguments Resolved {Parsed} _.
Arguments Rejected {Parsed} _.
Arguments mkResponse {Parsed} _ _ _ _.
Arguments respType {Parsed} _.
Arguments respId {Parsed} _.
Arguments respResult {Parsed} _.
Arguments respError {Parsed} _.
Arguments workerOnMessage {Parsed} _ _.
Arguments mkWorld {Parsed} _ _ _.
Arguments pool {Parsed} _.
Arguments promises {Parsed} _.
Arguments posted {Parsed} _.
Arguments resolvePromise {Parsed} _ _ _.
Arguments processNextTask {Parsed} _.
Arguments parse {Parsed} _ _.
Arguments onMessage {Parsed} _ _ _.
Arguments submitAll {Parsed} _ _.
Arguments settled {Parsed} _ _.
Arguments onError {Parsed} _ _.
Arguments step {Parsed} _ _ _ _.
Arguments run {Parsed} _ _ _ _.
Arguments reachable {Parsed} _ _ _.
Arguments outcome {Parsed} _ _.

End Pool.


(* ===================================================================== *)
(** ** fileReader.ts                                                      *)
(* ===================================================================== *)

Module FileReader.

(** The class [[\\/]]. *)
Definition isSeparator (c : ascii) : bool :=
  Ascii.eqb c "/" || Ascii.eqb c "\".

(** [s.split(/[\\/]/)]: the pieces between the separators; there is
    always at least one. *)
Fixpoint split (s : string) : list string :=
  match s with
  | EmptyString => [EmptyString]
  | String c r =>
      if isSeparator c then EmptyString :: split r
      else
        match split r with
        | piece :: pieces => String c piece :: pieces
        | [] => [String c EmptyString]
        end
  end.

(** [s.endsWith(suffix)]. *)
Fixpoint endsWith (s suffix : string) : bool :=
  String.eqb s suffix ||
  match s with
  | EmptyString => false
  | String _ r => endsWith r suffix
  end.

(** [isLogFile(fileName)]; [pop()] gives the last piece. *)
Definition isLogFile (fileName : string) : bool :=
  let baseName := default fileName (last (split fileName)) in
  endsWith baseName ".log".

(** [parts.find(p)]. *)
Fixpoint find (p : string -> bool) (parts : list string) : option string :=
  match parts with
  | [] => None
  | part :: rest => if p part then Some part else find p rest
  end.

(** [extractSessionFromPath(filePath)]. *)
Definition extractSessionFromPath (filePath : string) : option string :=
  find (Str.startsWith "log_") (split filePath).

End FileReader.


(* ===================================================================== *)
(** ** What the specification says, and the inputs of its scenarios       *)
(* ===================================================================== *)

Module AnalyticsSpec.
Import Analytics.

(** Every event of every result, in the order the two loops visit them. *)
Definition allEvents (results : list ParsedLogResult) : list Event :=
  concat (map events results).

(** How many elements of [l] satisfy [P]. *)
Definition countIf {A} (P : A -> Prop) `{!forall x, Decision (P x)} (l : list A) : nat :=
  length (filter P l).

Definition isErrorsEvent (e : Event) : Prop := logType e = "errors".
Definition isCacheEvent (e : Event) : Prop := logType e = "backendCache".

(** The [cacheHit] field equals boolean [false]. *)
Definition cacheHitIsFalse (e : Event) : Prop := field e "cacheHit" = JBool false.

#[export] Instance cacheHitIsFalse_dec e : Decision (cacheHitIsFalse e).
Proof.
  unfold cacheHitIsFalse.
  destruct (field e "cacheHit") as [| |[|]| | | |];
    solve [left; reflexivity | right; discriminate].
Defined.

(** The error aggregate of a list of events taken on their own, with
    [Object.prototype] in the state [proto] throughout. *)
Definition errorsOf (proto : Dict.ObjectPrototype) (evs : list Event) : ErrorStats :=
  foldl (fun acc e => accumulateErrors e proto acc) (mkErrors 0 ∅) evs.

(** The address a connection event is filed under. *)
Definition addressOf (numberToString : Q -> string) (e : Event) : string :=
  if nullish (field e "address") then "unknown"
  else toString numberToString (field e "address").

(** An event of the network-connection log filed under [__proto__]: its
    entry is [Object.prototype] itself. *)
Definition filedUnderProto (numberToString : Q -> string) (e : Event) : Prop :=
  logType e = "network-connection" /\ addressOf numberToString e = "__proto__".

(** The names of the members an entry has. *)
Definition entryMemberName (k : string) : bool :=
  String.eqb k "connect" || String.eqb k "disconnect" || String.eqb k "timeout".

(** The number [NaN] is stored under the name of an entry member only. *)
Definition nanUnderMembers (table : gmap string AddressSlot) : Prop :=
  forall k, table !! k = Some NaNValue -> entryMemberName k = true.

(** One event of the network-connection log, at level Error and filed
    under [__proto__], then one event of the errors log of family
    "connect". *)
Definition pollutingInput : list ParsedLogResult :=
  [ mkResult "network-connection" None
      [ mkEvent "network-connection" (Some "connect") (Some "Error") (Some "connected")
          (Some (list_to_map [("address", JStr "__proto__")])) ];
    mkResult "errors" None
      [ mkEvent "errors" (Some "connect") (Some "Error") (Some "connect failed")
          (Some ∅) ] ].

(** A printer to run the scenarios with: the decimal form of a
    non-negative integer. *)
Definition printNatural (q : Q) : string := indexKey (Z.to_nat (Qfloor q)).

Definition event (type : string) (family : option string) (lvl : option string)
    (msg : option string) (bag : list (string * JsVal)) : Event :=
  mkEvent type family lvl msg (Some (list_to_map bag)).

(** Scenario B: [{cacheHit:false}, {cacheHit:true}, {}]. *)
Definition scenarioB : list ParsedLogResult :=
  [ mkResult "backendCache" None
      [ event "backendCache" None None None [("cacheHit", JBool false)];
        event "backendCache" None None None [("cacheHit", JBool true)];
        event "backendCache" None None None [] ] ].

(** Scenario C: five events of the errors log, two application events at
    level Error. *)
Definition scenarioC : list ParsedLogResult :=
  [ mkResult "errors" None
      (replicate 5 (event "errors" (Some "exception") (Some "Error") (Some "boom") []));
    mkResult "application" None
      (replicate 2 (event "application" (Some "general") (Some "Error") (Some "oops") [])) ].


(** *** Running averages *)

Definition sumQ (xs : list Q) : Q := foldr Qplus 0%Q xs.

(** The arithmetic mean of a non-empty list. *)
Definition mean (xs : list Q) : Q := (sumQ xs / inject_Z (Z.of_nat (length xs)))%Q.

(** The [rtt] an event contributes: a number carried by a "statistics"
    event of the network-connection log. *)
Definition rttSample (e : Event) : option Q :=
  if decide (logType e = "network-connection" /\ eventFamily e = Some "statistics")
  then asNumber (field e "rtt") else None.

Definition isMessagesEvent (e : Event) : Prop := logType e = "network-messages".

(** The [rpi] and [lud] an event of the network-messages log carries. *)
Definition rpiSample (e : Event) : option Q :=
  if decide (isMessagesEvent e) then asNumber (field e "rpi") else None.

Definition ludSample (e : Event) : option Q :=
  if decide (isMessagesEvent e) then asNumber (field e "lud") else None.

(** Two network-messages events, the second one alone with an [rpi]. *)
Definition rpiGapInput : list ParsedLogResult :=
  [ mkResult "network-messages" None
      [ event "network-messages" None None None [];
        event "network-messages" None None None [("rpi", JNum 10)] ] ].


(** *** The quest status policy, in the specification's words *)

(** [s] contains [p]. *)
Definition contains (s p : string) : Prop :=
  exists before after, s = before +:+ p +:+ after.

(** The status source: the lower-cased [questStatus] field if present,
    else the lower-cased message. *)
Definition specSource (e : Event) : string :=
  match field e "questStatus" with
  | JStr s => Str.toLowerCase s
  | _ => Str.toLowerCase (messageOrEmpty e)
  end.

Definition saysCompleted (src : string) : Prop :=
  contains src "completed" \/ src = "success".
Definition saysFailed (src : string) : Prop := contains src "fail".
Definition saysStarted (src : string) : Prop :=
  contains src "start" \/ contains src "description".

(** One transition. The clauses are read in the order the policy states
    them: a source that meets several is decided by the first. *)
Inductive PolicyStep (current : QuestStatus) (src : string) : QuestStatus -> Prop :=
| policy_completed :
    saysCompleted src -> PolicyStep current src Completed
| policy_failed :
    ~ saysCompleted src -> saysFailed src -> PolicyStep current src Failed
| policy_started :
    ~ saysCompleted src -> ~ saysFailed src -> saysStarted src ->
    current = Unknown -> PolicyStep current src Started
| policy_not_downgraded :
    ~ saysCompleted src -> ~ saysFailed src -> saysStarted src ->
    current <> Unknown -> PolicyStep current src current
| policy_unchanged :
    ~ saysCompleted src -> ~ saysFailed src -> ~ saysStarted src ->
    PolicyStep current src current.

(** The transitions along a sequence of status sources. *)
Inductive PolicyRun : QuestStatus -> list string -> QuestStatus -> Prop :=
| run_done s : PolicyRun s [] s
| run_step s src s1 rest s2 :
    PolicyStep s src s1 -> PolicyRun s1 rest s2 -> PolicyRun s (src :: rest) s2.

(** The dictionary key of the quest an event belongs to. *)
Definition questKey (numberToString : Q -> string) (e : Event) : option string :=
  toString numberToString <$> findQuestId e.

(** The status recorded for a quest; a quest not seen yet is "unknown". *)
Definition statusOf (quests : gmap string QuestStat) (key : string) : QuestStatus :=
  match quests !! key with
  | Some q => status q
  | None => Unknown
  end.

(** Scenario D, followed by a "start"-matching event. *)
Definition scenarioD : list ParsedLogResult :=
  [ mkResult "application" None
      [ event "application" None None (Some "quest description") [("questId", JStr "abc123")];
        event "application" None None None
          [("questId", JStr "abc123"); ("questStatus", JStr "completed")];
        event "application" None None (Some "Quest started") [("questId", JStr "abc123")] ] ].

(** One event with a quest id and a numeric [questStatus]. *)
Definition numericStatusInput : list ParsedLogResult :=
  [ mkResult "errors" None
      [ event "errors" None None (Some "quest update")
          [("questId", JStr "q1"); ("questStatus", JNum 42)] ] ].

(** One event with a quest id and a [questRewardItems] that is a plain
    object, not an array. *)
Definition objectRewardItemsInput : list ParsedLogResult :=
  [ mkResult "errors" None
      [ event "errors" None None (Some "quest update")
          [("questId", JStr "q1"); ("questRewardItems", JObj [("tpl", JNum 1)])] ] ].


(** *** Events the fold accepts *)

Definition stringOrAbsent (v : JsVal) : Prop :=
  match v with JUndef | JNull | JStr _ => True | _ => False end.

Definition iterableOrFalsy (v : JsVal) : Prop :=
  match v with JArr _ | JStr _ => True | _ => truthy v = false end.

(** An event on which no accumulator raises: an application "error" event
    has a message; an event of the network-connection log is not filed
    under the name of an entry member; and, when the event names a quest,
    the id is not a standard member of [Object.prototype], [questStatus]
    is a string or absent and [questRewardItems] is an array, a string or
    falsy. *)
Definition safeEvent (numberToString : Q -> string) (e : Event) : Prop :=
  (logType e = "application" -> eventFamily e = Some "error" -> is_Some (message e)) /\
  (logType e = "network-connection" ->
   entryMemberName (addressOf numberToString e) = false) /\
  match findQuestId e with
  | None => True
  | Some qid =>
      Dict.inheritedKey (toString numberToString qid) = false /\
      stringOrAbsent (field e "questStatus") /\
      iterableOrFalsy (field e "questRewardItems")
  end.

End AnalyticsSpec.

Module SelectorsSpec.
Import Selectors.

(** A point is a pair of rationals in the examples. *)
Definition point (x y : Z) : Q * Q := (inject_Z x, inject_Z y).

Definition threePoints : list (Q * Q) := [point 0 0; point 1 5; point 2 1].

Definition tenPoints : list (Q * Q) :=
  [ point 0 0; point 1 5; point 2 1; point 3 9; point 4 2;
    point 5 2; point 6 8; point 7 1; point 8 0; point 9 4 ].

End SelectorsSpec.
(* ===================================================================== *)
(** ** What the specification says about the pool                         *)
(* ===================================================================== *)

Module PoolSpec.
Import Pool.
Local Open Scope nat_scope.

#[export] Instance Turn_eq_dec : EqDecision Turn.
Proof. solve_decision. Defined.

Section WithParser.
Variable Parsed : Type.
Variable parseText : string -> string -> Parsed + Thrown.

(** The message [processNextTask] posts for a task. *)
Definition messageOf (t : ParseTask) : WorkerMessage :=
  mkMessage (taskId t) (fileName t) (content t).

(** The result a submission to a terminated pool resolves with. *)
Definition terminatedResult (t : ParseTask) : ParseResult Parsed :=
  mkParseResult (taskId t) false None (Some "Worker pool has been terminated").

(** The task's content fails parsing. *)
Definition failsParsing (t : ParseTask) : Prop :=
  exists thrown, parseText (fileName t) (content t) = inr thrown.

#[export] Instance failsParsing_dec t : Decision (failsParsing t).
Proof.
  unfold failsParsing. destruct (parseText (fileName t) (content t)) as [r|thrown].
  - right. intros [x H]. discriminate H.
  - left. eauto.
Defined.

(** *** The parts of the handlers *)

(** The state [parse] hands to [processNextTask] on a live pool. *)
Definition enqueue (t : ParseTask) (w : World Parsed) : World Parsed :=
  let p := pool w in
  mkWorld
    (mkPool (poolSize p) (workers p) (availableWorkers p)
       (pendingTasks p ++ [mkPending t (length (promises w))]) (taskMap p)
       (isTerminated p))
    (promises w ++ [Pending]) (posted w).

(** The state a handler hands to [processNextTask]: the worker is back. *)
Definition giveBack (worker : Worker) (w : World Parsed) : World Parsed :=
  let p := pool w in
  mkWorld
    (mkPool (poolSize p) (workers p) (availableWorkers p ++ [worker])
       (pendingTasks p) (taskMap p) (isTerminated p))
    (promises w) (posted w).

(** What [onmessage] does with the response before that. *)
Definition settle (r : WorkerResponse Parsed) (w : World Parsed) : World Parsed :=
  let p := pool w in
  match taskMap p !! respId r with
  | Some pending =>
      mkWorld
        (mkPool (poolSize p) (workers p) (availableWorkers p) (pendingTasks p)
           (delete (respId r) (taskMap p)) (isTerminated p))
        (resolvePromise (promises w) (resolve pending)
           match respType r with
           | TypeResult => mkParseResult (respId r) true (respResult r) None
           | TypeError_ => mkParseResult (respId r) false None (respError r)
           end)
        (posted w)
  | None => w
  end.

(** The state once a message has left the posted ones. *)
Definition without (w : World Parsed) (remaining : list (Worker * WorkerMessage))
  : World Parsed :=
  mkWorld (pool w) (promises w) remaining.

(** *** Tasks in progress *)

Definition idOf (pend : PendingTask) : string := taskId (task pend).

(** The ids of the tasks in the queue, and of those posted to a worker
    and not answered. *)
Definition queuedIds (w : World Parsed) : list string :=
  map idOf (pendingTasks (pool w)).

Definition postedIds (w : World Parsed) : list string :=
  map (fun x => msgId (snd x)) (posted w).

Definition idsInProgress (w : World Parsed) : list string :=
  (queuedIds w ++ postedIds w)%list.

(** How many replies are still to come when every message is answered. *)
Definition outstanding (w : World Parsed) : nat :=
  length (posted w) + length (pendingTasks (pool w)).

(** *** A batch between the turns of the event loop *)

(** The promises [base], [base + 1], ... belong to the tasks [ts], in the
    order they were submitted. Task [i] waits in the queue, or is with a
    worker (correlated by its id), or has been answered with its own
    outcome. *)
Definition queued (base : nat) (w : World Parsed) (i : nat) (t : ParseTask) : Prop :=
  promises w !! (base + i) = Some Pending /\
  mkPending t (base + i) ∈ pendingTasks (pool w) /\
  taskId t ∉ postedIds w.

Definition dispatched (base : nat) (w : World Parsed) (i : nat) (t : ParseTask) : Prop :=
  promises w !! (base + i) = Some Pending /\
  taskMap (pool w) !! taskId t = Some (mkPending t (base + i)) /\
  taskId t ∉ queuedIds w.

Definition answered (base : nat) (w : World Parsed) (i : nat) (t : ParseTask) : Prop :=
  promises w !! (base + i) = Some (Resolved (outcome parseText t)).

(** [others] are the ids of the tasks that were in progress when the
    batch was submitted. *)
Record BatchInv (others : list string) (base : nat) (ts : list ParseTask)
    (w : World Parsed) : Prop := {
  batch_live : isTerminated (pool w) = false;
  batch_ids : NoDup (map taskId ts);
  batch_fresh : forall t, t ∈ ts -> taskId t ∉ others;
  batch_promises : length (promises w) = base + length ts;
  batch_phase :
    forall i t, ts !! i = Some t ->
                queued base w i t \/ dispatched base w i t \/ answered base w i t;
  batch_queue :
    forall pend, pend ∈ pendingTasks (pool w) ->
      (exists i, ts !! i = Some (task pend) /\ resolve pend = base + i) \/
      (idOf pend ∈ others /\ resolve pend < base);
  batch_once :
    forall j1 j2 p1 p2,
      pendingTasks (pool w) !! j1 = Some p1 -> pendingTasks (pool w) !! j2 = Some p2 ->
      idOf p1 = idOf p2 -> idOf p1 ∈ map taskId ts -> j1 = j2;
  batch_posted :
    forall x, x ∈ posted w ->
      (exists t, t ∈ ts /\ snd x = messageOf t) \/ msgId (snd x) ∈ others;
  batch_map :
    forall id pend, taskMap (pool w) !! id = Some pend ->
      resolve pend < base \/
      (exists i t, ts !! i = Some t /\ id = taskId t /\ pend = mkPending t (base + i))
}.

(** What holds of every reachable state of a pool with a worker. *)
Record PoolInv (w : World Parsed) : Prop := {
  pool_live : isTerminated (pool w) = false;
  pool_greedy : pendingTasks (pool w) <> [] -> availableWorkers (pool w) = [];
  pool_worker : posted w <> [] \/ availableWorkers (pool w) <> [];
  pool_queue :
    forall pend, pend ∈ pendingTasks (pool w) -> resolve pend < length (promises w);
  pool_map :
    forall id pend, taskMap (pool w) !! id = Some pend ->
                    resolve pend < length (promises w)
}.

(** While every message is answered, a task that is with a worker has its
    message among the posted ones. *)
Definition inFlight (base : nat) (ts : list ParseTask) (w : World Parsed) : Prop :=
  forall i t, ts !! i = Some t -> dispatched base w i t -> taskId t ∈ postedIds w.

(** No turn of the event loop can settle promise [p] any more: it is
    pending, no queued task holds its callback, and a task in the
    correlation map that holds it has no message with a worker and none
    to come. *)
Definition abandoned (p : PromiseId) (w : World Parsed) : Prop :=
  promises w !! p = Some Pending /\
  (forall pend, pend ∈ pendingTasks (pool w) -> resolve pend <> p) /\
  (forall id pend, taskMap (pool w) !! id = Some pend -> resolve pend = p ->
                   (id ∉ postedIds w) /\ (id ∉ queuedIds w)).

Definition isPending (p : Promise Parsed) : bool :=
  match p with Pending => true | _ => false end.

(** The promises of [ps] still pending. *)
Fixpoint countPending (ps : list (Promise Parsed)) : nat :=
  match ps with
  | [] => 0
  | p :: rest => ((if isPending p then 1 else 0) + countPending rest)%nat
  end.

(** How many of the promises from [base] on are still pending. *)
Definition unsettled (base : nat) (w : World Parsed) : nat :=
  countPending (drop base (promises w)).

(** The turns that are replies. *)
Definition repliesIn (turns : list Turn) : nat :=
  length (filter (fun turn => turn = Reply) turns).

End WithParser.

(** A parser to run examples with: an empty file does not parse. *)
Definition sampleParseText (name text : string) : string + Thrown :=
  if String.eqb text "" then inr (ErrorObject "empty log") else inl text.

Definition goodTask : ParseTask := mkTask "a" "a.log" "line".
Definition badTask : ParseTask := mkTask "b" "b.log" "".

Definition thirdTask : ParseTask := mkTask "c" "c.log" "more".

(** A task with the id of [goodTask] and content that does not parse. *)
Definition sameIdTask : ParseTask := mkTask "a" "other.log" "".

(** A pool of two workers after [terminate()]. *)
Definition terminatedWorld : World string :=
  mkWorld (terminate (newPool 2)) [] [].

End PoolSpec.

(* ===================================================================== *)
(** ** Further statements about the derivation engine                     *)
(* ===================================================================== *)

Module MoreAnalyticsSpec.
Import Analytics AnalyticsSpec.

(** An event of log [type] whose family is one of [families]. *)
Definition ofKind (type : string) (families : list string) (e : Event) : Prop :=
  logType e = type /\ exists f, eventFamily e = Some f /\ f ∈ families.

#[export] Instance ofKind_dec type families e : Decision (ofKind type families e).
Proof.
  unfold ofKind. destruct (decide (logType e = type)) as [Ht|Ht]; [|right; tauto].
  destruct (eventFamily e) as [f|].
  - destruct (decide (f ∈ families)) as [Hf|Hf].
    + left. eauto.
    + right. intros [_ (f' & E & Hin)]. congruence.
  - right. intros [_ (f' & E & _)]. discriminate E.
Defined.

Definition ofType (type : string) (e : Event) : Prop := logType e = type.

#[export] Instance ofType_dec type e : Decision (ofType type e).
Proof. unfold ofType. apply _. Defined.

(** Every scalar counter of the statistics. *)
Definition scalarCounters (st : Statistics) : list nat :=
  [ totalRequests (backend st); totalResponses (backend st);
    totalErrors (backend st); retries (backend st);
    hits (cache st); misses (cache st);
    totalRejections (inventory st);
    connections (network st); disconnects (network st); timeouts (network st);
    samples (metrics (network st));
    pushConnections (push st); drops (push st); notifications (push st);
    initSuccess (audio st); occlusionErrors (audio st);
    totals (errors st);
    initLines (anticheat st); anticheatErrors (anticheat st) ].

(** An anti-cheat line of the application log. *)
Definition isAnticheatLine (e : Event) : Prop := ofKind "application" ["anticheat"] e.

#[export] Instance isAnticheatLine_dec e : Decision (isAnticheatLine e).
Proof. unfold isAnticheatLine. apply _. Defined.

(** An "error" event of the application log whose message mentions
    BattlEye, in any case. *)
Definition isBattlEyeError (e : Event) : Prop :=
  ofKind "application" ["error"] e /\
  Str.includes (Str.toLowerCase (messageOrEmpty e)) "battleye" = true.

#[export] Instance isBattlEyeError_dec e : Decision (isBattlEyeError e).
Proof. unfold isBattlEyeError. apply _. Defined.

(** *** Inputs to run the accumulators on *)

(** A connection log with one event of every family the accumulator
    tells apart, and a messages log. *)
Definition trafficInput : list ParsedLogResult :=
  [ mkResult "network-connection" None
      [ event "network-connection" (Some "connect") None None [("address", JStr "10.0.0.1")];
        event "network-connection" (Some "state_enter") None None [("address", JStr "10.0.0.1")];
        event "network-connection" (Some "send_disconnect") None None [];
        event "network-connection" (Some "timeout") None None [("address", JStr "10.0.0.2")];
        event "network-connection" (Some "statistics") None None
          [("rtt", JNum 30); ("packetsLost", JNum 2); ("packetsSent", JNum 100)];
        event "network-connection" (Some "statistics") None None
          [("rtt", JNum 50); ("packetsLost", JStr "n/a"); ("packetsSent", JNum 50)];
        event "network-connection" (Some "thread") None None [] ];
    mkResult "network-messages" None
      [ event "network-messages" None None None [("rpi", JNum 4); ("lud", JNum 1)];
        event "network-messages" (Some "connect") None None [("rpi", JNum 6); ("lud", JNum 3)] ] ].

(** A backend log, followed by inventory, push and audio logs. *)
Definition backendInput : list ParsedLogResult :=
  [ mkResult "backend" None
      [ event "backend" (Some "request") None None [("url", JStr "/client/items")];
        event "backend" (Some "response") None None
          [("url", JStr "/client/items"); ("responseCode", JNum 200)];
        event "backend" (Some "request") None None [];
        event "backend" (Some "server_exception") None None [("responseCode", JNum 500)];
        event "backend" (Some "retry") None None [];
        event "backend" (Some "queue") None None [] ] ].

Definition inventoryInput : list ParsedLogResult :=
  [ mkResult "inventory" None
      [ event "inventory" (Some "rejection") None None
          [("operationType", JStr "Move"); ("code", JNum 0); ("itemId", JStr "item1")];
        event "inventory" None None None [] ];
    mkResult "push-notifications" None
      [ event "push-notifications" (Some "connection_params") None None [];
        event "push-notifications" (Some "simple_notification") None None [];
        event "push-notifications" (Some "notification") None None [];
        event "push-notifications" (Some "dropped") None None [];
        event "push-notifications" (Some "ping") None None [] ];
    mkResult "spatial-audio" None
      [ event "spatial-audio" (Some "init_success") None None [];
        event "spatial-audio" (Some "occlusion_error") None None [];
        event "spatial-audio" (Some "occlusion_error") None None [];
        event "backend" (Some "init_success") None None [] ] ].

(** An application log with anti-cheat lines and errors. *)
Definition anticheatInput : list ParsedLogResult :=
  [ mkResult "application" None
      [ event "application" (Some "anticheat") None (Some "BattlEye: init") [];
        event "application" (Some "error") None (Some "BATTLEYE: client not responding") [];
        event "application" (Some "error") None (Some "NullReferenceException") [];
        event "application" (Some "anticheat") None (Some "BattlEye: ready") [];
        event "errors" (Some "anticheat") None (Some "elsewhere") [] ] ].

(** *** Quest records *)

(** The events that carry the quest stored under [key]. *)
Definition eventsOf (numberToString : Q -> string) (key : string) (evs : list Event)
  : list Event :=
  filter (fun e => questKey numberToString e = Some key) evs.

(** The rouble rewards the events of a quest carry as numbers. *)
Definition rubleSamples (evs : list Event) : list Q :=
  omap (fun e => asNumber (field e "questRewardRubles")) evs.

(** The trader ids the events of a quest carry, falsy values left out. *)
Definition traderSamples (evs : list Event) : list JsVal :=
  filter (fun v => truthy v = true) (map (fun e => field e "questTraderId") evs).

(** Two quests: one named by a token of the message, with a reward on two
    of its three events and a trader on the last two; one named by the
    [questId] field. *)
Definition questInput : list ParsedLogResult :=
  [ mkResult "application" None
      [ event "application" None None (Some "Quest 5ac23c6186f7741247042bad started")
          [("questRewardRubles", JNum 1000)];
        event "application" None None (Some "quest update")
          [("questId", JStr "gunsmith"); ("questTraderId", JStr "mechanic")];
        event "application" None None (Some "5ac23c6186f7741247042bad: description")
          [("questTraderId", JStr "prapor"); ("questRewardRubles", JStr "lots")];
        event "application" None None (Some "5ac23c6186f7741247042bad completed")
          [("questId", JStr "gunsmith"); ("questTraderId", JStr "therapist");
           ("questRewardRubles", JNum 500)] ] ].

(** *** The quest id found in a message *)

Fixpoint allHex (s : string) : bool :=
  match s with
  | EmptyString => true
  | String c r => Str.isHex c && allHex r
  end.

(** The last character of [s] is a word character. *)
Fixpoint endsInWord (s : string) : bool :=
  match s with
  | EmptyString => false
  | String c EmptyString => Str.isWord c
  | String _ r => endsInWord r
  end.

Definition beginsWithWord (s : string) : bool :=
  match s with
  | EmptyString => false
  | String c _ => Str.isWord c
  end.

(** [tok] is a run of 24 hexadecimal digits that stands in [msg] between
    [before] and [after] with a word boundary on either side. *)
Definition tokenAt (msg before tok after : string) : Prop :=
  msg = before +:+ tok +:+ after /\
  String.length tok = 24%nat /\ allHex tok = true /\
  endsInWord before = false /\ beginsWithWord after = false.

(** *** Counting dictionaries *)

(** What the slot [k] of a counting dictionary holds once it was raised
    [n] times from the empty object: nothing when never raised; the
    number [n]; but for a member of [Object.prototype], the inherited
    member followed by [n] digits 1, and for [__proto__] nothing at all. *)
Definition tally (k : string) (n : nat) : option Counter :=
  match n with
  | O => None
  | S _ =>
      if Dict.inheritedKey k
      then (if String.eqb k "__proto__" then None else Some (Text k n))
      else Some (Count n)
  end.

(** The key an event raises in each dictionary, if any. *)
Definition errorFamilyKey (e : Event) : option string :=
  if decide (logType e = "errors") then Some (default "unknown" (eventFamily e)) else None.

Definition endpointKey (numberToString : Q -> string) (e : Event) : option string :=
  if decide (logType e = "backend" /\
             (eventFamily e = Some "request" \/ eventFamily e = Some "response"))
  then (if truthy (field e "url")
        then Some (toString numberToString (field e "url")) else None)
  else None.

Definition statusCodeKey (numberToString : Q -> string) (e : Event) : option string :=
  if decide (logType e = "backend" /\
             (eventFamily e = Some "response" \/ eventFamily e = Some "transport_error" \/
              eventFamily e = Some "server_exception"))
  then (if truthy (field e "responseCode")
        then Some (toString numberToString (field e "responseCode")) else None)
  else None.

Definition operationKey (numberToString : Q -> string) (e : Event) : option string :=
  if decide (logType e = "inventory")
  then (if truthy (field e "operationType")
        then Some (toString numberToString (field e "operationType")) else None)
  else None.

Definition codeKey (numberToString : Q -> string) (e : Event) : option string :=
  if decide (logType e = "inventory")
  then match field e "code" with
       | JUndef => None
       | code => Some (toString numberToString code)
       end
  else None.

Definition itemKey (numberToString : Q -> string) (e : Event) : option string :=
  if decide (logType e = "inventory")
  then (if truthy (field e "itemId")
        then Some (toString numberToString (field e "itemId")) else None)
  else None.

(** An errors log whose families include a member of [Object.prototype]. *)
Definition familiesInput : list ParsedLogResult :=
  [ mkResult "errors" None
      [ event "errors" (Some "exception") None None [];
        event "errors" (Some "constructor") None None [];
        event "errors" None None None [];
        event "errors" (Some "exception") None None [];
        event "errors" (Some "constructor") None None [];
        event "application" (Some "exception") None (Some "not an error of the errors log") [] ] ].

(** *** Packet totals *)

(** The number a "statistics" event of the network-connection log
    carries in the field [name]. *)
Definition packetSample (name : string) (e : Event) : option Q :=
  if decide (logType e = "network-connection" /\ eventFamily e = Some "statistics")
  then asNumber (field e name) else None.

(** *** Addresses *)

(** The events of the network-connection log filed under [address]. *)
Definition connectionEventsAt (numberToString : Q -> string) (address : string)
    (evs : list Event) : list Event :=
  filter (fun e => logType e = "network-connection" /\ addressOf numberToString e = address)
    evs.

Definition connectFamily (e : Event) : Prop :=
  eventFamily e = Some "connect" \/ eventFamily e = Some "state_enter".
Definition disconnectFamily (e : Event) : Prop :=
  eventFamily e = Some "disconnect" \/ eventFamily e = Some "send_disconnect".
Definition timeoutFamily (e : Event) : Prop := eventFamily e = Some "timeout".

#[export] Instance connectFamily_dec e : Decision (connectFamily e).
Proof. unfold connectFamily. apply _. Defined.
#[export] Instance disconnectFamily_dec e : Decision (disconnectFamily e).
Proof. unfold disconnectFamily. apply _. Defined.
#[export] Instance timeoutFamily_dec e : Decision (timeoutFamily e).
Proof. unfold timeoutFamily. apply _. Defined.
#[global] Typeclasses Opaque connectFamily disconnectFamily timeoutFamily.

(** The entry of an address, from the events filed under it: absent when
    there is none. *)
Definition entryOf (mine : list Event) : option AddressSlot :=
  match mine with
  | [] => None
  | _ :: _ =>
      Some (Entry (mkEntry (countIf connectFamily mine) (countIf disconnectFamily mine)
                     (countIf timeoutFamily mine)))
  end.

(** *** Sessions *)

(** The sum of one of the counts over the sessions of a map. *)
Definition totalOf (f : LevelCounts -> nat) (m : list (string * SessionSummary)) : nat :=
  sum_list_with (fun kv => f (sessionTotals (snd kv))) m.

Definition atLevelError (e : Event) : Prop := level e = Some "Error".
Definition atLevelWarning (e : Event) : Prop :=
  level e = Some "Warn" \/ level e = Some "Warning".

#[export] Instance atLevelError_dec e : Decision (atLevelError e).
Proof. unfold atLevelError. apply _. Defined.
#[export] Instance atLevelWarning_dec e : Decision (atLevelWarning e).
Proof. unfold atLevelWarning. apply _. Defined.

(** No character of [s] is a path separator. *)
Fixpoint separatorFree (s : string) : bool :=
  match s with
  | EmptyString => true
  | String c r => negb (isSeparator c) && separatorFree r
  end.

(** [s] is empty or begins with a path separator. *)
Definition endsName (s : string) : bool :=
  match s with
  | EmptyString => true
  | String c _ => isSeparator c
  end.

(** Three results of two sessions: the first names its session in the
    meta data, the others in the path. *)
Definition sessionsInput : list (ParsedLogResult * ResultMeta) :=
  [ (mkResult "application" None
       [ event "application" None (Some "Error") None [];
         event "application" None (Some "Info") None [] ],
     mkMeta (Some "log_2025.01.15_14-30-00") None (Some "2025-01-15T14:30:05Z") None);
    (mkResult "errors" (Some "C:\Logs\log_2025.01.16_09-00-00_0.16.1\errors.log")
       [ event "errors" None (Some "Warn") None [] ],
     mkMeta None (Some "0.16.1") None None);
    (mkResult "backend" (Some "logs/log_2025.01.15_14-30-00/backend.log")
       [ event "backend" None (Some "Warning") None [];
         event "backend" None (Some "Error") None [];
         event "backend" None None None [] ],
     mkMeta None None (Some "2025-01-15T14:30:01Z") None) ].

End MoreAnalyticsSpec.

(* ===================================================================== *)
(** ** Statements about the file reader                                   *)
(* ===================================================================== *)

Module FileReaderSpec.
Import FileReader.

(** Some character of [s] is a path separator. *)
Fixpoint hasSeparator (s : string) : bool :=
  match s with
  | EmptyString => false
  | String c r => isSeparator c || hasSeparator r
  end.

(** The piece [pop()] takes: the last one. *)
Definition lastPiece (s : string) : string := default s (last (split s)).

End FileReaderSpec.
(* ===================================================================== *)
(** ** Sequencing in [Res]                                                *)
(* ===================================================================== *)

Module ResFacts.

Lemma bind_Ok {A B} (r : Res A) (k : A -> Res B) (b : B) :
  (r ≫= k) = Ok b -> exists a, r = Ok a /\ k a = Ok b.
Proof. destruct r as [a|e]; simpl; [eauto | discriminate]. Qed.

Lemma bind_ret {A B} (a : A) (k : A -> Res B) : (Ok a ≫= k) = k a.
Proof. reflexivity. Qed.

End ResFacts.

(* ===================================================================== *)
(** ** Properties of the derivation engine                                *)
(* ===================================================================== *)

Module AnalyticsFacts.
Import Analytics AnalyticsSpec ResFacts.

Section Facts.
Variable numberToString : Q -> string.

Lemma foldEvents_app evs1 evs2 proto st :
  foldEvents numberToString (evs1 ++ evs2) proto st
  = ('(st1, proto1) ← foldEvents numberToString evs1 proto st;
     foldEvents numberToString evs2 proto1 st1).
Proof.
  revert proto st. induction evs1 as [|e evs1 IH]; intros proto st; simpl; [reflexivity|].
  destruct (accumulateEvent numberToString e proto st) as [[st1 proto1]|err]; simpl;
    [apply IH | reflexivity].
Qed.

(** The two nested loops visit [allEvents results] from left to right. *)
Lemma foldResults_allEvents results proto st :
  foldResults numberToString results proto st
  = foldEvents numberToString (allEvents results) proto st.
Proof.
  revert proto st. induction results as [|r results IH]; intros proto st; [reflexivity|].
  unfold allEvents. simpl. rewrite foldEvents_app.
  destruct (foldEvents numberToString (events r) proto st) as [[st1 proto1]|err]; simpl;
    [apply IH | reflexivity].
Qed.

(** [deriveStatistics] returns the statistics the fold ends with. *)
Lemma deriveStatistics_Ok proto results st :
  deriveStatistics numberToString proto results = Ok st <->
  exists proto',
    foldEvents numberToString (allEvents results) proto emptyStatistics = Ok (st, proto').
Proof.
  unfold deriveStatistics. rewrite foldResults_allEvents. split.
  - intros H. apply bind_Ok in H as ([st' proto'] & H1 & H). injection H as <-. eauto.
  - intros [proto' ->]. reflexivity.
Qed.

(** An event that completes has run every accumulator: those before
    [accumulateNetwork] with [Object.prototype] as the event found it,
    those after with [Object.prototype] as the event leaves it. *)
Lemma accumulateEvent_Ok event proto st st' proto' :
  accumulateEvent numberToString event proto st = Ok (st', proto') ->
  backend st' = accumulateBackend numberToString event proto (backend st) /\
  cache st' = accumulateCache event (cache st) /\
  inventory st'
  = fst (accumulateInventory numberToString event proto (inventory st) (items st)) /\
  items st'
  = snd (accumulateInventory numberToString event proto (inventory st) (items st)) /\
  accumulateNetwork numberToString event proto (network st) = Ok (network st', proto') /\
  push st' = accumulatePush event (push st) /\
  audio st' = accumulateAudio event (audio st) /\
  errors st' = accumulateErrors event proto' (errors st) /\
  accumulateAnticheat event (anticheat st) = Ok (anticheat st') /\
  accumulateQuest numberToString event proto' (quests st) (traders st)
  = Ok (quests st', traders st').
Proof.
  unfold accumulateEvent. intros H.
  destruct (accumulateInventory _ _ _ _ _) as [inv' items'].
  apply bind_Ok in H as ([nw p1] & Hn & H).
  apply bind_Ok in H as (ac & Hac & H).
  apply bind_Ok in H as ([qs ts] & Hq & H).
  injection H as <- <-. simpl. auto 12.
Qed.

(** A property of the statistics that every completing event keeps holds
    after every run that completes. *)
Lemma foldEvents_ind (I : list Event -> Dict.ObjectPrototype -> Statistics -> Prop)
    proto0 st0 :
  I [] proto0 st0 ->
  (forall evs e proto st st' proto',
      foldEvents numberToString evs proto0 st0 = Ok (st, proto) -> I evs proto st ->
      accumulateEvent numberToString e proto st = Ok (st', proto') ->
      I (evs ++ [e])%list proto' st') ->
  forall evs st proto,
    foldEvents numberToString evs proto0 st0 = Ok (st, proto) -> I evs proto st.
Proof.
  intros H0 Hstep evs. induction evs as [|e evs IH] using rev_ind; intros st proto H.
  - injection H as <- <-. exact H0.
  - rewrite foldEvents_app in H. apply bind_Ok in H as ([st1 proto1] & H1 & H).
    simpl in H. apply bind_Ok in H as ([st2 proto2] & H2 & H). injection H as <- <-.
    eapply Hstep; eauto.
Qed.

Lemma countIf_snoc {A} (P : A -> Prop) `{!forall x, Decision (P x)} (l : list A) (x : A) :
  countIf P (l ++ [x]) = (countIf P l + if decide (P x) then 1 else 0)%nat.
Proof.
  unfold countIf. rewrite filter_app, length_app, filter_cons, filter_nil.
  destruct (decide (P x)); reflexivity.
Qed.

(** A counter that an accumulator raises by one on the events of a kind,
    and leaves alone otherwise, counts the events of that kind. *)
Lemma foldEvents_counts (proj : Statistics -> nat) (P : Event -> Prop)
    `{!forall e, Decision (P e)} :
  (forall e proto st st' proto',
      accumulateEvent numberToString e proto st = Ok (st', proto') ->
      proj st' = (proj st + if decide (P e) then 1 else 0)%nat) ->
  forall evs proto st st' proto',
    foldEvents numberToString evs proto st = Ok (st', proto') ->
    proj st' = (proj st + countIf P evs)%nat.
Proof.
  intros Hstep evs proto st st' proto' Hf.
  revert st' proto' Hf.
  apply (foldEvents_ind (fun evs _ st' => proj st' = (proj st + countIf P evs)%nat)).
  - unfold countIf. simpl. lia.
  - intros evs' e p s s' p' _ IH He. rewrite countIf_snoc, (Hstep _ _ _ _ _ He), IH. lia.
Qed.

(** *** Errors *)

Lemma accumulateErrors_other e proto acc :
  ~ isErrorsEvent e -> accumulateErrors e proto acc = acc.
Proof.
  unfold isErrorsEvent, accumulateErrors. intros H.
  destruct (String.eqb_spec (logType e) "errors"); [contradiction | reflexivity].
Qed.

Lemma accumulateErrors_totals e proto acc :
  totals (accumulateErrors e proto acc)
  = (totals acc + if decide (isErrorsEvent e) then 1 else 0)%nat.
Proof.
  unfold isErrorsEvent, accumulateErrors.
  destruct (String.eqb_spec (logType e) "errors") as [Ht|Ht]; simpl.
  - rewrite decide_True by exact Ht. lia.
  - rewrite decide_False by exact Ht. lia.
Qed.

Lemma foldl_errors_filter proto evs acc :
  foldl (fun acc e => accumulateErrors e proto acc) acc evs
  = foldl (fun acc e => accumulateErrors e proto acc) acc (filter isErrorsEvent evs).
Proof.
  revert acc. induction evs as [|e evs IH]; intros acc; [reflexivity|].
  rewrite filter_cons. destruct (decide (isErrorsEvent e)) as [He|He]; simpl.
  - apply IH.
  - rewrite accumulateErrors_other by assumption. apply IH.
Qed.

Lemma raiseMember_prototype member entry proto r :
  raiseMember member entry false proto = Ok r -> snd r = proto.
Proof.
  destruct entry; simpl; intros H; try discriminate H; injection H as <-; reflexivity.
Qed.

(** The ways [accumulateConnection] completes: on a counting family the
    member of the entry was raised; otherwise nothing was raised. *)
Lemma accumulateConnection_Ok e proto nw nw' proto' :
  accumulateConnection numberToString e proto nw = Ok (nw', proto') ->
  (exists member entry entry',
      raiseMember member entry
        (String.eqb (addressOf numberToString e) "__proto__") proto
      = Ok (entry', proto') /\ metrics nw' = metrics nw) \/
  proto' = proto.
Proof.
  unfold accumulateConnection. fold (addressOf numberToString e). intros H.
  repeat case_decide.
  1-3: apply bind_Ok in H as ([entry' p] & Hr & H); injection H as <- <-;
       left; eauto.
  - destruct (asNumber (field e "rtt")); injection H as <- <-; right; reflexivity.
  - injection H as <- <-; right; reflexivity.
Qed.

(** Only an event filed under [__proto__] writes to [Object.prototype]. *)
Lemma accumulateEvent_prototype e proto st st' proto' :
  accumulateEvent numberToString e proto st = Ok (st', proto') ->
  ~ filedUnderProto numberToString e -> proto' = proto.
Proof.
  intros H Hn. apply accumulateEvent_Ok in H as (_ & _ & _ & _ & H & _).
  unfold accumulateNetwork in H. apply bind_Ok in H as ([nw1 p1] & H1 & H).
  injection H as _ <-.
  destruct (String.eqb_spec (logType e) "network-connection") as [Ht|Ht];
    [|injection H1 as _ <-; reflexivity].
  apply accumulateConnection_Ok in H1 as [(member & entry & entry' & Hr & _)|H1];
    [|exact H1].
  destruct (String.eqb_spec (addressOf numberToString e) "__proto__") as [Ha|Ha].
  - exfalso. apply Hn. split; assumption.
  - apply raiseMember_prototype in Hr. exact Hr.
Qed.

Lemma foldEvents_prototype evs proto st st' proto' :
  foldEvents numberToString evs proto st = Ok (st', proto') ->
  Forall (fun e => ~ filedUnderProto numberToString e) evs -> proto' = proto.
Proof.
  revert proto st. induction evs as [|e evs IH]; intros proto st H Hn; simpl in H.
  - injection H as _ <-. reflexivity.
  - apply Forall_cons in Hn as [He Hn].
    apply bind_Ok in H as ([st1 proto1] & H1 & H).
    apply accumulateEvent_prototype in H1 as ->; [|exact He]. exact (IH _ _ H Hn).
Qed.

(** Whenever [deriveStatistics] returns, [errors.totals] is the number of
    events of the errors log; and when no event is filed under
    [__proto__], the whole error aggregate is the one the events of the
    errors log give on their own. *)
Lemma errors_isolated (proto : Dict.ObjectPrototype) (results : list ParsedLogResult)
    (st : Statistics) :
  deriveStatistics numberToString proto results = Ok st ->
  totals (errors st) = countIf isErrorsEvent (allEvents results) /\
  (Forall (fun e => ~ filedUnderProto numberToString e) (allEvents results) ->
   errors st = errorsOf proto (filter isErrorsEvent (allEvents results))).
Proof.
  intros H. apply deriveStatistics_Ok in H as [proto' H]. split.
  - apply (foldEvents_counts (fun s => totals (errors s)) isErrorsEvent) in H; [exact H|].
    intros e p s s' p' He. apply accumulateEvent_Ok in He as (_ & _ & _ & _ & _ & _ & _ & -> & _).
    apply accumulateErrors_totals.
  - unfold errorsOf. rewrite <- foldl_errors_filter.
    change (mkErrors 0 ∅) with (errors emptyStatistics).
    revert H. generalize emptyStatistics. generalize (allEvents results).
    intros evs. induction evs as [|e evs IH]; intros st0 H Hn; simpl in H.
    + injection H as <- _. reflexivity.
    + apply Forall_cons in Hn as [He Hn].
      apply bind_Ok in H as ([st1 proto1] & H1 & H).
      pose proof (accumulateEvent_prototype _ _ _ _ _ H1 He) as ->.
      apply accumulateEvent_Ok in H1 as (_ & _ & _ & _ & _ & _ & _ & E & _).
      simpl. rewrite <- E. exact (IH _ H Hn).
Qed.

(** *** Cache *)

Lemma foldEvents_cache evs proto st st' proto' :
  foldEvents numberToString evs proto st = Ok (st', proto') ->
  cache st' = foldl (fun acc e => accumulateCache e acc) (cache st) evs.
Proof.
  revert proto st. induction evs as [|e evs IH]; intros proto st H; simpl in *.
  - injection H as <- _. reflexivity.
  - apply bind_Ok in H as ([st1 proto1] & H1 & H).
    apply accumulateEvent_Ok in H1 as (_ & E & _).
    rewrite (IH _ _ H), E. reflexivity.
Qed.

Lemma accumulateCache_other e acc :
  ~ isCacheEvent e -> accumulateCache e acc = acc.
Proof.
  unfold isCacheEvent, accumulateCache. intros H.
  destruct (String.eqb_spec (logType e) "backendCache"); [contradiction | reflexivity].
Qed.

Lemma isFalse_spec v : isFalse v = true <-> v = JBool false.
Proof. destruct v as [| |[|]| | | |]; simpl; split; congruence. Qed.

Lemma accumulateCache_miss e acc :
  isCacheEvent e -> cacheHitIsFalse e ->
  accumulateCache e acc = mkCache (hits acc) (S (misses acc)).
Proof.
  unfold isCacheEvent, cacheHitIsFalse, accumulateCache. intros -> ->. reflexivity.
Qed.

Lemma accumulateCache_hit e acc :
  isCacheEvent e -> ~ cacheHitIsFalse e ->
  accumulateCache e acc = mkCache (S (hits acc)) (misses acc).
Proof.
  unfold isCacheEvent, cacheHitIsFalse, accumulateCache. intros -> H. simpl.
  destruct (isFalse (field e "cacheHit")) eqn:E; [|reflexivity].
  apply isFalse_spec in E. contradiction.
Qed.

Lemma foldl_cache_counts evs acc :
  let acc' := foldl (fun acc e => accumulateCache e acc) acc evs in
  misses acc' = (misses acc + countIf (fun e => isCacheEvent e /\ cacheHitIsFalse e) evs)%nat /\
  hits acc' = (hits acc + countIf (fun e => isCacheEvent e /\ ~ cacheHitIsFalse e) evs)%nat.
Proof.
  unfold countIf. revert acc. induction evs as [|e evs IH]; intros acc; simpl; [lia|].
  rewrite !filter_cons. destruct (IH (accumulateCache e acc)) as [IHm IHh].
  rewrite IHm, IHh. clear IH IHm IHh.
  destruct (decide (isCacheEvent e)) as [Hc|Hc].
  - destruct (decide (cacheHitIsFalse e)) as [Hf|Hf].
    + rewrite accumulateCache_miss by assumption.
      rewrite decide_True by auto. rewrite decide_False by tauto. simpl. lia.
    + rewrite accumulateCache_hit by assumption.
      rewrite decide_False by tauto. rewrite decide_True by auto. simpl. lia.
  - rewrite accumulateCache_other by assumption.
    rewrite !decide_False by tauto. lia.
Qed.

(** C4. Whenever [deriveStatistics] returns, [cache.misses] is the number
    of [backendCache] events whose [cacheHit] field is the boolean [false],
    and [cache.hits] the number of all other [backendCache] events, those
    without the field included. On the events of Scenario B,
    [{cacheHit:false}, {cacheHit:true}, {}], it returns [hits = 2] and
    [misses = 1]. *)
Theorem cache_hit_miss_policy :
  (forall (proto : Dict.ObjectPrototype) (results : list ParsedLogResult)
          (st : Statistics),
      deriveStatistics numberToString proto results = Ok st ->
      misses (cache st)
      = countIf (fun e => isCacheEvent e /\ cacheHitIsFalse e) (allEvents results) /\
      hits (cache st)
      = countIf (fun e => isCacheEvent e /\ ~ cacheHitIsFalse e) (allEvents results)) /\
  (forall proto : Dict.ObjectPrototype,
      exists st, deriveStatistics numberToString proto scenarioB = Ok st /\
                 hits (cache st) = 2%nat /\ misses (cache st) = 1%nat).
Proof.
  split.
  - intros proto results st H. apply deriveStatistics_Ok in H as [proto' H].
    apply foldEvents_cache in H. rewrite H.
    apply (foldl_cache_counts (allEvents results) (mkCache 0 0)).
  - intros proto. eexists. split; [vm_compute; reflexivity|]. split; reflexivity.
Qed.

(** *** Running averages *)

Lemma ofNat_S (c : nat) :
  (inject_Z (Z.of_nat (S c)) == inject_Z (Z.of_nat c) + 1)%Q.
Proof. rewrite Nat2Z.inj_succ. unfold Z.succ. rewrite inject_Z_plus. reflexivity. Qed.

Lemma ofNat_nonneg (c : nat) : (0 <= inject_Z (Z.of_nat c))%Q.
Proof. change 0%Q with (inject_Z 0). rewrite <- Zle_Qle. lia. Qed.

Lemma ofNat_S_nonzero (c : nat) : ~ (inject_Z (Z.of_nat (S c)) == 0)%Q.
Proof.
  change 0%Q with (inject_Z 0). rewrite inject_Z_injective. lia.
Qed.

(** The update keeps [average * count] equal to the sum of the samples. *)
Lemma runningAverage_sum (a x s : Q) (c : nat) :
  (a * inject_Z (Z.of_nat c) == s)%Q ->
  (runningAverage a x (S c) * inject_Z (Z.of_nat (S c)) == s + x)%Q.
Proof.
  intros H. unfold runningAverage.
  pose proof (ofNat_S_nonzero c) as Hnz.
  rewrite <- H.
  transitivity (a * inject_Z (Z.of_nat (S c)) + (x - a))%Q.
  - field. exact Hnz.
  - rewrite ofNat_S. ring.
Qed.

(** A "statistics" event takes the fourth branch of [accumulateConnection]. *)
Lemma accumulateConnection_statistics e proto nw :
  eventFamily e = Some "statistics" ->
  exists table,
    accumulateConnection numberToString e proto nw
    = Ok (mkNetwork (connections nw) (disconnects nw) (timeouts nw) table
            (mkMetrics (samples (metrics nw))
               match asNumber (field e "rtt") with
               | Some rtt => Some (S (default 0%nat (rttSamples (metrics nw))))
               | None => rttSamples (metrics nw)
               end
               match asNumber (field e "rtt") with
               | Some rtt =>
                   Some (runningAverage (default 0%Q (rttAvg (metrics nw))) rtt
                           (S (default 0%nat (rttSamples (metrics nw)))))
               | None => rttAvg (metrics nw)
               end
               (rpiAvg (metrics nw)) (ludAvg (metrics nw))
               (addWhenNumber (totalPacketsLost (metrics nw)) (field e "packetsLost"))
               (addWhenNumber (totalPacketsSent (metrics nw)) (field e "packetsSent"))
               (addWhenNumber (totalPacketsReceived (metrics nw))
                  (field e "packetsReceived"))),
          proto).
Proof.
  intros Hs. unfold accumulateConnection.
  rewrite !(decide_False (P := _ \/ _)) by (rewrite Hs; intros [?|?]; discriminate).
  rewrite (decide_False (P := eventFamily e = Some "timeout")) by (rewrite Hs; discriminate).
  rewrite (decide_True (P := eventFamily e = Some "statistics")) by exact Hs.
  destruct (asNumber (field e "rtt")); eexists; reflexivity.
Qed.

(** Any other event that completes leaves the metrics as they are. *)
Lemma accumulateConnection_other e proto nw nw' proto' :
  eventFamily e <> Some "statistics" ->
  accumulateConnection numberToString e proto nw = Ok (nw', proto') ->
  metrics nw' = metrics nw.
Proof.
  intros Hs H. unfold accumulateConnection in H.
  repeat case_decide; try contradiction.
  1-3: apply bind_Ok in H as ([entry' p] & _ & H).
  all: injection H as <- _; reflexivity.
Qed.

(** [accumulateNetwork] run by cases on the log of the event. *)
Lemma accumulateNetwork_connection e proto nw :
  logType e = "network-connection" ->
  accumulateNetwork numberToString e proto nw
  = accumulateConnection numberToString e proto nw.
Proof.
  intros Ht. unfold accumulateNetwork. rewrite Ht. simpl.
  destruct (accumulateConnection _ _ _ _) as [[nw1 p1]|]; reflexivity.
Qed.

Lemma accumulateNetwork_messages_log e proto nw :
  logType e = "network-messages" ->
  accumulateNetwork numberToString e proto nw = Ok (accumulateMessages e nw, proto).
Proof. intros Ht. unfold accumulateNetwork. rewrite Ht. reflexivity. Qed.

Lemma accumulateNetwork_other e proto nw :
  logType e <> "network-connection" -> logType e <> "network-messages" ->
  accumulateNetwork numberToString e proto nw = Ok (nw, proto).
Proof.
  intros H1 H2. unfold accumulateNetwork.
  destruct (String.eqb_spec (logType e) "network-connection"); [contradiction|].
  destruct (String.eqb_spec (logType e) "network-messages"); [contradiction|].
  reflexivity.
Qed.

(** What one event does to the round-trip average. *)
Lemma accumulateNetwork_rtt e proto nw nw' proto' :
  accumulateNetwork numberToString e proto nw = Ok (nw', proto') ->
  let m := metrics nw in
  let m' := metrics nw' in
  (rttSamples m', rttAvg m')
  = match rttSample e with
    | Some x =>
        let n := S (default 0%nat (rttSamples m)) in
        (Some n, Some (runningAverage (default 0%Q (rttAvg m)) x n))
    | None => (rttSamples m, rttAvg m)
    end.
Proof.
  intros H. cbv zeta. unfold rttSample.
  destruct (decide (logType e = "network-connection")) as [Ht|Ht].
  - rewrite accumulateNetwork_connection in H by exact Ht.
    destruct (decide (eventFamily e = Some "statistics")) as [Hs|Hs].
    + rewrite decide_True by tauto.
      destruct (accumulateConnection_statistics e proto nw Hs) as [table E].
      rewrite E in H. injection H as <- _. simpl.
      destruct (asNumber (field e "rtt")); reflexivity.
    + rewrite decide_False by tauto.
      rewrite (accumulateConnection_other _ _ _ _ _ Hs H). reflexivity.
  - rewrite decide_False by tauto.
    destruct (decide (logType e = "network-messages")) as [Hm|Hm].
    + rewrite accumulateNetwork_messages_log in H by exact Hm.
      injection H as <- _. reflexivity.
    + rewrite accumulateNetwork_other in H by assumption.
      injection H as <- _. reflexivity.
Qed.

(** What one event does to the message averages. *)
Lemma accumulateNetwork_messages e proto nw nw' proto' :
  accumulateNetwork numberToString e proto nw = Ok (nw', proto') ->
  let m := metrics nw in
  let m' := metrics nw' in
  samples m' = (if decide (isMessagesEvent e) then S (samples m) else samples m) /\
  rpiAvg m' = match rpiSample e with
              | Some x => Some (runningAverage (default 0%Q (rpiAvg m)) x (S (samples m)))
              | None => rpiAvg m
              end /\
  ludAvg m' = match ludSample e with
              | Some x => Some (runningAverage (default 0%Q (ludAvg m)) x (S (samples m)))
              | None => ludAvg m
              end.
Proof.
  intros H. cbv zeta. unfold rpiSample, ludSample, isMessagesEvent.
  destruct (decide (logType e = "network-messages")) as [Hm|Hm].
  - rewrite accumulateNetwork_messages_log in H by exact Hm. injection H as <- _.
    simpl. destruct (asNumber (field e "rpi")), (asNumber (field e "lud")); auto.
  - destruct (decide (logType e = "network-connection")) as [Ht|Ht].
    + rewrite accumulateNetwork_connection in H by exact Ht.
      destruct (decide (eventFamily e = Some "statistics")) as [Hs|Hs].
      * destruct (accumulateConnection_statistics e proto nw Hs) as [table E].
        rewrite E in H. injection H as <- _. simpl. auto.
      * rewrite (accumulateConnection_other _ _ _ _ _ Hs H). auto.
    + rewrite accumulateNetwork_other in H by assumption. injection H as <- _. auto.
Qed.

Lemma foldEvents_rtt evs proto st st' proto' (s : Q) :
  let count (x : Statistics) := default 0%nat (rttSamples (metrics (network x))) in
  let avg (x : Statistics) := default 0%Q (rttAvg (metrics (network x))) in
  let xs := omap rttSample evs in
  foldEvents numberToString evs proto st = Ok (st', proto') ->
  (avg st * inject_Z (Z.of_nat (count st)) == s)%Q ->
  count st' = (count st + length xs)%nat /\
  (avg st' * inject_Z (Z.of_nat (count st')) == s + sumQ xs)%Q /\
  (xs = [] -> rttAvg (metrics (network st')) = rttAvg (metrics (network st))) /\
  (xs <> [] -> is_Some (rttAvg (metrics (network st')))).
Proof.
  cbv zeta. unfold omap. revert proto st s.
  induction evs as [|e evs IH]; intros proto st s H Hs; simpl in H.
  - injection H as <- _. simpl. rewrite Nat.add_0_r, Qplus_0_r.
    repeat split; [exact Hs | congruence].
  - apply bind_Ok in H as ([st1 proto1] & H1 & H). simpl list_omap.
    apply accumulateEvent_Ok in H1 as (_ & _ & _ & _ & H1 & _).
    pose proof (accumulateNetwork_rtt _ _ _ _ _ H1) as He. cbv zeta in He.
    destruct (rttSample e) as [x|].
    + injection He as Hc Ha.
      specialize (IH proto1 st1 (s + x)%Q H).
      rewrite Hc, Ha in IH. simpl in IH.
      destruct IH as (IH1 & IH2 & IH3 & IH4).
      { apply runningAverage_sum, Hs. }
      simpl. repeat split.
      * rewrite IH1. lia.
      * rewrite IH2. unfold sumQ. simpl. ring.
      * discriminate.
      * intros _. destruct (list_omap _ _ rttSample evs) as [|y ys] eqn:E.
        -- rewrite IH3 by reflexivity. eauto.
        -- apply IH4. discriminate.
    + injection He as Hc Ha.
      specialize (IH proto1 st1 s H).
      rewrite Hc, Ha in IH. apply IH in Hs as (IH1 & IH2 & IH3 & IH4).
      repeat split; auto.
Qed.

(** Whenever [deriveStatistics] returns, [rttAvg] is absent when no
    "statistics" event carried a numeric [rtt], and otherwise is the
    arithmetic mean of the values carried; [rttSamples] counts them. *)
Lemma rtt_average_is_mean (proto : Dict.ObjectPrototype) (results : list ParsedLogResult)
    (st : Statistics) :
  deriveStatistics numberToString proto results = Ok st ->
  let m := metrics (network st) in
  let xs := omap rttSample (allEvents results) in
  default 0%nat (rttSamples m) = length xs /\
  match xs with
  | [] => rttAvg m = None
  | _ :: _ => exists a, rttAvg m = Some a /\ (a == mean xs)%Q
  end.
Proof.
  intros H. apply deriveStatistics_Ok in H as [proto' H]. cbv zeta.
  pose proof (foldEvents_rtt (allEvents results) proto emptyStatistics st proto' 0%Q) as F.
  cbv zeta in F. destruct (F H) as (F1 & F2 & F3 & F4); [simpl; ring|]. clear F.
  split; [exact F1|].
  destruct (omap rttSample (allEvents results)) as [|x xs] eqn:E.
  - rewrite F3 by reflexivity. reflexivity.
  - destruct F4 as [a Ha]; [discriminate|]. exists a. split; [exact Ha|].
    rewrite F1, Ha in F2.
    change (a * inject_Z (Z.of_nat (length (x :: xs))) == 0 + sumQ (x :: xs))%Q in F2.
    unfold mean. rewrite Qplus_0_l in F2. rewrite <- F2.
    field. apply ofNat_S_nonzero.
Qed.

(** The averages of the network-messages log divide by [samples], the
    number of events of that log: they are means as long as every such
    event carries the field. *)
Lemma foldEvents_dense_average (sample : Event -> option Q)
    (get : NetworkMetrics -> option Q) :
  (forall e proto nw nw' proto',
      accumulateNetwork numberToString e proto nw = Ok (nw', proto') ->
      get (metrics nw')
      = match sample e with
        | Some x => Some (runningAverage (default 0%Q (get (metrics nw))) x
                            (S (samples (metrics nw))))
        | None => get (metrics nw)
        end) ->
  (forall e, ~ isMessagesEvent e -> sample e = None) ->
  forall evs proto st st' proto' (s : Q),
    foldEvents numberToString evs proto st = Ok (st', proto') ->
    Forall (fun e => isMessagesEvent e -> is_Some (sample e)) evs ->
    (default 0%Q (get (metrics (network st)))
     * inject_Z (Z.of_nat (samples (metrics (network st)))) == s)%Q ->
    let xs := list_omap _ _ sample evs in
    samples (metrics (network st')) = (samples (metrics (network st)) + length xs)%nat /\
    (default 0%Q (get (metrics (network st')))
     * inject_Z (Z.of_nat (samples (metrics (network st')))) == s + sumQ xs)%Q /\
    (xs = [] -> get (metrics (network st')) = get (metrics (network st))) /\
    (xs <> [] -> is_Some (get (metrics (network st')))).
Proof.
  intros Hstep Hother. cbv zeta.
  induction evs as [|e evs IH]; intros proto st st' proto' s H Hdense Hs; simpl in H.
  - injection H as <- _. simpl. rewrite Nat.add_0_r, Qplus_0_r.
    repeat split; [exact Hs | congruence].
  - apply bind_Ok in H as ([st1 proto1] & H1 & H). simpl list_omap.
    apply Forall_cons in Hdense as [He Hdense].
    apply accumulateEvent_Ok in H1 as (_ & _ & _ & _ & H1 & _).
    pose proof (Hstep _ _ _ _ _ H1) as Hg.
    destruct (accumulateNetwork_messages _ _ _ _ _ H1) as (Hn & _ & _).
    destruct (decide (isMessagesEvent e)) as [Hm|Hm].
    + destruct (He Hm) as [x Hx]. rewrite Hx in Hg |- *.
      specialize (IH proto1 st1 st' proto' (s + x)%Q H Hdense).
      rewrite Hn, Hg in IH. simpl in IH.
      destruct IH as (IH1 & IH2 & IH3 & IH4).
      { apply runningAverage_sum, Hs. }
      simpl. repeat split.
      * rewrite IH1. lia.
      * rewrite IH2. unfold sumQ. simpl. ring.
      * discriminate.
      * intros _. destruct (list_omap _ _ sample evs) as [|y ys] eqn:E.
        -- rewrite IH3 by reflexivity. eauto.
        -- apply IH4. discriminate.
    + rewrite (Hother e Hm) in Hg |- *.
      specialize (IH proto1 st1 st' proto' s H Hdense).
      rewrite Hn, Hg in IH. apply IH in Hs as (IH1 & IH2 & IH3 & IH4).
      repeat split; auto.
Qed.

(** Whenever [deriveStatistics] returns and every event of the
    network-messages log carries a numeric [rpi], [rpiAvg] is the
    arithmetic mean of the values carried, and is absent when there is no
    such event. *)
Lemma rpi_average_is_mean_when_dense (proto : Dict.ObjectPrototype)
    (results : list ParsedLogResult) (st : Statistics) :
  deriveStatistics numberToString proto results = Ok st ->
  Forall (fun e => isMessagesEvent e -> is_Some (rpiSample e)) (allEvents results) ->
  match omap rpiSample (allEvents results) with
  | [] => rpiAvg (metrics (network st)) = None
  | x :: xs => exists a, rpiAvg (metrics (network st)) = Some a /\ (a == mean (x :: xs))%Q
  end.
Proof.
  intros H Hdense. apply deriveStatistics_Ok in H as [proto' H].
  pose proof (foldEvents_dense_average rpiSample rpiAvg) as F.
  specialize (F (fun e p nw nw' p' Hn =>
                   proj1 (proj2 (accumulateNetwork_messages e p nw nw' p' Hn)))).
  specialize (F (fun e Hm => ltac:(unfold rpiSample; rewrite decide_False by exact Hm; reflexivity))).
  specialize (F (allEvents results) proto emptyStatistics st proto' 0%Q H Hdense).
  cbv zeta in F. destruct F as (F1 & F2 & F3 & F4); [simpl; ring|].
  unfold omap.
  destruct (list_omap _ _ rpiSample (allEvents results)) as [|x xs] eqn:E.
  - rewrite F3 by reflexivity. reflexivity.
  - destruct F4 as [a Ha]; [discriminate|]. exists a. split; [exact Ha|].
    rewrite F1, Ha in F2.
    change (a * inject_Z (Z.of_nat (length (x :: xs))) == 0 + sumQ (x :: xs))%Q in F2.
    unfold mean. rewrite Qplus_0_l in F2. rewrite <- F2.
    field. apply ofNat_S_nonzero.
Qed.

(** *** Quests *)

Lemma startsWith_spec p s :
  Str.startsWith p s = true <-> exists after, s = p +:+ after.
Proof.
  revert s. induction p as [|a p IH]; intros s; simpl.
  - split; eauto.
  - destruct s as [|b s].
    + split; [discriminate | intros [after H]; discriminate H].
    + rewrite andb_true_iff, IH. split.
      * intros [Hab [after ->]]. apply Ascii.eqb_eq in Hab as ->. eauto.
      * intros [after H]. injection H as -> ->. split; [apply Ascii.eqb_refl | eauto].
Qed.

Lemma includes_spec s p : Str.includes s p = true <-> contains s p.
Proof.
  unfold contains. induction s as [|c s IH].
  - simpl. rewrite orb_false_r, startsWith_spec. split.
    + intros [after H]. exists "", after. exact H.
    + intros (before & after & H). destruct before; [eauto|discriminate H].
  - cbn [Str.includes]. rewrite orb_true_iff, startsWith_spec, IH. split.
    + intros [[after H]|(before & after & H)].
      * exists "", after. exact H.
      * exists (String c before), after. rewrite H. reflexivity.
    + intros (before & after & H). destruct before as [|b before].
      * left. eauto.
      * right. injection H as -> ->. eauto.
Qed.

Lemma includes_false s p : Str.includes s p = false <-> ~ contains s p.
Proof. rewrite <- includes_spec. destruct (Str.includes s p); split; congruence. Qed.

(** The chain of [accumulateQuest] takes the transition the policy names. *)
Lemma nextStatus_policy current src :
  PolicyStep current src (nextStatus current src).
Proof.
  unfold nextStatus.
  destruct (Str.includes src "completed") eqn:Hc; simpl.
  { apply policy_completed. left. apply includes_spec, Hc. }
  destruct (String.eqb_spec src "success") as [Hs|Hs].
  { apply policy_completed. right. exact Hs. }
  assert (Hnc : ~ saysCompleted src).
  { intros [H|H]; [apply includes_false in Hc|]; contradiction. }
  destruct (Str.includes src "fail") eqn:Hf.
  { apply policy_failed; [exact Hnc | apply includes_spec, Hf]. }
  apply includes_false in Hf.
  destruct (Str.includes src "start") eqn:H1; simpl.
  { apply includes_spec in H1. case_decide as Hu.
    - apply policy_started; [exact Hnc | exact Hf | left; exact H1 | exact Hu].
    - apply policy_not_downgraded; [exact Hnc | exact Hf | left; exact H1 | exact Hu]. }
  destruct (Str.includes src "description") eqn:H2.
  { apply includes_spec in H2. case_decide as Hu.
    - apply policy_started; [exact Hnc | exact Hf | right; exact H2 | exact Hu].
    - apply policy_not_downgraded; [exact Hnc | exact Hf | right; exact H2 | exact Hu]. }
  apply includes_false in H1, H2.
  apply policy_unchanged; [exact Hnc | exact Hf |].
  intros [H|H]; contradiction.
Qed.

(** The policy names one status for a current status and a source. *)
Lemma PolicyStep_deterministic current src s1 s2 :
  PolicyStep current src s1 -> PolicyStep current src s2 -> s1 = s2.
Proof. intros H1 H2. inversion H1; inversion H2; subst; congruence || contradiction. Qed.

Lemma statusSource_Ok e src : statusSource e = Ok src -> src = specSource e.
Proof.
  unfold statusSource, specSource.
  destruct (field e "questStatus"); intros H; try discriminate H;
    injection H as <-; reflexivity.
Qed.

Lemma updateQuest_Ok e proto key q qs ts qs' ts' :
  updateQuest numberToString e proto key q qs ts = Ok (qs', ts') ->
  exists q', qs' = <[key := q']> qs /\
             status q' = nextStatus (status q) (specSource e).
Proof.
  unfold updateQuest. intros H.
  apply bind_Ok in H as (src & Hsrc & H). apply statusSource_Ok in Hsrc as ->.
  apply bind_Ok in H as (items' & _ & H).
  destruct (traderId q); [|destruct (truthy (field e "questTraderId"))];
    injection H as <- <-; eexists; split; reflexivity.
Qed.

(** What one event does to the status of the quest stored under [key]. *)
Lemma accumulateQuest_status e proto qs ts qs' ts' key :
  accumulateQuest numberToString e proto qs ts = Ok (qs', ts') ->
  if decide (questKey numberToString e = Some key)
  then PolicyStep (statusOf qs key) (specSource e) (statusOf qs' key)
  else statusOf qs' key = statusOf qs key.
Proof.
  unfold accumulateQuest, questKey. intros H.
  destruct (findQuestId e) as [qid|]; simpl.
  2:{ injection H as <- <-. reflexivity. }
  set (k := toString numberToString qid) in *.
  assert (Hq : exists q q', statusOf qs k = status q /\ qs' = <[k := q']> qs /\
                            status q' = nextStatus (status q) (specSource e)).
  { unfold Dict.get, statusOf in *. destruct (qs !! k) as [q|] eqn:E.
    - apply updateQuest_Ok in H as (q' & -> & Hs). eauto.
    - destruct (Dict.inheritedKey k); [discriminate H|].
      destruct (Dict.addedKey proto k);
        apply updateQuest_Ok in H as (q' & -> & Hs);
        exists (mkQuest qid Unknown [] None None None), q'; auto. }
  destruct Hq as (q & q' & Hcur & -> & Hnew).
  case_decide as Hk.
  - injection Hk as <-. unfold statusOf at 2. rewrite lookup_insert_eq.
    rewrite Hcur, Hnew. apply nextStatus_policy.
  - unfold statusOf. rewrite lookup_insert_ne by congruence. reflexivity.
Qed.

Lemma foldEvents_status evs proto st st' proto' key :
  foldEvents numberToString evs proto st = Ok (st', proto') ->
  PolicyRun (statusOf (quests st) key)
    (map specSource (filter (fun e => questKey numberToString e = Some key) evs))
    (statusOf (quests st') key).
Proof.
  revert proto st. induction evs as [|e evs IH]; intros proto st H; simpl in H.
  - injection H as <- _. constructor.
  - apply bind_Ok in H as ([st1 proto1] & H1 & H).
    apply accumulateEvent_Ok in H1 as (_ & _ & _ & _ & _ & _ & _ & _ & _ & H1).
    apply accumulateQuest_status with (key := key) in H1.
    rewrite filter_cons. specialize (IH _ _ H).
    destruct (decide (questKey numberToString e = Some key)) as [Hk|Hk].
    + simpl. econstructor; eassumption.
    + rewrite H1 in IH. exact IH.
Qed.

(** C3. Whenever [deriveStatistics] returns, the status recorded for a
    quest is the one the policy reaches from "unknown" along the status
    sources of the events carrying that quest's id, in the order the fold
    visits them: "completed"/"success" gives completed, else "fail" gives
    failed, else "start"/"description" gives started when the status is
    still unknown and leaves it otherwise. In particular no transition of
    the code turns a status other than unknown into started. *)
Theorem quest_status_policy (proto : Dict.ObjectPrototype)
    (results : list ParsedLogResult) (st : Statistics) (key : string) :
  deriveStatistics numberToString proto results = Ok st ->
  PolicyRun Unknown
    (map specSource
       (filter (fun e => questKey numberToString e = Some key) (allEvents results)))
    (statusOf (quests st) key) /\
  (forall current src,
      current <> Unknown -> nextStatus current src = Started -> current = Started).
Proof.
  intros H. apply deriveStatistics_Ok in H as [proto' H]. split.
  - apply foldEvents_status with (key := key) in H. exact H.
  - intros current src Hu Hn. pose proof (nextStatus_policy current src) as P.
    rewrite Hn in P. inversion P; congruence.
Qed.

(** *** Totality on safe events *)

Lemma accumulateAnticheat_safe e ac :
  (logType e = "application" -> eventFamily e = Some "error" -> is_Some (message e)) ->
  exists ac', accumulateAnticheat e ac = Ok ac'.
Proof.
  unfold accumulateAnticheat. intros H.
  destruct (String.eqb_spec (logType e) "application") as [Ht|Ht]; simpl; [|eauto].
  destruct (decide (eventFamily e = Some "error")) as [Hf|Hf]; [|eauto].
  destruct (H Ht Hf) as [msg ->].
  destruct (Str.includes _ _); eauto.
Qed.

Lemma updateQuest_safe e proto key q qs ts :
  stringOrAbsent (field e "questStatus") ->
  iterableOrFalsy (field e "questRewardItems") ->
  exists r, updateQuest numberToString e proto key q qs ts = Ok r.
Proof.
  unfold updateQuest, statusSource, accumulateRewardItems, stringOrAbsent, iterableOrFalsy.
  intros Hs Hi.
  assert (Hitems : forall current,
             exists items', accumulateRewardItems numberToString e current = Ok items').
  { intros current. unfold accumulateRewardItems.
    destruct (truthy (field e "questRewardItems")) eqn:Et.
    - rewrite orb_true_r.
      destruct (field e "questRewardItems"); try congruence; simpl; eauto.
    - rewrite orb_false_r.
      destruct (truthy (field e "questRewardItemsCounts")); simpl; eauto. }
  destruct (Hitems (rewardItems q)) as [items' Hi'].
  unfold accumulateRewardItems in Hi'.
  destruct (field e "questStatus"); try contradiction; simpl; rewrite Hi'; simpl.
  all: destruct (traderId q); [|destruct (truthy (field e "questTraderId"))]; eauto.
Qed.

Lemma addedKey_member proto k :
  Dict.addedKey proto k = true -> entryMemberName k = true.
Proof.
  unfold Dict.addedKey, entryMemberName.
  destruct (String.eqb k "connect"), (String.eqb k "disconnect"), (String.eqb k "timeout");
    rewrite ?andb_false_r; simpl; congruence.
Qed.

Lemma accumulateConnection_safe e proto nw :
  entryMemberName (addressOf numberToString e) = false ->
  nanUnderMembers (byAddress nw) ->
  exists nw' proto',
    accumulateConnection numberToString e proto nw = Ok (nw', proto') /\
    nanUnderMembers (byAddress nw').
Proof.
  intros Ha Hnan. unfold accumulateConnection. fold (addressOf numberToString e).
  set (addr := addressOf numberToString e) in *.
  set (entry := match Dict.get proto (byAddress nw) addr with
                | Dict.Own s => s
                | Dict.Inherited => Builtin addr
                | Dict.InheritedNaN => NaNValue
                | Dict.Missing => Entry (mkEntry 0 0 0)
                end).
  assert (Hentry : entry <> NaNValue).
  { subst entry. unfold Dict.get. destruct (byAddress nw !! addr) as [s|] eqn:E.
    - intros ->. apply Hnan in E. congruence.
    - destruct (Dict.inheritedKey addr); [discriminate|].
      destruct (Dict.addedKey proto addr) eqn:Ek; [|discriminate].
      apply addedKey_member in Ek. congruence. }
  assert (Hstore : forall s, s <> NaNValue ->
             nanUnderMembers (if String.eqb addr "__proto__" then byAddress nw
                              else <[addr := s]> (byAddress nw))).
  { intros s Hs. destruct (String.eqb addr "__proto__"); [exact Hnan|].
    intros k Hk. destruct (decide (addr = k)) as [<-|Hne].
    - rewrite lookup_insert_eq in Hk. congruence.
    - rewrite lookup_insert_ne in Hk by exact Hne. apply Hnan, Hk. }
  assert (Hraise : forall member,
             exists entry' proto',
               raiseMember member entry (String.eqb addr "__proto__") proto
               = Ok (entry', proto') /\ entry' <> NaNValue).
  { intros member. destruct entry as [en|k|]; [| |contradiction]; simpl;
      eexists _, _; (split; [reflexivity|discriminate]). }
  repeat case_decide.
  1-3: match goal with
       | |- context [raiseMember ?member _ _ _] =>
           destruct (Hraise member) as (entry' & proto' & -> & Hne)
       end; simpl; eexists _, _; (split; [reflexivity|]); simpl; apply Hstore, Hne.
  - destruct (asNumber (field e "rtt")); eexists _, _; (split; [reflexivity|]);
      simpl; apply Hstore, Hentry.
  - eexists _, _. split; [reflexivity|]. simpl. apply Hstore, Hentry.
Qed.

Lemma accumulateNetwork_safe e proto nw :
  (logType e = "network-connection" ->
   entryMemberName (addressOf numberToString e) = false) ->
  nanUnderMembers (byAddress nw) ->
  exists nw' proto',
    accumulateNetwork numberToString e proto nw = Ok (nw', proto') /\
    nanUnderMembers (byAddress nw').
Proof.
  intros Ha Hnan.
  destruct (decide (logType e = "network-connection")) as [Ht|Ht].
  - rewrite accumulateNetwork_connection by exact Ht.
    apply accumulateConnection_safe; auto.
  - destruct (decide (logType e = "network-messages")) as [Hm|Hm].
    + rewrite accumulateNetwork_messages_log by exact Hm. eauto.
    + rewrite accumulateNetwork_other by assumption. eauto.
Qed.

Lemma accumulateEvent_safe e proto st :
  safeEvent numberToString e ->
  nanUnderMembers (byAddress (network st)) ->
  exists st' proto',
    accumulateEvent numberToString e proto st = Ok (st', proto') /\
    nanUnderMembers (byAddress (network st')).
Proof.
  intros (Ha & Hn & Hq) Hnan. unfold accumulateEvent.
  destruct (accumulateInventory _ _ _ _ _) as [inv' items'].
  destruct (accumulateNetwork_safe e proto (network st) Hn Hnan) as (nw' & proto' & -> & Hnan').
  simpl.
  destruct (accumulateAnticheat_safe e (anticheat st) Ha) as [ac' ->]. simpl.
  assert (exists r, accumulateQuest numberToString e proto' (quests st) (traders st) = Ok r)
    as [[qs' ts'] ->]; [|simpl; eauto].
  unfold accumulateQuest. destruct (findQuestId e) as [qid|]; [|eauto].
  destruct Hq as (Hk & Hs & Hi). unfold Dict.get. rewrite Hk.
  destruct (quests st !! _); [|destruct (Dict.addedKey _ _)];
    apply updateQuest_safe; assumption.
Qed.


End Facts.

(** C1, on [pollutingInput]. The first event belongs to the
    network-connection log, carries [level: "Error"] and is filed under
    the address [__proto__]: its entry is [Object.prototype] itself, and
    [entry.connect += 1] leaves [NaN] in [Object.prototype.connect]. The
    second event is the only one of the errors log, of family "connect":
    [errors.byFamily.connect ?? 0] then reads the inherited [NaN], and
    [errors.byFamily] records [NaN] where the errors log on its own gives
    1. [errors.totals] is 1 all the same. *)
Theorem prototype_pollution_reaches_errors (numberToString : Q -> string) :
  exists st,
    deriveStatistics numberToString Dict.standardPrototype pollutingInput = Ok st /\
    countIf isErrorsEvent (allEvents pollutingInput) = 1%nat /\
    totals (errors st) = 1%nat /\
    byFamily (errors st) !! "connect" = Some NotANumber /\
    byFamily (errorsOf Dict.standardPrototype
                (filter isErrorsEvent (allEvents pollutingInput))) !! "connect"
    = Some (Count 1) /\
    errors st
    <> errorsOf Dict.standardPrototype (filter isErrorsEvent (allEvents pollutingInput)).
Proof.
  eexists. split; [vm_compute; reflexivity|].
  split; [vm_compute; reflexivity|]. split; [reflexivity|].
  split; [vm_compute; reflexivity|]. split; [vm_compute; reflexivity|].
  intros H. apply (f_equal (fun s => byFamily s !! "connect")) in H.
  vm_compute in H. discriminate H.
Qed.

Lemma cache_hit_miss_policy_witness :
  match deriveStatistics printNatural Dict.standardPrototype scenarioB with
  | Ok st => hits (cache st) = 2%nat /\ misses (cache st) = 1%nat
  | Throw _ => False
  end.
Proof.
  destruct (deriveStatistics printNatural Dict.standardPrototype scenarioB)
    as [st|err] eqn:H.
  - destruct (proj1 (cache_hit_miss_policy printNatural) _ scenarioB st H) as [Hm Hh].
    rewrite Hm, Hh. vm_compute. split; reflexivity.
  - vm_compute in H. discriminate H.
Defined.

(** C5, on [rpiGapInput]: the second event carries the only [rpi], 10, and
    the update divides by [samples = 2], the number of network-messages
    events, not by the number of [rpi] samples: [rpiAvg] is 5 where the
    mean of the values carried is 10. *)
Theorem rpi_average_divergence (proto : Dict.ObjectPrototype) :
  exists st a,
    deriveStatistics printNatural proto rpiGapInput = Ok st /\
    samples (metrics (network st)) = 2%nat /\
    omap rpiSample (allEvents rpiGapInput) = [10%Q] /\
    rpiAvg (metrics (network st)) = Some a /\
    (a == 5)%Q /\ (mean [10%Q] == 10)%Q /\ ~ (a == mean [10%Q])%Q.
Proof.
  eexists _, _. split; [vm_compute; reflexivity|].
  split; [reflexivity|]. split; [vm_compute; reflexivity|].
  split; [vm_compute; reflexivity|].
  split; [reflexivity|]. split; [reflexivity|]. discriminate.
Qed.

Lemma quest_status_policy_witness :
  match deriveStatistics printNatural Dict.standardPrototype scenarioD with
  | Ok st =>
      statusOf (quests st) "abc123" = Completed /\
      PolicyRun Unknown ["quest description"; "completed"; "quest started"]
        (statusOf (quests st) "abc123")
  | Throw _ => False
  end.
Proof.
  destruct (deriveStatistics printNatural Dict.standardPrototype scenarioD)
    as [st|err] eqn:H.
  - split.
    + vm_compute in H. injection H as <-. vm_compute. reflexivity.
    + exact (proj1 (quest_status_policy printNatural _ scenarioD st "abc123" H)).
  - vm_compute in H. discriminate H.
Defined.

(** C2, on [numericStatusInput] and [objectRewardItemsInput]: an event
    that names a quest and carries a [questStatus] that is a number, or a
    [questRewardItems] that is a plain object, makes [deriveStatistics]
    raise a [TypeError] instead of returning. *)
Theorem wrongly_typed_quest_field_throws (numberToString : Q -> string)
    (proto : Dict.ObjectPrototype) :
  deriveStatistics numberToString proto numericStatusInput
  = Throw (TypeError "toLowerCase is not a function") /\
  deriveStatistics numberToString proto objectRewardItemsInput
  = Throw (TypeError "rewardItems is not iterable").
Proof. destruct proto as [[|] [|] [|]]; split; vm_compute; reflexivity. Qed.
End AnalyticsFacts.

(* ===================================================================== *)
(** ** Properties of the selectors                                        *)
(* ===================================================================== *)

Module SelectorsFacts.
Import Selectors SelectorsSpec ResFacts.

(** C10. With no connection and no timeout the success rate is 100, and
    otherwise it is [totalConnections / (totalConnections + totalTimeouts)
    * 100]; the empty aggregate reports 100. *)
Theorem connection_success_rate (c : ConnectivityInsight) :
  (totalConnections c = 0%nat /\ totalTimeouts c = 0%nat ->
   getConnectionSuccessRate c = 100%Q) /\
  (~ (totalConnections c = 0%nat /\ totalTimeouts c = 0%nat) ->
   getConnectionSuccessRate c
   = (ofNat (totalConnections c)
      / ofNat (totalConnections c + totalTimeouts c) * 100)%Q) /\
  getConnectionSuccessRate (mkConnectivity 0 0) = 100%Q.
Proof.
  unfold getConnectionSuccessRate. split; [|split; [|reflexivity]].
  - intros [-> ->]. reflexivity.
  - intros H.
    destruct (Nat.eqb_spec (totalConnections c + totalTimeouts c) 0) as [E|E];
      [|reflexivity].
    exfalso. apply H. lia.
Qed.

Lemma connection_success_rate_witness :
  getConnectionSuccessRate (mkConnectivity 0 0) = 100%Q /\
  (getConnectionSuccessRate (mkConnectivity 3 1) == 75)%Q.
Proof.
  split.
  - apply (proj1 (connection_success_rate (mkConnectivity 0 0))). split; reflexivity.
  - rewrite (proj1 (proj2 (connection_success_rate (mkConnectivity 3 1)))).
    + reflexivity.
    + simpl. intros [H _]. discriminate H.
Defined.

Section DownsampleFacts.
Variable T : Type.
Variables px py : T -> Q.

Local Abbreviation len data := (Z.of_nat (length data)).

Lemma item_in_range (data : list T) (j : Z) :
  (0 <= j < len data)%Z -> is_Some (item T data j).
Proof.
  intros [H0 Hn]. unfold item.
  destruct (Z.ltb_spec j 0) as [?|_]; [lia|].
  apply lookup_lt_is_Some. lia.
Qed.

Lemma range_bounds (lo hi j : Z) : j ∈ range lo hi -> (lo <= j < hi)%Z.
Proof. unfold range. rewrite elem_of_seqZ. lia. Qed.

Lemma length_range (lo hi : Z) : length (range lo hi) = Z.to_nat (hi - lo).
Proof. apply length_seqZ. Qed.

Lemma sumRange_Ok (data : list T) (js : list Z) (acc : Q * Q) :
  Forall (fun j => 0 <= j < len data)%Z js ->
  exists r, sumRange T px py data js acc = Ok r.
Proof.
  revert acc. induction js as [|j js IH]; intros acc H; simpl; [eauto|].
  apply Forall_cons in H as [Hj H].
  destruct (item_in_range data j Hj) as [t ->]. simpl. apply IH, H.
Qed.

(** The inner loop ends with a point of the array as soon as it starts
    with one. *)
Lemma selectMax_Ok (data : list T) (prevPoint : T) (avgX avgY : option Q)
    (js : list Z) (maxArea : Q) (current : T) :
  Forall (fun j => 0 <= j < len data)%Z js ->
  exists p, selectMax T px py data (Some prevPoint) avgX avgY js maxArea (Some current)
            = Ok (Some p).
Proof.
  revert maxArea current. induction js as [|j js IH]; intros maxArea current H; simpl.
  - eauto.
  - apply Forall_cons in H as [Hj H].
    destruct (item_in_range data j Hj) as [t Ht]. rewrite Ht. simpl.
    destruct (exceeds _ _); apply IH, H.
Qed.

(** One turn of the bucket loop completes with a point when the bucket
    lies inside the array. *)
Lemma bucketPoint_Ok (data : list T) (bucketSize : Q) (prevPoint : T) (i : Z) :
  (0 <= Qfloor (inject_Z i * bucketSize))%Z ->
  (Qfloor (inject_Z i * bucketSize) <= Qfloor (inject_Z (i + 1) * bucketSize))%Z ->
  (Qfloor (inject_Z (i + 1) * bucketSize) + 1 <= len data - 1)%Z ->
  exists p, bucketPoint T px py data bucketSize (Some prevPoint) i = Ok (Some p).
Proof.
  intros H0 Hmono Hhi. unfold bucketPoint.
  set (avgRangeStart := (Qfloor (inject_Z (i + 1) * bucketSize) + 1)%Z).
  set (avgRangeEnd := (Qfloor (inject_Z (i + 2) * bucketSize) + 1)%Z).
  destruct (sumRange_Ok data (range avgRangeStart (Z.min avgRangeEnd (len data))) (0%Q, 0%Q))
    as [[sumX sumY] ->].
  { apply Forall_forall. intros j Hj. apply range_bounds in Hj.
    unfold avgRangeStart in *. lia. }
  rewrite bind_ret. cbv beta iota zeta.
  destruct (item_in_range data (Qfloor (inject_Z i * bucketSize) + 1)) as [t ->]; [lia|].
  apply selectMax_Ok.
  apply Forall_forall. intros j Hj. apply range_bounds in Hj. lia.
Qed.

(** The bucket loop pushes one point per turn. *)
Lemma buckets_Ok (data : list T) (bucketSize : Q) (turns : list Z)
    (result : list (option T)) (first : option T) (prev : T) :
  Forall (fun i =>
            0 <= Qfloor (inject_Z i * bucketSize) /\
            Qfloor (inject_Z i * bucketSize) <= Qfloor (inject_Z (i + 1) * bucketSize) /\
            Qfloor (inject_Z (i + 1) * bucketSize) + 1 <= len data - 1)%Z turns ->
  head result = Some first ->
  last result = Some (Some prev) ->
  exists result',
    buckets T px py data bucketSize turns result = Ok result' /\
    length result' = (length result + length turns)%nat /\
    head result' = Some first.
Proof.
  revert result prev. induction turns as [|i turns IH]; intros result prev H Hhead Hlast; simpl.
  - exists result. rewrite Nat.add_0_r. auto.
  - apply Forall_cons in H as [(H0 & Hm & Hh) H]. rewrite Hlast. simpl.
    destruct (bucketPoint_Ok data bucketSize prev i H0 Hm Hh) as [p ->]. simpl.
    destruct (IH (result ++ [Some p])%list p H) as (result' & -> & Hlen & Hhd).
    + destruct result; [discriminate Hhead | exact Hhead].
    + apply last_snoc.
    + exists result'. rewrite Hlen, length_app. simpl. split; [reflexivity|]. split; [lia|exact Hhd].
Qed.

(** The buckets of [maxPoints - 2] turns lie between the first and the
    last point of an array longer than [maxPoints]. *)
Lemma bucket_bounds (n m i : Z) :
  (2 < m)%Z -> (m < n)%Z -> (0 <= i < m - 2)%Z ->
  let bucketSize := (inject_Z (n - 2) / inject_Z (m - 2))%Q in
  (0 <= Qfloor (inject_Z i * bucketSize) /\
   Qfloor (inject_Z i * bucketSize) <= Qfloor (inject_Z (i + 1) * bucketSize) /\
   Qfloor (inject_Z (i + 1) * bucketSize) + 1 <= n - 1)%Z.
Proof.
  intros Hm Hn Hi bucketSize.
  assert (Hpos : (0 < inject_Z (m - 2))%Q).
  { change 0%Q with (inject_Z 0). rewrite <- Zlt_Qlt. lia. }
  assert (Hbs : (0 <= bucketSize)%Q).
  { apply Qle_shift_div_l; [exact Hpos|]. rewrite Qmult_0_l.
    change 0%Q with (inject_Z 0). rewrite <- Zle_Qle. lia. }
  assert (Hfull : (inject_Z (m - 2) * bucketSize == inject_Z (n - 2))%Q).
  { unfold bucketSize. field. intros E. rewrite E in Hpos. discriminate Hpos. }
  split; [|split].
  - rewrite <- (Qfloor_Z 0). apply Qfloor_resp_le.
    apply Qmult_le_0_compat; [|exact Hbs].
    change 0%Q with (inject_Z 0). rewrite <- Zle_Qle. lia.
  - apply Qfloor_resp_le. apply Qmult_le_compat_r; [|exact Hbs].
    rewrite <- Zle_Qle. lia.
  - assert (Qfloor (inject_Z (i + 1) * bucketSize) <= n - 2)%Z; [|lia].
    rewrite <- (Qfloor_Z (n - 2)). apply Qfloor_resp_le.
    rewrite <- Hfull. apply Qmult_le_compat_r; [|exact Hbs].
    rewrite <- Zle_Qle. lia.
Qed.

Lemma item_first (data : list T) : item T data 0 = head data.
Proof. unfold item. simpl. destruct data; reflexivity. Qed.

Lemma item_last (data : list T) : item T data (len data - 1) = last data.
Proof.
  unfold item. destruct data as [|d data]; [reflexivity|].
  destruct (Z.ltb_spec (len (d :: data) - 1) 0) as [H|_]; [simpl in H; lia|].
  rewrite last_lookup. f_equal. simpl. lia.
Qed.

(** C6, as amended. For an integer [maxPoints] of at least 2,
    [downsampleData] returns; the array returned has exactly
    [min(data.length, maxPoints)] elements, begins with the first point of
    [data] and ends with its last point; and it is [data] itself when
    [data.length <= maxPoints]. *)
Theorem downsample_invariants (data : list T) (maxPoints : Z) :
  (2 <= maxPoints)%Z ->
  exists result,
    downsampleData T px py data maxPoints = Ok result /\
    len result = Z.min (len data) maxPoints /\
    head result = Some <$> head data /\
    last result = Some <$> last data /\
    ((len data <= maxPoints)%Z -> result = map Some data).
Proof.
  intros Hm. unfold downsampleData.
  destruct (Z.leb_spec (len data) maxPoints) as [Hle|Hgt].
  - exists (map Some data). split; [reflexivity|]. rewrite length_map.
    split; [lia|]. split; [|split; [|reflexivity]].
    + destruct data; reflexivity.
    + rewrite fmap_last. reflexivity.
  - destruct data as [|d0 data']; [simpl in Hgt; lia|].
    set (data := d0 :: data') in *.
    destruct (buckets_Ok data (inject_Z (len data - 2) / inject_Z (maxPoints - 2))%Q
                (range 0 (maxPoints - 2)) [item T data 0] (Some d0) d0)
      as (result' & -> & Hlen & Hhead); [| reflexivity | reflexivity |].
    { apply Forall_forall. intros i Hi. apply range_bounds in Hi.
      apply bucket_bounds; lia. }
    rewrite bind_ret. eexists. split; [reflexivity|].
    rewrite length_app, Hlen, length_range. simpl length.
    change (length data) with (S (length data')) in Hgt.
    split; [lia|]. split; [|split; [|intros; lia]].
    + destruct result'; [discriminate Hhead | exact Hhead].
    + rewrite last_snoc, item_last.
      destruct (proj2 (last_is_Some data)) as [x ->]; [discriminate | reflexivity].
Qed.

End DownsampleFacts.

(** C6, as stated, fails below two points: three points and
    [maxPoints = 1] give the first and the last point, two elements where
    [min(3, 1)] is one. *)
Lemma downsample_count_counterexample :
  downsampleData (Q * Q) fst snd threePoints 1
  = Ok [Some (point 0 0); Some (point 2 1)] /\
  Z.of_nat (length [Some (point 0 0); Some (point 2 1)])
  <> Z.min (Z.of_nat (length threePoints)) 1.
Proof. split; [vm_compute; reflexivity | discriminate]. Qed.

Lemma downsample_invariants_witness :
  exists result,
    downsampleData (Q * Q) fst snd tenPoints 4 = Ok result /\
    Z.of_nat (length result) = 4%Z /\
    head result = Some (Some (point 0 0)) /\
    last result = Some (Some (point 9 4)).
Proof.
  destruct (downsample_invariants (Q * Q) fst snd tenPoints 4) as (r & Hr & Hl & Hh & Ht & _).
  - lia.
  - exists r. repeat split; assumption.
Defined.

End SelectorsFacts.
(* ===================================================================== *)
(** ** Properties of the parse worker pool                                *)
(* ===================================================================== *)

Module PoolFacts.
Import Pool PoolSpec.
Local Open Scope nat_scope.

Section WithParser.
Variable Parsed : Type.
Variable parseText : string -> string -> Parsed + Thrown.

Local Abbreviation World := (World Parsed).
Local Abbreviation step := (step parseText).
Local Abbreviation run := (run parseText).
Local Abbreviation reachable := (reachable parseText).
Local Abbreviation outcome := (outcome parseText).
Local Abbreviation BatchInv := (BatchInv Parsed parseText).
Local Abbreviation queued := (queued Parsed).
Local Abbreviation dispatched := (dispatched Parsed).
Local Abbreviation answered := (answered Parsed parseText).

(** [processNextTask] settles nothing. *)
Lemma processNextTask_promises (w : World) :
  promises (processNextTask w) = promises w.
Proof.
  unfold Pool.processNextTask. destruct (isTerminated (pool w)); [reflexivity|].
  destruct (pendingTasks (pool w)); [reflexivity|].
  destruct (last (availableWorkers (pool w))); reflexivity.
Qed.

Lemma processNextTask_terminated (w : World) :
  isTerminated (pool w) = true -> processNextTask w = w.
Proof. unfold Pool.processNextTask. intros ->. reflexivity. Qed.

(** C9. A submission to a terminated pool leaves the queue, the
    correlation map and the worker lists as they were (and posts nothing),
    so [getStatus()] reports the same before and after. *)
Theorem parse_terminated_leaves_pool (w : World) (t : ParseTask) :
  isTerminated (pool w) = true ->
  let w' := fst (parse t w) in
  pendingTasks (pool w') = pendingTasks (pool w) /\
  taskMap (pool w') = taskMap (pool w) /\
  workers (pool w') = workers (pool w) /\
  availableWorkers (pool w') = availableWorkers (pool w) /\
  posted w' = posted w /\
  getStatus (pool w') = getStatus (pool w).
Proof.
  intros H. unfold Pool.parse. rewrite H. simpl. repeat split.
Qed.

(** *** The handlers, in their parts *)

Lemma parse_live (t : ParseTask) (w : World) :
  isTerminated (pool w) = false ->
  parse t w = (processNextTask (enqueue Parsed t w), length (promises w)).
Proof. intros H. unfold Pool.parse, enqueue. rewrite H. reflexivity. Qed.

Lemma onMessage_settle (worker : Worker) (r : WorkerResponse Parsed) (w : World) :
  onMessage worker r w = processNextTask (giveBack Parsed worker (settle Parsed r w)).
Proof.
  unfold Pool.onMessage, settle, giveBack.
  destruct (taskMap (pool w) !! respId r); reflexivity.
Qed.

Lemma onError_giveBack (worker : Worker) (w : World) :
  onError worker w = processNextTask (giveBack Parsed worker w).
Proof. reflexivity. Qed.

(** [processNextTask] either does nothing, or hands the head of the queue
    to the worker popped. *)
Lemma processNextTask_cases (w : World) :
  (processNextTask w = w /\
   (isTerminated (pool w) = true \/ pendingTasks (pool w) = [] \/
    availableWorkers (pool w) = [])) \/
  (exists pend queue worker,
      isTerminated (pool w) = false /\
      pendingTasks (pool w) = pend :: queue /\
      last (availableWorkers (pool w)) = Some worker /\
      processNextTask w
      = mkWorld
          (mkPool (poolSize (pool w)) (workers (pool w))
             (removelast (availableWorkers (pool w))) queue
             (<[idOf pend := pend]> (taskMap (pool w))) false)
          (promises w)
          (posted w ++ [(worker, messageOf (task pend))])).
Proof.
  unfold Pool.processNextTask.
  destruct (isTerminated (pool w)) eqn:Ht; [left; auto|].
  destruct (pendingTasks (pool w)) as [|pend queue] eqn:Hq; [left; auto|].
  destruct (last (availableWorkers (pool w))) as [worker|] eqn:Hl.
  - right. exists pend, queue, worker. auto.
  - left. split; [reflexivity|]. right. right. apply last_None, Hl.
Qed.

Lemma lookup_fresh_promise (ps : list (Promise Parsed)) (p : Promise Parsed) :
  (ps ++ [p])%list !! length ps = Some p.
Proof. rewrite lookup_app_r by lia. rewrite Nat.sub_diag. reflexivity. Qed.

Lemma resolvePromise_length (ps : list (Promise Parsed)) (p : PromiseId) v :
  length (resolvePromise ps p v) = length ps.
Proof.
  unfold resolvePromise. destruct (ps !! p) as [[| |]|]; try reflexivity.
  apply length_insert.
Qed.

Lemma resolvePromise_lookup (ps : list (Promise Parsed)) (p : PromiseId) v :
  ps !! p = Some Pending ->
  resolvePromise ps p v !! p = Some (Resolved v).
Proof.
  intros H. unfold resolvePromise. rewrite H.
  apply list_lookup_insert_eq. eapply lookup_lt_Some, H.
Qed.

Lemma resolvePromise_other (ps : list (Promise Parsed)) (p q : PromiseId) v :
  p <> q -> resolvePromise ps p v !! q = ps !! q.
Proof.
  intros H. unfold resolvePromise. destruct (ps !! p) as [[| |]|]; try reflexivity.
  apply list_lookup_insert_ne, H.
Qed.

(** A promise settles once. *)
Lemma resolvePromise_settled (ps : list (Promise Parsed)) (p q : PromiseId) v r :
  ps !! q = Some (Resolved r) -> resolvePromise ps p v !! q = Some (Resolved r).
Proof.
  intros H. destruct (decide (p = q)) as [->|Hne].
  - unfold resolvePromise. rewrite H. exact H.
  - rewrite resolvePromise_other by exact Hne. exact H.
Qed.

(** The worker's reply to a task's message, read by the pool, is the
    task's outcome. *)
Lemma reply_outcome (t : ParseTask) :
  let r := workerOnMessage parseText (messageOf t) in
  respId r = taskId t /\
  match respType r with
  | TypeResult => mkParseResult (taskId t) true (respResult r) None
  | TypeError_ => mkParseResult (taskId t) false None (respError r)
  end = outcome t.
Proof.
  unfold workerOnMessage, Pool.outcome, messageOf. simpl.
  destruct (parseText (fileName t) (content t)) as [r|[msg|]]; simpl; auto.
Qed.

Lemma reply_id (m : WorkerMessage) : respId (workerOnMessage parseText m) = msgId m.
Proof.
  unfold workerOnMessage.
  destruct (parseText (msgFileName m) (msgContent m)) as [r|[msg|]]; reflexivity.
Qed.

(** *** A batch is kept by every handler *)

Lemma distinct_ids (ts : list ParseTask) i j t t' :
  NoDup (map taskId ts) -> ts !! i = Some t -> ts !! j = Some t' ->
  taskId t = taskId t' -> i = j.
Proof.
  intros Hnd Hi Hj Heq.
  eapply (NoDup_lookup _ i j (taskId t) Hnd); rewrite list_lookup_fmap.
  - rewrite Hi. reflexivity.
  - rewrite Hj, Heq. reflexivity.
Qed.

Lemma task_of_id (ts : list ParseTask) i t t' :
  NoDup (map taskId ts) -> ts !! i = Some t -> t' ∈ ts ->
  taskId t = taskId t' -> t' = t.
Proof.
  intros Hnd Hi Hin Heq. apply list_elem_of_lookup in Hin as [j Hj].
  pose proof (distinct_ids ts i j t t' Hnd Hi Hj Heq) as ->. congruence.
Qed.

Lemma id_in_batch (ts : list ParseTask) i t :
  ts !! i = Some t -> taskId t ∈ map taskId ts.
Proof.
  intros Hi. apply list_elem_of_fmap. exists t. split; [reflexivity|].
  eapply list_elem_of_lookup_2, Hi.
Qed.

Lemma idOf_in_queue (pend : PendingTask) (queue : list PendingTask) :
  pend ∈ queue -> idOf pend ∈ map idOf queue.
Proof. intros H. apply list_elem_of_fmap. exists pend. auto. Qed.

Lemma BatchInv_giveBack others base ts worker (w : World) :
  BatchInv others base ts w -> BatchInv others base ts (giveBack Parsed worker w).
Proof. intros [L I F P Ph Q O Po M]. constructor; assumption. Qed.

Lemma BatchInv_without others base ts (w : World) remaining :
  (forall x, x ∈ remaining -> x ∈ posted w) ->
  BatchInv others base ts w -> BatchInv others base ts (without Parsed w remaining).
Proof.
  intros Hsub [L I F P Ph Q O Po M]. constructor; try assumption.
  - intros i t Hi. destruct (Ph i t Hi) as [(Hp & Hq & Hn)|[H|H]]; [left|right; left|right; right];
      try exact H.
    split; [exact Hp|]. split; [exact Hq|]. intros Hin. apply Hn.
    unfold postedIds in *. simpl in Hin. apply list_elem_of_fmap in Hin as (x & -> & Hx).
    apply list_elem_of_fmap. exists x. split; [reflexivity | apply Hsub, Hx].
  - intros x Hx. apply Po, Hsub, Hx.
Qed.

Lemma BatchInv_process others base ts (w : World) :
  BatchInv others base ts w -> BatchInv others base ts (processNextTask w).
Proof.
  intros Hinv.
  destruct (processNextTask_cases w) as [[-> _]|(pend & queue & worker & Hl & Hq & Hw & ->)];
    [exact Hinv|].
  destruct Hinv as [L I F P Ph Q O Po M]. rewrite Hq in *.
  assert (Hhead : forall j p, queue !! j = Some p -> idOf p = idOf pend ->
                              idOf pend ∈ map taskId ts -> False).
  { intros j p Hj Hid Hin.
    assert (0 = S j) as E; [|discriminate E].
    apply (O 0 (S j) pend p); [reflexivity | exact Hj | symmetry; exact Hid | exact Hin]. }
  constructor; simpl; try assumption; try reflexivity.
  - intros i t Hi. destruct (Ph i t Hi) as [(Hp & Hin & Hn)|[(Hp & Hm & Hn)|H]].
    + rewrite Hq in Hin. apply elem_of_cons in Hin as [Hin|Hin].
      * right. left. split; [exact Hp|]. simpl. subst pend. split.
        { unfold idOf. simpl. apply lookup_insert_eq. }
        unfold queuedIds. simpl. intros Hin.
        apply list_elem_of_fmap in Hin as (p & Hid & Hin).
        apply list_elem_of_lookup in Hin as [j Hj].
        apply (Hhead j p Hj); [symmetry; exact Hid|].
        unfold idOf. simpl. eapply id_in_batch, Hi.
      * left. split; [exact Hp|]. split; [exact Hin|].
        unfold postedIds in *. simpl. rewrite map_app. simpl.
        intros Hx. apply elem_of_app in Hx as [Hx|Hx]; [exact (Hn Hx)|].
        apply list_elem_of_singleton in Hx.
        apply list_elem_of_lookup in Hin as [j Hj].
        apply (Hhead j _ Hj); [exact Hx|].
        change (idOf pend) with (taskId (task pend)). rewrite <- Hx.
        eapply id_in_batch, Hi.
    + right. left. split; [exact Hp|]. simpl.
      assert (idOf pend <> taskId t) as Hne.
      { intros E. apply Hn. unfold queuedIds. rewrite Hq. simpl. rewrite E. left. }
      split.
      * rewrite lookup_insert_ne by exact Hne. exact Hm.
      * intros Hin. apply Hn. unfold queuedIds in *. rewrite Hq. simpl in *. right. exact Hin.
    + right. right. exact H.
  - intros p Hp. apply Q. right. exact Hp.
  - intros j1 j2 p1 p2 H1 H2 Hid Hin.
    assert (S j1 = S j2) as E; [|injection E; auto].
    apply (O (S j1) (S j2) p1 p2); assumption.
  - intros x Hx. apply elem_of_app in Hx as [Hx|Hx]; [apply Po, Hx|].
    apply list_elem_of_singleton in Hx. subst x. simpl.
    destruct (Q pend) as [(i & Hi & _)|[Hid _]]; [left| |right; exact Hid].
    left. exists (task pend). split; [eapply list_elem_of_lookup_2, Hi | reflexivity].
  - intros id p Hm. destruct (decide (idOf pend = id)) as [<-|Hne].
    + rewrite lookup_insert_eq in Hm. injection Hm as <-.
      destruct (Q pend) as [(i & Hi & Hr)|[_ Hr]]; [left| |left; exact Hr].
      right. exists i, (task pend). split; [exact Hi|]. split; [reflexivity|].
      destruct pend as [t r]. simpl in *. subst r. reflexivity.
    + rewrite lookup_insert_ne in Hm by exact Hne. apply (M id p Hm).
Qed.

(** A posted message of a fresh id does not exist. *)
Lemma fresh_not_posted others base ts (w : World) (t : ParseTask) :
  BatchInv others base ts w ->
  taskId t ∉ map taskId ts -> taskId t ∉ others -> taskId t ∉ postedIds Parsed w.
Proof.
  intros [L I F P Ph Q O Po M] Hts Ho Hin.
  apply list_elem_of_fmap in Hin as (x & Hid & Hx).
  destruct (Po x Hx) as [(t' & Ht' & Hm)|Hin].
  - apply Hts. rewrite Hid, Hm. simpl. apply list_elem_of_fmap. exists t'. auto.
  - apply Ho. rewrite Hid. exact Hin.
Qed.

Lemma fresh_not_queued others base ts (w : World) (t : ParseTask) :
  BatchInv others base ts w ->
  taskId t ∉ map taskId ts -> taskId t ∉ others -> taskId t ∉ queuedIds Parsed w.
Proof.
  intros [L I F P Ph Q O Po M] Hts Ho Hin.
  apply list_elem_of_fmap in Hin as (p & Hid & Hp).
  destruct (Q p Hp) as [(i & Hi & _)|[Hin _]].
  - apply Hts. rewrite Hid. apply (id_in_batch ts i _ Hi).
  - apply Ho. rewrite Hid. exact Hin.
Qed.

Lemma BatchInv_enqueue others base ts (w : World) (t : ParseTask) :
  BatchInv others base ts w ->
  taskId t ∉ map taskId ts -> taskId t ∉ others ->
  BatchInv others base (ts ++ [t]) (enqueue Parsed t w).
Proof.
  intros Hinv Hts Ho.
  pose proof (fresh_not_posted _ _ _ _ t Hinv Hts Ho) as Hnp.
  pose proof (fresh_not_queued _ _ _ _ t Hinv Hts Ho) as Hnq.
  destruct Hinv as [L I F P Ph Q O Po M].
  constructor; simpl.
  - exact L.
  - rewrite map_app. simpl. apply NoDup_app. split; [exact I|]. split.
    + intros x Hx Hx'. apply list_elem_of_singleton in Hx'. subst x. contradiction.
    + apply NoDup_singleton.
  - intros t' Hin. apply elem_of_app in Hin as [Hin|Hin]; [apply F, Hin|].
    apply list_elem_of_singleton in Hin. subst t'. exact Ho.
  - rewrite !length_app, P. simpl. lia.
  - intros i t' Hi. destruct (decide (i < length ts)) as [Hlt|Hge].
    + rewrite lookup_app_l in Hi by exact Hlt.
      assert (taskId t' <> taskId t) as Hne.
      { intros E. apply Hts. rewrite <- E. apply (id_in_batch ts i _ Hi). }
      destruct (Ph i t' Hi) as [(Hp & Hq & Hn)|[(Hp & Hm & Hn)|H]].
      * left. split; [|split].
        -- simpl. rewrite lookup_app_l by lia. exact Hp.
        -- simpl. apply elem_of_app. left. exact Hq.
        -- exact Hn.
      * right. left. split; [|split].
        -- simpl. rewrite lookup_app_l by lia. exact Hp.
        -- exact Hm.
        -- unfold queuedIds in *. simpl. rewrite map_app. simpl.
           intros Hin. apply elem_of_app in Hin as [Hin|Hin]; [exact (Hn Hin)|].
           apply list_elem_of_singleton in Hin. exact (Hne Hin).
      * right. right. unfold PoolSpec.answered in *. simpl.
        rewrite lookup_app_l by lia. exact H.
    + apply lookup_lt_Some in Hi as Hi'. rewrite length_app in Hi'. simpl in Hi'.
      assert (i = length ts) as -> by lia.
      rewrite lookup_app_r, Nat.sub_diag in Hi by lia. injection Hi as <-.
      left. split; [|split].
      * simpl. rewrite <- P. apply lookup_fresh_promise.
      * simpl. rewrite <- P. apply elem_of_app. right. left.
      * exact Hnp.
  - intros p Hp. apply elem_of_app in Hp as [Hp|Hp].
    + destruct (Q p Hp) as [(i & Hi & Hr)|H]; [left|right; exact H].
      exists i. split; [|exact Hr]. apply lookup_app_l_Some, Hi.
    + apply list_elem_of_singleton in Hp. subst p. left. exists (length ts). simpl.
      split; [|exact P]. rewrite lookup_app_r, Nat.sub_diag by lia. reflexivity.
  - intros j1 j2 p1 p2 H1 H2 Hid Hin.
    assert (Hold : forall j p, pendingTasks (pool w) !! j = Some p -> idOf p <> taskId t).
    { intros j p Hj E. apply Hnq. rewrite <- E.
      apply idOf_in_queue. eapply list_elem_of_lookup_2, Hj. }
    apply lookup_app_Some in H1 as [H1|[Hl1 H1]];
      apply lookup_app_Some in H2 as [H2|[Hl2 H2]].
    + apply (O j1 j2 p1 p2 H1 H2 Hid).
      rewrite map_app in Hin. apply elem_of_app in Hin as [Hin|Hin]; [exact Hin|].
      apply list_elem_of_singleton in Hin. destruct (Hold j1 p1 H1 Hin).
    + apply list_lookup_singleton_Some in H2 as [_ <-].
      destruct (Hold j1 p1 H1). exact Hid.
    + apply list_lookup_singleton_Some in H1 as [_ <-].
      destruct (Hold j2 p2 H2). symmetry. exact Hid.
    + apply list_lookup_singleton_Some in H1 as [E1 _].
      apply list_lookup_singleton_Some in H2 as [E2 _]. lia.
  - intros x Hx. destruct (Po x Hx) as [(t' & Ht' & Hm)|H]; [left|right; exact H].
    exists t'. split; [|exact Hm]. apply elem_of_app. left. exact Ht'.
  - intros id p Hm. destruct (M id p Hm) as [H|(i & t' & Hi & Hid & Hp)]; [left; exact H|].
    right. exists i, t'. split; [|split; assumption]. apply lookup_app_l_Some, Hi.
Qed.

Lemma resolvePromise_pending (ps : list (Promise Parsed)) (p q : PromiseId) v :
  resolvePromise ps p v !! q = Some Pending -> ps !! q = Some Pending.
Proof.
  intros H. destruct (decide (p = q)) as [->|Hne].
  - unfold resolvePromise in H. destruct (ps !! q) as [[| |]|] eqn:E; try (rewrite E in H; exact H).
    rewrite list_lookup_insert_eq in H by (eapply lookup_lt_Some, E). discriminate H.
  - rewrite resolvePromise_other in H by exact Hne. exact H.
Qed.

Lemma settle_without (r : WorkerResponse Parsed) (w : World) remaining :
  settle Parsed r (without Parsed w remaining)
  = without Parsed (settle Parsed r w) remaining.
Proof.
  unfold settle, without. simpl. destruct (taskMap (pool w) !! respId r); reflexivity.
Qed.

Lemma settle_posted (r : WorkerResponse Parsed) (w : World) :
  posted (settle Parsed r w) = posted w.
Proof. unfold settle. destruct (taskMap (pool w) !! respId r); reflexivity. Qed.

(** The answer to a posted message settles the promise of the task the
    message is of, and no other promise of the batch. *)
Lemma BatchInv_settle others base ts (w : World) x :
  BatchInv others base ts w -> x ∈ posted w ->
  BatchInv others base ts (settle Parsed (workerOnMessage parseText (snd x)) w).
Proof.
  intros Hinv Hx. unfold settle.
  destruct (taskMap (pool w) !! respId (workerOnMessage parseText (snd x)))
    as [pend|] eqn:Hm; [|exact Hinv].
  rewrite reply_id in Hm.
  set (v := match respType _ with TypeResult => _ | TypeError_ => _ end).
  destruct Hinv as [L I F P Ph Q O Po M].
  assert (Hposted : msgId (snd x) ∈ postedIds Parsed w).
  { apply list_elem_of_fmap. exists x. auto. }
  assert (Hother : forall j t, ts !! j = Some t -> taskId t <> msgId (snd x) ->
                               resolve pend <> base + j).
  { intros j t Hj Hne E. destruct (M _ _ Hm) as [Hlt|(i & t' & Hi & Hid & Hp)]; [lia|].
    subst pend. simpl in E. assert (i = j) as -> by lia.
    rewrite Hj in Hi. injection Hi as <-. auto. }
  constructor; simpl; try assumption.
  - rewrite resolvePromise_length. exact P.
  - intros j t Hj. destruct (Ph j t Hj) as [(Hp & Hq & Hn)|[(Hp & Hmap & Hn)|H]].
    + left. split; [|split; [exact Hq | exact Hn]]. simpl.
      rewrite resolvePromise_other; [exact Hp|].
      apply (Hother j t Hj). intros E. apply Hn. rewrite E. exact Hposted.
    + destruct (decide (taskId t = msgId (snd x))) as [Heq|Hne].
      * right. right. unfold PoolSpec.answered. simpl.
        rewrite <- Heq, Hmap in Hm. injection Hm as <-. simpl.
        assert (snd x = messageOf t) as Hmsg.
        { destruct (Po x Hx) as [(t' & Ht' & Hmsg)|Hin].
          - rewrite Hmsg. f_equal. apply (task_of_id ts j t t' I Hj Ht').
            rewrite Heq, Hmsg. reflexivity.
          - destruct (F t); [eapply list_elem_of_lookup_2, Hj | rewrite Heq; exact Hin]. }
        assert (v = outcome t) as ->.
        { unfold v. rewrite Hmsg.
          destruct (reply_outcome t) as [Hid Hv]. cbv zeta in Hid, Hv.
          rewrite Hid. exact Hv. }
        apply resolvePromise_lookup, Hp.
      * right. left. split; [|split; [|exact Hn]]; simpl.
        -- rewrite resolvePromise_other; [exact Hp | apply (Hother j t Hj Hne)].
        -- rewrite lookup_delete_ne by (rewrite reply_id; auto). exact Hmap.
    + right. right. unfold PoolSpec.answered in *. simpl.
      apply resolvePromise_settled, H.
  - intros id p Hd. apply lookup_delete_Some in Hd as [_ Hd]. apply (M id p Hd).
Qed.

Lemma posted_remaining (w : World) (before after : list (Worker * WorkerMessage)) x :
  posted w = (before ++ x :: after)%list ->
  x ∈ posted w /\ forall y, y ∈ (before ++ after)%list -> y ∈ posted w.
Proof.
  intros ->. split.
  - apply elem_of_app. right. left.
  - intros y Hy. apply elem_of_app in Hy as [Hy|Hy]; apply elem_of_app;
      [left | right; right]; exact Hy.
Qed.

Lemma BatchInv_step others base ts turn (w w' : World) :
  BatchInv others base ts w -> step turn w w' -> BatchInv others base ts w'.
Proof.
  intros Hinv Hstep. destruct Hstep as [w before after worker m Hp Hw
                                       |w before after worker m Hp Hw
                                       |w worker Hw].
  - destruct (posted_remaining w before after _ Hp) as [Hx Hrem].
    rewrite onMessage_settle. apply BatchInv_process, BatchInv_giveBack.
    change (mkWorld (pool w) (promises w) (before ++ after)%list)
      with (without Parsed w (before ++ after)%list).
    rewrite settle_without. apply BatchInv_without.
    + rewrite settle_posted. exact Hrem.
    + apply (BatchInv_settle others base ts w (worker, m) Hinv Hx).
  - destruct (posted_remaining w before after _ Hp) as [Hx Hrem].
    rewrite onError_giveBack. apply BatchInv_process, BatchInv_giveBack.
    apply (BatchInv_without others base ts w _ Hrem Hinv).
  - rewrite onError_giveBack. apply BatchInv_process, BatchInv_giveBack, Hinv.
Qed.

Lemma BatchInv_run others base ts turns (w w' : World) :
  BatchInv others base ts w -> run turns w w' -> BatchInv others base ts w'.
Proof.
  intros Hinv Hrun. induction Hrun as [w|turn turns w1 w2 w3 Hs _ IH]; [exact Hinv|].
  apply IH. eapply BatchInv_step; eauto.
Qed.

Lemma BatchInv_parse others base ts (w : World) (t : ParseTask) :
  BatchInv others base ts w ->
  taskId t ∉ map taskId ts -> taskId t ∉ others ->
  BatchInv others base (ts ++ [t]) (fst (parse t w)) /\
  snd (parse t w) = base + length ts.
Proof.
  intros Hinv Hts Ho. rewrite parse_live by apply Hinv. simpl. split.
  - apply BatchInv_process, BatchInv_enqueue; assumption.
  - apply Hinv.
Qed.

(** *** What holds of every reachable state *)

Lemma PoolInv_process (w : World) :
  isTerminated (pool w) = false ->
  length (pendingTasks (pool w)) <= 1 \/ length (availableWorkers (pool w)) <= 1 ->
  (posted w <> [] \/ availableWorkers (pool w) <> []) ->
  (forall pend, pend ∈ pendingTasks (pool w) -> resolve pend < length (promises w)) ->
  (forall id pend, taskMap (pool w) !! id = Some pend -> resolve pend < length (promises w)) ->
  PoolInv Parsed (processNextTask w).
Proof.
  intros L Hnear Hworker Q M.
  destruct (processNextTask_cases w) as [[-> Hwhy]|(pend & queue & worker & _ & Hq & Hw & ->)].
  - constructor; try assumption.
    destruct Hwhy as [Ht|[Hq|Ha]]; [congruence | congruence | auto].
  - constructor; simpl.
    + reflexivity.
    + intros Hne. rewrite Hq in Hnear. simpl in Hnear.
      destruct Hnear as [Hn|Hn].
      * destruct queue; [congruence | simpl in Hn; lia].
      * destruct (availableWorkers (pool w)) as [|a [|b l]]; try reflexivity.
        simpl in Hn. lia.
    + left. intros E. apply app_eq_nil in E as [_ E]. discriminate E.
    + intros p Hp. apply Q. rewrite Hq. right. exact Hp.
    + intros id p Hm. destruct (decide (idOf pend = id)) as [<-|Hne].
      * rewrite lookup_insert_eq in Hm. injection Hm as <-. apply Q. rewrite Hq. left.
      * rewrite lookup_insert_ne in Hm by exact Hne. apply (M id p Hm).
Qed.

Lemma PoolInv_new (size : nat) : 0 < size -> PoolInv Parsed (newWorld Parsed size).
Proof.
  intros Hsize. constructor; simpl; try reflexivity.
  - intros H. destruct H. reflexivity.
  - right. destruct size; [lia | discriminate].
  - intros pend H. inversion H.
  - intros id pend H. rewrite lookup_empty in H. discriminate H.
Qed.

Lemma PoolInv_parse (w : World) (t : ParseTask) :
  PoolInv Parsed w -> PoolInv Parsed (fst (parse t w)).
Proof.
  intros [L G W Q M]. rewrite parse_live by exact L. simpl.
  apply PoolInv_process; simpl.
  - exact L.
  - destruct (pendingTasks (pool w)) as [|p q] eqn:Hq; [left; simpl; lia|].
    right. rewrite G by discriminate. simpl. lia.
  - exact W.
  - intros p Hp. rewrite length_app. simpl. apply elem_of_app in Hp as [Hp|Hp].
    + specialize (Q p Hp). lia.
    + apply list_elem_of_singleton in Hp. subst p. simpl. lia.
  - intros id p Hm. rewrite length_app. specialize (M id p Hm). lia.
Qed.

Lemma PoolInv_giveBack_process (w : World) (worker : Worker) :
  isTerminated (pool w) = false ->
  (pendingTasks (pool w) <> [] -> availableWorkers (pool w) = []) ->
  (forall pend, pend ∈ pendingTasks (pool w) -> resolve pend < length (promises w)) ->
  (forall id pend, taskMap (pool w) !! id = Some pend -> resolve pend < length (promises w)) ->
  PoolInv Parsed (processNextTask (giveBack Parsed worker w)).
Proof.
  intros L G Q M. apply PoolInv_process; simpl; try assumption.
  - destruct (pendingTasks (pool w)) as [|p q] eqn:Hq; [left; simpl; lia|].
    right. rewrite G by discriminate. simpl. lia.
  - right. intros E. apply app_eq_nil in E as [_ E]. discriminate E.
Qed.

Lemma PoolInv_step turn (w w' : World) :
  PoolInv Parsed w -> step turn w w' -> PoolInv Parsed w'.
Proof.
  intros [L G W Q M] Hstep.
  destruct Hstep as [w before after worker m Hp Hw
                    |w before after worker m Hp Hw
                    |w worker Hw].
  - rewrite onMessage_settle. unfold settle. simpl.
    destruct (taskMap (pool w) !! respId (workerOnMessage parseText m)) as [pend|] eqn:Hm.
    + apply PoolInv_giveBack_process; simpl; try assumption.
      * intros p Hp'. rewrite resolvePromise_length. apply Q, Hp'.
      * intros id p Hd. rewrite resolvePromise_length.
        apply lookup_delete_Some in Hd as [_ Hd]. apply (M id p Hd).
    + apply PoolInv_giveBack_process; simpl; assumption.
  - rewrite onError_giveBack. apply PoolInv_giveBack_process; simpl; assumption.
  - rewrite onError_giveBack. apply PoolInv_giveBack_process; simpl; assumption.
Qed.

Lemma reachable_PoolInv (size : nat) (w : World) :
  0 < size -> reachable size w -> PoolInv Parsed w.
Proof.
  intros Hsize Hr. induction Hr as [|w t _ IH|turn w w' _ IH Hstep].
  - apply PoolInv_new, Hsize.
  - apply PoolInv_parse, IH.
  - eapply PoolInv_step; eauto.
Qed.

(** Before the batch is submitted, every task in progress is an earlier
    one. *)
Lemma BatchInv_start (w : World) :
  PoolInv Parsed w ->
  BatchInv (idsInProgress Parsed w) (length (promises w)) [] w.
Proof.
  intros [L G W Q M]. constructor; simpl.
  - exact L.
  - apply NoDup_nil_2.
  - intros t H. inversion H.
  - lia.
  - intros i t H. discriminate H.
  - intros p Hp. right. split; [|apply Q, Hp].
    apply elem_of_app. left. apply idOf_in_queue, Hp.
  - intros j1 j2 p1 p2 _ _ _ H. inversion H.
  - intros x Hx. right. apply elem_of_app. right.
    apply list_elem_of_fmap. exists x. auto.
  - intros id p Hm. left. apply (M id p Hm).
Qed.

(** *** The submissions of [parseAll] *)

Lemma submitAll_snoc (done rest : list ParseTask) (t : ParseTask) :
  ((done ++ [t]) ++ rest = done ++ t :: rest)%list.
Proof. rewrite <- app_assoc. reflexivity. Qed.

Lemma BatchInv_submitAll others base (rest done : list ParseTask) (w : World) :
  BatchInv others base done w ->
  NoDup (map taskId (done ++ rest)) ->
  (forall t, t ∈ rest -> taskId t ∉ others) ->
  BatchInv others base (done ++ rest) (fst (submitAll rest w)) /\
  snd (submitAll rest w) = seq (base + length done) (length rest).
Proof.
  revert done w. induction rest as [|t rest IH]; intros done w Hinv Hnd Hfresh; simpl.
  - rewrite app_nil_r. auto.
  - destruct (BatchInv_parse others base done w t Hinv) as [Hinv1 Hpid].
    + rewrite map_app in Hnd. simpl in Hnd. apply NoDup_app in Hnd as (_ & Hd & _).
      intros Hin. apply (Hd _ Hin). left.
    + apply Hfresh. left.
    + destruct (parse t w) as [w1 pid] eqn:Hparse. simpl in Hinv1, Hpid.
      destruct (IH (done ++ [t])%list w1 Hinv1) as [Hinv2 Hpids].
      * rewrite submitAll_snoc. exact Hnd.
      * intros t' Ht'. apply Hfresh. right. exact Ht'.
      * destruct (submitAll rest w1) as [w2 pids]. simpl in *.
        rewrite submitAll_snoc in Hinv2. split; [exact Hinv2|].
        rewrite Hpid, Hpids, length_app. simpl.
        replace (base + (length done + 1)) with (S (base + length done)) by lia.
        reflexivity.
Qed.

Lemma PoolInv_submitAll (tasks : list ParseTask) (w : World) :
  PoolInv Parsed w -> PoolInv Parsed (fst (submitAll tasks w)).
Proof.
  revert w. induction tasks as [|t tasks IH]; intros w Hinv; simpl; [exact Hinv|].
  pose proof (PoolInv_parse w t Hinv) as H1.
  destruct (parse t w) as [w1 pid]. simpl in H1.
  specialize (IH w1 H1). destruct (submitAll tasks w1) as [w2 pids]. exact IH.
Qed.

Lemma PoolInv_run turns (w w' : World) :
  PoolInv Parsed w -> run turns w w' -> PoolInv Parsed w'.
Proof.
  intros Hinv Hrun. induction Hrun as [w|turn turns w1 w2 w3 Hs _ IH]; [exact Hinv|].
  apply IH. eapply PoolInv_step; eauto.
Qed.

(** *** How many replies are still to come *)

Lemma outstanding_process (w : World) :
  outstanding Parsed (processNextTask w) = outstanding Parsed w.
Proof.
  destruct (processNextTask_cases w) as [[-> _]|(pend & queue & worker & _ & Hq & _ & ->)];
    [reflexivity|].
  unfold outstanding. simpl. rewrite Hq, length_app. simpl. lia.
Qed.

Lemma outstanding_parse (w : World) (t : ParseTask) :
  isTerminated (pool w) = false ->
  outstanding Parsed (fst (parse t w)) = S (outstanding Parsed w).
Proof.
  intros L. rewrite parse_live by exact L. simpl. rewrite outstanding_process.
  unfold outstanding. simpl. rewrite length_app. simpl. lia.
Qed.

Lemma outstanding_submitAll (tasks : list ParseTask) (w : World) :
  PoolInv Parsed w ->
  outstanding Parsed (fst (submitAll tasks w)) = outstanding Parsed w + length tasks.
Proof.
  revert w. induction tasks as [|t tasks IH]; intros w Hinv; simpl; [lia|].
  pose proof (PoolInv_parse w t Hinv) as H1.
  pose proof (outstanding_parse w t (pool_live _ _ Hinv)) as H2.
  destruct (parse t w) as [w1 pid]. simpl in H1, H2.
  specialize (IH w1 H1). destruct (submitAll tasks w1) as [w2 pids]. simpl in *. lia.
Qed.

(** Each reply is one reply fewer to come. *)
Lemma outstanding_reply (w w' : World) :
  step Reply w w' -> S (outstanding Parsed w') = outstanding Parsed w.
Proof.
  intros Hstep. inversion Hstep as [w0 before after worker m Hp Hw| |]; subst.
  rewrite onMessage_settle, outstanding_process. unfold outstanding, giveBack. simpl.
  unfold settle. simpl.
  destruct (taskMap (pool w) !! respId (workerOnMessage parseText m)); simpl;
    rewrite Hp, !length_app; simpl; lia.
Qed.

(** While replies are to come, there is a next one. *)
Lemma progress (w : World) :
  PoolInv Parsed w -> 0 < outstanding Parsed w -> exists w', step Reply w w'.
Proof.
  intros [L G W Q M] Hpos. unfold outstanding in Hpos.
  destruct (posted w) as [|[worker m] after] eqn:Hp.
  - exfalso. destruct W as [W|W]; [congruence|]. apply W, G.
    destruct (pendingTasks (pool w)); [simpl in Hpos; lia | discriminate].
  - eexists. apply (step_reply Parsed parseText w [] after worker m); [exact Hp|].
    simpl. apply not_elem_of_nil.
Qed.

(** *** Tasks with a worker, while every message is answered *)

Lemma inFlight_process base ts (w : World) :
  inFlight Parsed base ts w -> inFlight Parsed base ts (processNextTask w).
Proof.
  intros Hin.
  destruct (processNextTask_cases w) as [[-> _]|(pend & queue & worker & _ & Hq & _ & ->)];
    [exact Hin|].
  intros i t Hi (Hp & Hm & Hn). simpl in *. unfold postedIds. simpl.
  rewrite map_app. apply elem_of_app. simpl.
  destruct (decide (idOf pend = taskId t)) as [E|Hne].
  - right. rewrite <- E. left.
  - left. rewrite lookup_insert_ne in Hm by exact Hne.
    apply (Hin i t Hi). split; [exact Hp|]. split; [exact Hm|].
    unfold queuedIds in *. simpl in Hn. rewrite Hq. simpl.
    intros H. apply elem_of_cons in H as [H|H]; [apply Hne; symmetry; exact H | exact (Hn H)].
Qed.

Lemma inFlight_parse others base ts (w : World) (t : ParseTask) :
  BatchInv others base ts w ->
  taskId t ∉ map taskId ts ->
  inFlight Parsed base ts w ->
  inFlight Parsed base (ts ++ [t]) (fst (parse t w)).
Proof.
  intros Hinv Hts Hin. rewrite parse_live by apply Hinv. simpl.
  apply inFlight_process. intros i t' Hi (Hp & Hm & Hn). simpl in *.
  destruct (decide (i < length ts)) as [Hlt|Hge].
  - rewrite lookup_app_l in Hi by exact Hlt. apply (Hin i t' Hi).
    split; [|split; [exact Hm|]].
    + rewrite lookup_app_l in Hp; [exact Hp|]. rewrite (batch_promises _ _ _ _ _ _ Hinv). lia.
    + intros H. apply Hn. unfold queuedIds in *. simpl. rewrite map_app.
      apply elem_of_app. left. exact H.
  - apply lookup_lt_Some in Hi as Hi'. rewrite length_app in Hi'. simpl in Hi'.
    assert (i = length ts) as -> by lia.
    rewrite lookup_app_r, Nat.sub_diag in Hi by lia. injection Hi as <-.
    exfalso. destruct (batch_map _ _ _ _ _ _ Hinv _ _ Hm) as [Hlt|(j & t' & Hj & Hid & _)].
    + simpl in Hlt. lia.
    + apply Hts. rewrite Hid. apply (id_in_batch ts j t' Hj).
Qed.

Lemma inFlight_submitAll others base (rest done : list ParseTask) (w : World) :
  BatchInv others base done w ->
  NoDup (map taskId (done ++ rest)) ->
  (forall t, t ∈ rest -> taskId t ∉ others) ->
  inFlight Parsed base done w ->
  inFlight Parsed base (done ++ rest) (fst (submitAll rest w)).
Proof.
  revert done w. induction rest as [|t rest IH]; intros done w Hinv Hnd Hfresh Hin; simpl.
  - rewrite app_nil_r. exact Hin.
  - assert (taskId t ∉ map taskId done) as Hts.
    { rewrite map_app in Hnd. simpl in Hnd. apply NoDup_app in Hnd as (_ & Hd & _).
      intros H. apply (Hd _ H). left. }
    destruct (BatchInv_parse others base done w t Hinv Hts) as [Hinv1 _];
      [apply Hfresh; left|].
    pose proof (inFlight_parse others base done w t Hinv Hts Hin) as Hin1.
    destruct (parse t w) as [w1 pid]. simpl in Hinv1, Hin1.
    specialize (IH (done ++ [t])%list w1 Hinv1).
    rewrite submitAll_snoc in IH.
    destruct (submitAll rest w1) as [w2 pids]. simpl in *.
    apply IH; [exact Hnd | | exact Hin1].
    intros t' Ht'. apply Hfresh. right. exact Ht'.
Qed.

Lemma inFlight_reply base ts (w w' : World) :
  inFlight Parsed base ts w -> step Reply w w' -> inFlight Parsed base ts w'.
Proof.
  intros Hin Hstep. inversion Hstep as [w0 before after worker m Hpost Hw| |]; subst.
  rewrite onMessage_settle. apply inFlight_process.
  intros i t Hi (Hp & Hm & Hn).
  assert (dispatched base w i t /\ taskId t <> msgId m) as [Hd Hne].
  { unfold settle in Hp, Hm, Hn. simpl in *. rewrite reply_id in *.
    destruct (taskMap (pool w) !! msgId m) as [pend|] eqn:E; simpl in *.
    - apply lookup_delete_Some in Hm as [Hne Hm]. split; [|auto].
      split; [eapply resolvePromise_pending, Hp|]. split; [exact Hm | exact Hn].
    - split; [split; [exact Hp | split; [exact Hm | exact Hn]]|]. congruence. }
  specialize (Hin i t Hi Hd). unfold postedIds in *. rewrite Hpost in Hin.
  unfold giveBack, settle. simpl.
  assert (taskId t ∈ map (fun x : Worker * WorkerMessage => msgId (snd x)) (before ++ after)).
  { rewrite map_app in *. simpl in Hin.
    apply elem_of_app in Hin as [H|H]; apply elem_of_app; [left; exact H|].
    apply elem_of_cons in H as [H|H]; [contradiction | right; exact H]. }
  destruct (taskMap (pool w) !! respId (workerOnMessage parseText m)); exact H.
Qed.

Lemma inFlight_replies base ts n (w w' : World) :
  inFlight Parsed base ts w -> run (replicate n Reply) w w' -> inFlight Parsed base ts w'.
Proof.
  revert w. induction n as [|n IH]; intros w Hin Hrun; simpl in Hrun.
  - inversion Hrun; subst. exact Hin.
  - inversion Hrun as [|turn turns w1 w2 w3 Hs Hr]; subst.
    apply (IH w2); [|exact Hr]. eapply inFlight_reply; eauto.
Qed.

Lemma outstanding_replies n (w w' : World) :
  run (replicate n Reply) w w' -> outstanding Parsed w' + n = outstanding Parsed w.
Proof.
  revert w. induction n as [|n IH]; intros w Hrun; simpl in Hrun.
  - inversion Hrun; subst. lia.
  - inversion Hrun as [|turn turns w1 w2 w3 Hs Hr]; subst.
    specialize (IH w2 Hr). pose proof (outstanding_reply w w2 Hs). lia.
Qed.

(** *** What [Promise.all] yields *)

Lemma settled_answered base (ts : list ParseTask) (w : World) :
  (forall i t, ts !! i = Some t -> answered base w i t) ->
  settled w (seq base (length ts)) = Some (map outcome ts).
Proof.
  intros Hall. unfold settled. apply mapM_Some.
  apply Forall2_same_length_lookup_2.
  { rewrite length_seq, length_map. reflexivity. }
  intros i pid r Hpid Hr. apply lookup_seq in Hpid as [-> Hlt].
  rewrite list_lookup_fmap in Hr.
  destruct (ts !! i) as [t|] eqn:Ht; [|discriminate Hr]. injection Hr as <-.
  rewrite (Hall i t Ht). reflexivity.
Qed.

Lemma settled_done others base (ts : list ParseTask) (w : World) :
  BatchInv others base ts w -> inFlight Parsed base ts w ->
  outstanding Parsed w = 0 ->
  settled w (seq base (length ts)) = Some (map outcome ts).
Proof.
  intros Hinv Hin Hzero. apply settled_answered. intros i t Hi.
  unfold outstanding in Hzero.
  assert (posted w = []) as Hp by (destruct (posted w); [reflexivity | simpl in Hzero; lia]).
  assert (pendingTasks (pool w) = []) as Hq
      by (destruct (pendingTasks (pool w)); [reflexivity | simpl in Hzero; lia]).
  destruct (batch_phase _ _ _ _ _ _ Hinv i t Hi) as [(_ & H & _)|[H|H]]; [| |exact H].
  - rewrite Hq in H. inversion H.
  - specialize (Hin i t Hi H). unfold postedIds in Hin. rewrite Hp in Hin. inversion Hin.
Qed.

(** Whatever [Promise.all] yields is the outcomes, in the order of the
    tasks. *)
Lemma settled_outcomes others base (ts : list ParseTask) (w : World) rs :
  BatchInv others base ts w ->
  settled w (seq base (length ts)) = Some rs ->
  rs = map outcome ts /\ unsettled Parsed base w = 0.
Proof.
  intros Hinv Hs. unfold settled in Hs. apply mapM_Some in Hs.
  assert (Hall : forall i t, ts !! i = Some t -> answered base w i t).
  { intros i t Hi.
    assert (seq base (length ts) !! i = Some (base + i)) as Hseq.
    { apply lookup_seq. split; [reflexivity | eapply lookup_lt_Some, Hi]. }
    destruct (Forall2_lookup_l _ _ _ _ _ Hs Hseq) as (r & _ & Hr).
    destruct (batch_phase _ _ _ _ _ _ Hinv i t Hi) as [(Hp & _)|[(Hp & _)|H]];
      [rewrite Hp in Hr; discriminate Hr | rewrite Hp in Hr; discriminate Hr | exact H]. }
  split.
  - pose proof (settled_answered base ts w Hall) as Hs'. unfold settled in Hs'.
    apply mapM_Some in Hs'.
    apply list_eq_same_length with (length ts).
    + rewrite length_map. reflexivity.
    + rewrite <- (Forall2_length _ _ _ Hs), length_seq. reflexivity.
    + intros i x y Hlt Hx Hy.
      assert (seq base (length ts) !! i = Some (base + i)) as Hseq
          by (apply lookup_seq; split; [reflexivity | exact Hlt]).
      destruct (Forall2_lookup_l _ _ _ _ _ Hs Hseq) as (r & Hr & Hr').
      destruct (Forall2_lookup_l _ _ _ _ _ Hs' Hseq) as (r' & Hr2 & Hr2').
      rewrite Hr in Hx. rewrite Hr2 in Hy. destruct (promises w !! (base + i)) as [[| |]|];
        congruence.
  - unfold unsettled.
    assert (forall j, drop base (promises w) !! j <> Some Pending) as Hnone.
    { intros j Hj. rewrite lookup_drop in Hj.
      assert (j < length ts) as Hlt.
      { apply lookup_lt_Some in Hj. rewrite (batch_promises _ _ _ _ _ _ Hinv) in Hj. lia. }
      destruct (lookup_lt_is_Some_2 ts j Hlt) as [t Ht].
      rewrite (Hall j t Ht) in Hj. discriminate Hj. }
    revert Hnone. generalize (drop base (promises w)). intros ps.
    induction ps as [|p ps IH]; intros Hnone; [reflexivity|]. simpl.
    rewrite IH by (intros j; apply (Hnone (S j))).
    destruct p; try reflexivity. destruct (Hnone 0). reflexivity.
Qed.

(** *** A promise is settled by a reply, and by nothing else *)

Lemma countPending_resolve (ps : list (Promise Parsed)) i v :
  ps !! i = Some Pending ->
  S (countPending Parsed (<[i := Resolved v]> ps)) = countPending Parsed ps.
Proof.
  revert i. induction ps as [|p ps IH]; intros [|i] H; try discriminate H; simpl in *.
  - injection H as ->. reflexivity.
  - rewrite <- (IH i H). lia.
Qed.

Lemma countPending_app (ps qs : list (Promise Parsed)) :
  countPending Parsed (ps ++ qs) = countPending Parsed ps + countPending Parsed qs.
Proof. induction ps as [|p ps IH]; simpl; [reflexivity|]. rewrite IH. lia. Qed.

Lemma unsettled_resolve base (ps : list (Promise Parsed)) p v :
  countPending Parsed (drop base ps)
  <= S (countPending Parsed (drop base (resolvePromise ps p v))).
Proof.
  unfold resolvePromise. destruct (ps !! p) as [[| |]|] eqn:Hp; try lia.
  destruct (decide (p < base)) as [Hlt|Hge].
  - rewrite drop_insert_lt by exact Hlt. lia.
  - rewrite drop_insert_ge by lia.
    rewrite (countPending_resolve (drop base ps) (p - base) v); [lia|].
    rewrite lookup_drop. replace (base + (p - base)) with p by lia. exact Hp.
Qed.

Lemma unsettled_step base turn (w w' : World) :
  step turn w w' ->
  unsettled Parsed base w <= unsettled Parsed base w' + repliesIn [turn].
Proof.
  intros Hstep. unfold unsettled.
  destruct Hstep as [w before after worker m Hp Hw
                    |w before after worker m Hp Hw
                    |w worker Hw].
  - rewrite onMessage_settle, processNextTask_promises. simpl. unfold settle. simpl.
    destruct (taskMap (pool w) !! respId (workerOnMessage parseText m)) as [pend|]; simpl.
    + pose proof (unsettled_resolve base (promises w) (resolve pend)
                    match respType (workerOnMessage parseText m) with
                    | TypeResult =>
                        mkParseResult (respId (workerOnMessage parseText m)) true
                          (respResult (workerOnMessage parseText m)) None
                    | TypeError_ =>
                        mkParseResult (respId (workerOnMessage parseText m)) false None
                          (respError (workerOnMessage parseText m))
                    end) as H.
      unfold repliesIn. simpl. lia.
    + lia.
  - rewrite onError_giveBack, processNextTask_promises. simpl. lia.
  - rewrite onError_giveBack, processNextTask_promises. simpl. lia.
Qed.

Lemma repliesIn_cons turn turns :
  repliesIn (turn :: turns) = repliesIn [turn] + repliesIn turns.
Proof.
  unfold repliesIn. rewrite !filter_cons, filter_nil.
  destruct (decide (turn = Reply)); reflexivity.
Qed.

Lemma unsettled_run base turns (w w' : World) :
  run turns w w' ->
  unsettled Parsed base w <= unsettled Parsed base w' + repliesIn turns.
Proof.
  intros Hrun. induction Hrun as [w|turn turns w1 w2 w3 Hs _ IH]; [lia|].
  rewrite repliesIn_cons. pose proof (unsettled_step base turn w1 w2 Hs). lia.
Qed.

(** Right after the submissions nothing of the batch is settled. *)
Lemma submitAll_promises (tasks : list ParseTask) (w : World) :
  isTerminated (pool w) = false ->
  isTerminated (pool (fst (submitAll tasks w))) = false /\
  promises (fst (submitAll tasks w))
  = (promises w ++ replicate (length tasks) Pending)%list.
Proof.
  revert w. induction tasks as [|t tasks IH]; intros w L; simpl.
  - rewrite app_nil_r. auto.
  - assert (isTerminated (pool (fst (parse t w))) = false
            /\ promises (fst (parse t w)) = (promises w ++ [Pending])%list) as [L1 P1].
    { rewrite parse_live by exact L. simpl. rewrite processNextTask_promises. simpl.
      split; [|reflexivity].
      destruct (processNextTask_cases (enqueue Parsed t w))
        as [[-> _]|(pend & queue & worker & _ & _ & _ & ->)]; [exact L | reflexivity]. }
    destruct (parse t w) as [w1 pid]. simpl in L1, P1.
    destruct (IH w1 L1) as [L2 P2]. destruct (submitAll tasks w1) as [w2 pids]. simpl in *.
    split; [exact L2|]. rewrite P2, P1, <- app_assoc. reflexivity.
Qed.

Lemma countPending_replicate n : countPending Parsed (replicate n Pending) = n.
Proof. induction n as [|n IH]; simpl; [reflexivity | rewrite IH; reflexivity]. Qed.

Lemma unsettled_submitAll (tasks : list ParseTask) (w : World) :
  isTerminated (pool w) = false ->
  unsettled Parsed (length (promises w)) (fst (submitAll tasks w)) = length tasks.
Proof.
  intros L. unfold unsettled. destruct (submitAll_promises tasks w L) as [_ ->].
  rewrite drop_app_length. apply countPending_replicate.
Qed.

(** *** A promise no turn can settle *)

Lemma abandoned_process p (w : World) :
  abandoned Parsed p w -> abandoned Parsed p (processNextTask w).
Proof.
  intros Ha.
  destruct (processNextTask_cases w) as [[-> _]|(pend & queue & worker & _ & Hq & _ & ->)];
    [exact Ha|].
  destruct Ha as (Hp & Hqueue & Hmap). rewrite Hq in Hqueue.
  split; [exact Hp|]. split; simpl.
  - intros x Hx. apply Hqueue. right. exact Hx.
  - intros id x Hm Hr. destruct (decide (idOf pend = id)) as [<-|Hne].
    + rewrite lookup_insert_eq in Hm. injection Hm as <-.
      destruct (Hqueue pend); [left | exact Hr].
    + rewrite lookup_insert_ne in Hm by exact Hne.
      destruct (Hmap id x Hm Hr) as [Hnp Hnq]. unfold postedIds, queuedIds in *.
      rewrite Hq in Hnq. simpl in *. split.
      * rewrite map_app. simpl. intros H. apply elem_of_app in H as [H|H]; [exact (Hnp H)|].
        apply list_elem_of_singleton in H. apply Hne. symmetry. exact H.
      * intros H. apply Hnq. right. exact H.
Qed.

Lemma abandoned_step p turn (w w' : World) :
  abandoned Parsed p w -> step turn w w' -> abandoned Parsed p w'.
Proof.
  intros (Hp & Hqueue & Hmap) Hstep.
  assert (Hrest : forall before after x,
             posted w = (before ++ x :: after)%list ->
             abandoned Parsed p (without Parsed w (before ++ after)%list)).
  { intros before after x Hpost. split; [exact Hp|]. split; [exact Hqueue|].
    intros id pend Hm Hr. destruct (Hmap id pend Hm Hr) as [Hnp Hnq].
    split; [|exact Hnq]. intros H. apply Hnp. unfold postedIds in *. simpl in H.
    apply list_elem_of_fmap in H as (y & -> & Hy). apply list_elem_of_fmap.
    exists y. split; [reflexivity|].
    apply (proj2 (posted_remaining w before after x Hpost)), Hy. }
  destruct Hstep as [w before after worker m Hpost Hw
                    |w before after worker m Hpost Hw
                    |w worker Hw].
  - rewrite onMessage_settle. apply abandoned_process.
    change (mkWorld (pool w) (promises w) (before ++ after)%list)
      with (without Parsed w (before ++ after)%list).
    destruct (Hrest before after _ Hpost) as (Hp' & Hq' & Hm').
    unfold giveBack, settle. simpl. rewrite reply_id.
    destruct (taskMap (pool w) !! msgId m) as [pend|] eqn:E; simpl.
    + assert (resolve pend <> p) as Hne.
      { intros Hr. destruct (Hmap _ _ E Hr) as [Hnp _]. apply Hnp.
        apply list_elem_of_fmap. exists (worker, m). split; [reflexivity|].
        apply (proj1 (posted_remaining w before after _ Hpost)). }
      split; [|split].
      * simpl. rewrite resolvePromise_other by exact Hne. exact Hp.
      * exact Hq'.
      * simpl. intros id x Hd Hr. apply lookup_delete_Some in Hd as [_ Hd].
        apply (Hm' id x Hd Hr).
    + split; [exact Hp'|]. split; [exact Hq' | exact Hm'].
  - rewrite onError_giveBack. apply abandoned_process.
    destruct (Hrest before after _ Hpost) as (Hp' & Hq' & Hm').
    split; [exact Hp'|]. split; [exact Hq' | exact Hm'].
  - rewrite onError_giveBack. apply abandoned_process.
    split; [exact Hp|]. split; [exact Hqueue | exact Hmap].
Qed.

(** An abandoned promise stays pending for good. *)
Lemma abandoned_run p turns (w w' : World) :
  abandoned Parsed p w -> run turns w w' -> promises w' !! p = Some Pending.
Proof.
  intros Ha Hrun. induction Hrun as [w|turn turns w1 w2 w3 Hs _ IH]; [apply Ha|].
  apply IH. eapply abandoned_step; eauto.
Qed.

Lemma settled_pending (w : World) (pids : list PromiseId) p :
  p ∈ pids -> promises w !! p = Some Pending -> settled w pids = None.
Proof.
  intros Hin Hp. destruct (settled w pids) as [rs|] eqn:Hs; [|reflexivity].
  unfold settled in Hs. apply mapM_Some in Hs.
  apply list_elem_of_lookup in Hin as [i Hi].
  destruct (Forall2_lookup_l _ _ _ _ _ Hs Hi) as (r & _ & Hr).
  rewrite Hp in Hr. discriminate Hr.
Qed.

(** *** One task, a fresh pool *)

Lemma last_seq (n : nat) : last (seq 0 (S n)) = Some n.
Proof. rewrite seq_S. apply last_snoc. Qed.

Lemma parse_new (n : nat) (t : ParseTask) :
  parse t (newWorld Parsed (S n))
  = (mkWorld
       (mkPool (S n) (seq 0 (S n)) (removelast (seq 0 (S n))) []
          (<[taskId t := mkPending t 0]> ∅) false)
       [Pending] [(n, messageOf t)],
     0).
Proof.
  unfold Pool.parse, newWorld, newPool, Pool.processNextTask.
  cbn -[seq last removelast]. rewrite last_seq. reflexivity.
Qed.

Lemma posted_single {A} (before after : list A) (x y : A) :
  [y] = (before ++ x :: after)%list -> before = [] /\ x = y /\ after = [].
Proof.
  intros H. destruct before as [|b before]; simpl in H.
  - injection H as -> <-. auto.
  - injection H as _ H. destruct before; discriminate H.
Qed.

(** *** Outcomes *)

Lemma outcome_success (t : ParseTask) :
  success (outcome t) = false <-> failsParsing Parsed parseText t.
Proof.
  unfold Pool.outcome, failsParsing.
  destruct (parseText (fileName t) (content t)) as [r|[msg|]]; simpl; split;
    try discriminate; eauto; intros [x H]; discriminate H.
Qed.

Lemma outcome_error (t : ParseTask) :
  failsParsing Parsed parseText t ->
  result (outcome t) = None /\ exists message, error (outcome t) = Some message.
Proof.
  unfold Pool.outcome, failsParsing. intros [x H]. rewrite H.
  destruct x; simpl; eauto.
Qed.

Lemma outcome_failures (ts : list ParseTask) :
  length (filter (fun r => success r = false) (map outcome ts))
  = length (filter (failsParsing Parsed parseText) ts).
Proof.
  induction ts as [|t ts IH]; [reflexivity|]. simpl map. rewrite !filter_cons.
  destruct (decide (success (outcome t) = false)) as [Hf|Hf];
    destruct (decide (failsParsing Parsed parseText t)) as [Hp|Hp]; simpl;
    rewrite ?IH; try reflexivity; exfalso.
  - apply Hp, outcome_success, Hf.
  - apply Hf, outcome_success, Hp.
Qed.

Lemma success_partition (rs : list (ParseResult Parsed)) :
  length (filter (fun r => success r = false) rs)
  + length (filter (fun r => success r = true) rs) = length rs.
Proof.
  induction rs as [|r rs IH]; [reflexivity|]. rewrite !filter_cons.
  destruct (success r); simpl; lia.
Qed.

(** On a terminated pool every submission of the batch is resolved on the
    spot with the failure result. *)
Lemma submitAll_terminated (tasks : list ParseTask) (w : World) :
  isTerminated (pool w) = true ->
  isTerminated (pool (fst (submitAll tasks w))) = true /\
  promises (fst (submitAll tasks w))
  = (promises w ++ map (fun t => Resolved (terminatedResult Parsed t)) tasks)%list /\
  snd (submitAll tasks w) = seq (length (promises w)) (length tasks).
Proof.
  revert w. induction tasks as [|t tasks IH]; intros w Hterm; simpl.
  - rewrite app_nil_r. auto.
  - unfold parse at 1 2 3. rewrite Hterm.
    set (w1 := mkWorld _ _ _).
    destruct (IH w1 Hterm) as (Ht & Hp & Hs).
    destruct (submitAll tasks w1) as [w2 pids]. simpl in *.
    split; [exact Ht|]. split.
    + rewrite Hp. unfold w1. simpl. rewrite <- app_assoc. reflexivity.
    + rewrite Hs. unfold w1. simpl. rewrite length_app. simpl.
      do 2 f_equal. lia.
Qed.

Lemma settled_terminated (tasks : list ParseTask) (w : World) :
  isTerminated (pool w) = true ->
  settled (fst (submitAll tasks w)) (snd (submitAll tasks w))
  = Some (map (terminatedResult Parsed) tasks).
Proof.
  intros Hterm. destruct (submitAll_terminated tasks w Hterm) as (_ & Hp & Hs).
  unfold settled. rewrite Hp, Hs. apply mapM_Some.
  apply Forall2_same_length_lookup_2.
  { rewrite length_seq, length_map. reflexivity. }
  intros i pid r Hpid Hr. apply lookup_seq in Hpid as [-> Hlt].
  rewrite list_lookup_fmap in Hr.
  destruct (tasks !! i) as [t|] eqn:Ht; [|discriminate Hr]. injection Hr as <-.
  rewrite lookup_app_r by lia.
  replace (length (promises w) + i - length (promises w)) with i by lia.
  rewrite list_lookup_fmap, Ht. reflexivity.
Qed.

(** The batch right after its submissions. *)
Lemma batch_submitted (size : nat) (w0 : World) (tasks : list ParseTask) :
  0 < size -> reachable size w0 ->
  NoDup (map taskId tasks) ->
  (forall t, t ∈ tasks -> taskId t ∉ idsInProgress Parsed w0) ->
  let w1 := fst (submitAll tasks w0) in
  let base := length (promises w0) in
  PoolInv Parsed w1 /\
  BatchInv (idsInProgress Parsed w0) base tasks w1 /\
  inFlight Parsed base tasks w1 /\
  snd (submitAll tasks w0) = seq base (length tasks) /\
  outstanding Parsed w1 = outstanding Parsed w0 + length tasks /\
  unsettled Parsed base w1 = length tasks.
Proof.
  intros Hsize Hreach Hnd Hfresh. cbv zeta.
  pose proof (reachable_PoolInv size w0 Hsize Hreach) as Hpool.
  pose proof (BatchInv_start w0 Hpool) as Hstart.
  destruct (BatchInv_submitAll _ _ tasks [] w0 Hstart Hnd Hfresh) as [Hinv Hpids].
  simpl in Hinv, Hpids. rewrite Nat.add_0_r in Hpids.
  split; [apply PoolInv_submitAll, Hpool|]. split; [exact Hinv|]. split.
  { apply (inFlight_submitAll _ _ tasks [] w0 Hstart Hnd Hfresh).
    intros i t H. discriminate H. }
  split; [exact Hpids|]. split.
  - apply outstanding_submitAll, Hpool.
  - apply unsettled_submitAll, Hpool.
Qed.


(** C8. A submission to a terminated pool is resolved on the spot with
    [success: false] and a message. On a fresh pool with a worker the
    promise of a submission is pending; when the worker answers, the
    promise is resolved with the outcome of the task, which for a task
    that fails parsing has [success: false] and the error's message. When
    the worker raises an error event instead, [worker.onerror] settles
    nothing: the promise stays pending whatever happens next, so this
    failure is never delivered. *)
Theorem worker_error_strands_promise (n : nat) (t : ParseTask) :
  (forall wt : World,
      isTerminated (pool wt) = true ->
      promises (fst (parse t wt)) !! snd (parse t wt)
      = Some (Resolved (mkParseResult (taskId t) false None
                          (Some "Worker pool has been terminated")))) /\
  let w1 := fst (parse t (newWorld Parsed (S n))) in
  let pid := snd (parse t (newWorld Parsed (S n))) in
  promises w1 !! pid = Some Pending /\
  (exists w2, step Reply w1 w2) /\
  (forall w2, step Reply w1 w2 -> promises w2 !! pid = Some (Resolved (outcome t))) /\
  (failsParsing Parsed parseText t ->
   success (outcome t) = false /\ result (outcome t) = None /\
   exists message, error (outcome t) = Some message) /\
  (exists w2, step Crash w1 w2) /\
  (forall w2, step Crash w1 w2 ->
     forall turns w, run turns w2 w ->
       promises w !! pid = Some Pending /\ settled w [pid] = None).
Proof.
  split.
  { intros wt Hterm. unfold Pool.parse. rewrite Hterm. simpl.
    apply lookup_fresh_promise. }
  cbv zeta. rewrite parse_new. cbn [fst snd].
  set (w1 := mkWorld _ _ _).
  assert (Hposted : posted w1 = ([] ++ (n, messageOf t) :: [])%list) by reflexivity.
  split; [reflexivity|]. split; [|split; [|split; [|split]]].
  - eexists. apply (step_reply Parsed parseText w1 [] [] n (messageOf t) Hposted).
    apply not_elem_of_nil.
  - intros w2 Hstep. inversion Hstep as [w' before after worker m Hp Hw| |]; subst.
    apply posted_single in Hp as (-> & E & ->). injection E as -> ->.
    rewrite onMessage_settle, processNextTask_promises. unfold giveBack, settle. simpl.
    destruct (reply_outcome t) as [Hid Hv]. cbv zeta in Hid, Hv.
    rewrite Hid, lookup_insert_eq. simpl. rewrite Hv. reflexivity.
  - intros Hfail. split; [apply outcome_success, Hfail | apply outcome_error, Hfail].
  - eexists. apply (step_crash Parsed parseText w1 [] [] n (messageOf t) Hposted).
    apply not_elem_of_nil.
  - intros w2 Hstep turns w Hrun.
    assert (abandoned Parsed 0 w2) as Ha.
    { inversion Hstep as [|w' before after worker m Hp Hw|]; subst.
      apply posted_single in Hp as (-> & E & ->).
      rewrite onError_giveBack. apply abandoned_process.
      split; [reflexivity|]. split.
      - intros pend H. inversion H.
      - intros id pend _ _. split; intros H; inversion H. }
    pose proof (abandoned_run 0 turns w2 w Ha Hrun) as Hp.
    split; [exact Hp|]. apply (settled_pending w [0] 0); [left | exact Hp].
Qed.

(** In every state of a pool made with at least one worker and used
    through [parse] while the event loop turns, whatever the workers
    answer or fail with: the pool is not terminated, a task waits in the
    queue only while no worker is available, and the callback of every
    task queued or with a worker settles a promise that was handed out. *)
Theorem tasks_wait_only_for_workers (size : nat) (w : World) :
  0 < size -> reachable size w ->
  isTerminated (pool w) = false /\
  (pendingTasks (pool w) <> [] -> availableWorkers (pool w) = []) /\
  (forall pend, pend ∈ pendingTasks (pool w) -> resolve pend < length (promises w)) /\
  (forall id pend, taskMap (pool w) !! id = Some pend ->
                   resolve pend < length (promises w)).
Proof.
  intros Hsize Hreach. destruct (reachable_PoolInv size w Hsize Hreach) as [L G W Q M].
  auto.
Qed.


(** A new pool reports all its workers available, no task pending and
    not terminated; after [terminate()] it reports no worker, no task and
    terminated. *)
Theorem status_of_new_and_terminated (size : nat) (p : PoolState) :
  getStatus (newPool size) = mkStatus size size 0 false /\
  getStatus (terminate p) = mkStatus 0 0 0 true.
Proof.
  split; [|reflexivity]. unfold getStatus, newPool. simpl. rewrite length_seq. reflexivity.
Qed.

End WithParser.



Lemma parse_terminated_leaves_pool_witness :
  getStatus (pool (fst (parse goodTask terminatedWorld)))
  = getStatus (pool terminatedWorld) /\
  getStatus (pool terminatedWorld) = mkStatus 0 0 0 true.
Proof.
  split; [|reflexivity].
  apply (parse_terminated_leaves_pool string terminatedWorld goodTask). reflexivity.
Defined.

(** [badTask] on a fresh pool of one worker that dies on it. *)
Lemma worker_error_strands_promise_witness :
  failsParsing string sampleParseText badTask /\
  exists w2,
    step sampleParseText Crash (fst (parse badTask (newWorld string 1))) w2 /\
    forall turns w,
      run sampleParseText turns w2 w -> promises w !! 0 = Some Pending.
Proof.
  destruct (worker_error_strands_promise string sampleParseText 0 badTask)
    as (_ & _ & _ & _ & _ & [w2 Hcrash] & Hstranded).
  split; [eexists; reflexivity|].
  exists w2. split; [exact Hcrash|].
  intros turns w Hrun. apply (Hstranded w2 Hcrash turns w Hrun).
Defined.

(** A pool of one worker, busy with [thirdTask] while [goodTask] waits. *)
Lemma tasks_wait_only_for_workers_witness :
  pendingTasks (pool (fst (parse goodTask (fst (parse thirdTask (newWorld string 1)))))) <> [] /\
  availableWorkers (pool (fst (parse goodTask (fst (parse thirdTask (newWorld string 1))))))
  = [].
Proof.
  split; [vm_compute; discriminate|].
  destruct (tasks_wait_only_for_workers string sampleParseText 1
              (fst (parse goodTask (fst (parse thirdTask (newWorld string 1))))))
    as (_ & Hgreedy & _).
  - lia.
  - apply reachable_parse, reachable_parse, reachable_new.
  - apply Hgreedy. vm_compute. discriminate.
Defined.


End PoolFacts.
(* ===================================================================== *)
(** ** Further properties of the derivation engine                        *)
(* ===================================================================== *)

Module MoreAnalyticsFacts.
Import Analytics AnalyticsSpec MoreAnalyticsSpec ResFacts AnalyticsFacts.

Section Facts.
Variable numberToString : Q -> string.

Ltac count_with proj H :=
  match goal with
  | |- _ = countIf ?P _ =>
      refine (foldEvents_counts numberToString proj P _ _ _ _ _ _ H)
  end.

(** [ofKind] against the tests the accumulators make on the family. *)
Lemma ofKind_no_type type families e :
  logType e <> type ->
  (if decide (ofKind type families e) then 1 else 0)%nat = 0%nat.
Proof. intros. rewrite decide_False; [reflexivity|]. intros [? _]. contradiction. Qed.

Lemma ofKind_one type a e (c : nat) :
  logType e = type ->
  (if decide (eventFamily e = Some a) then S c else c)
  = (c + if decide (ofKind type [a] e) then 1 else 0)%nat.
Proof.
  intros Ht. destruct (decide (eventFamily e = Some a)) as [Hf|Hf].
  - rewrite decide_True; [lia|]. split; [exact Ht|]. exists a. split; [exact Hf|].
    apply list_elem_of_singleton. reflexivity.
  - rewrite decide_False; [lia|]. intros [_ (f & E & Hin)].
    apply list_elem_of_singleton in Hin. subst f. contradiction.
Qed.

Lemma ofKind_two type a b e (c : nat) :
  logType e = type ->
  (if decide (eventFamily e = Some a \/ eventFamily e = Some b) then S c else c)
  = (c + if decide (ofKind type [a; b] e) then 1 else 0)%nat.
Proof.
  intros Ht. destruct (decide (eventFamily e = Some a \/ eventFamily e = Some b)) as [Hf|Hf].
  - rewrite decide_True; [lia|]. split; [exact Ht|].
    destruct Hf as [Hf|Hf]; eexists; (split; [exact Hf|]);
      rewrite list_elem_of_In; simpl; auto.
  - rewrite decide_False; [lia|]. intros [_ (f & E & Hin)].
    rewrite list_elem_of_In in Hin. simpl in Hin.
    destruct Hin as [<-|[<-|[]]]; tauto.
Qed.

(** Two tests of one chain that name different families cannot both hold. *)
Ltac clash :=
  exfalso;
  repeat match goal with H : _ \/ _ |- _ => destruct H end;
  congruence.

Lemma accumulateConnection_counters e proto nw nw' proto' :
  accumulateConnection numberToString e proto nw = Ok (nw', proto') ->
  let fam := eventFamily e in
  connections nw'
  = (if decide (fam = Some "connect" \/ fam = Some "state_enter")
     then S (connections nw) else connections nw) /\
  disconnects nw'
  = (if decide (fam = Some "disconnect" \/ fam = Some "send_disconnect")
     then S (disconnects nw) else disconnects nw) /\
  timeouts nw'
  = (if decide (fam = Some "timeout") then S (timeouts nw) else timeouts nw) /\
  samples (metrics nw') = samples (metrics nw).
Proof.
  intros H. unfold accumulateConnection in H. cbv zeta.
  repeat case_decide;
    try (apply bind_Ok in H as ([entry' p] & _ & H));
    try destruct (asNumber (field e "rtt"));
    simpl in H; injection H as <- _; simpl;
    repeat split; try reflexivity; clash.
Qed.

Lemma accumulateNetwork_counters e proto nw nw' proto' :
  accumulateNetwork numberToString e proto nw = Ok (nw', proto') ->
  connections nw'
  = (connections nw
     + if decide (ofKind "network-connection" ["connect"; "state_enter"] e) then 1 else 0)%nat /\
  disconnects nw'
  = (disconnects nw
     + if decide (ofKind "network-connection" ["disconnect"; "send_disconnect"] e) then 1 else 0)%nat /\
  timeouts nw'
  = (timeouts nw
     + if decide (ofKind "network-connection" ["timeout"] e) then 1 else 0)%nat /\
  samples (metrics nw')
  = (samples (metrics nw) + if decide (ofType "network-messages" e) then 1 else 0)%nat.
Proof.
  unfold accumulateNetwork, ofType. intros H.
  apply bind_Ok in H as ([nw1 p1] & H1 & H). injection H as <- _.
  destruct (String.eqb_spec (logType e) "network-connection") as [Ht|Ht].
  - assert (logType e <> "network-messages") as Hm by (rewrite Ht; discriminate).
    destruct (String.eqb_spec (logType e) "network-messages") as [?|_]; [contradiction|].
    rewrite (decide_False (P := logType e = "network-messages")) by exact Hm.
    destruct (accumulateConnection_counters e proto nw nw1 p1 H1) as (-> & -> & -> & ->).
    rewrite <- !(ofKind_two _ _ _ e _ Ht), <- (ofKind_one _ _ e _ Ht).
    repeat split. lia.
  - injection H1 as <- _. rewrite !ofKind_no_type by exact Ht.
    destruct (String.eqb_spec (logType e) "network-messages") as [Hm|Hm].
    + rewrite decide_True by exact Hm. simpl. repeat split; lia.
    + rewrite decide_False by exact Hm. repeat split; lia.
Qed.

(** Whenever [deriveStatistics] returns, the network counters count the
    events of the network-connection log by family: [connections] the
    "connect" and "state_enter" events, [disconnects] the "disconnect" and
    "send_disconnect" events, [timeouts] the "timeout" events; and
    [metrics.samples] counts the events of the network-messages log. *)
Theorem network_counters_count (proto : Dict.ObjectPrototype)
    (results : list ParsedLogResult) (st : Statistics) :
  deriveStatistics numberToString proto results = Ok st ->
  connections (network st)
  = countIf (ofKind "network-connection" ["connect"; "state_enter"]) (allEvents results) /\
  disconnects (network st)
  = countIf (ofKind "network-connection" ["disconnect"; "send_disconnect"])
      (allEvents results) /\
  timeouts (network st)
  = countIf (ofKind "network-connection" ["timeout"]) (allEvents results) /\
  samples (metrics (network st))
  = countIf (ofType "network-messages") (allEvents results).
Proof.
  intros H. apply deriveStatistics_Ok in H as [proto' H].
  repeat split.
  - count_with (fun s => connections (network s)) H.
    intros e p s s' p' Hs. apply accumulateEvent_Ok in Hs as (_ & _ & _ & _ & Hn & _).
    apply (accumulateNetwork_counters _ _ _ _ _ Hn).
  - count_with (fun s => disconnects (network s)) H.
    intros e p s s' p' Hs. apply accumulateEvent_Ok in Hs as (_ & _ & _ & _ & Hn & _).
    apply (accumulateNetwork_counters _ _ _ _ _ Hn).
  - count_with (fun s => timeouts (network s)) H.
    intros e p s s' p' Hs. apply accumulateEvent_Ok in Hs as (_ & _ & _ & _ & Hn & _).
    apply (accumulateNetwork_counters _ _ _ _ _ Hn).
  - count_with (fun s => samples (metrics (network s))) H.
    intros e p s s' p' Hs. apply accumulateEvent_Ok in Hs as (_ & _ & _ & _ & Hn & _).
    apply (accumulateNetwork_counters _ _ _ _ _ Hn).
Qed.

Lemma accumulateBackend_counters e proto b :
  let b' := accumulateBackend numberToString e proto b in
  totalRequests b'
  = (totalRequests b + if decide (ofKind "backend" ["request"] e) then 1 else 0)%nat /\
  totalResponses b'
  = (totalResponses b + if decide (ofKind "backend" ["response"] e) then 1 else 0)%nat /\
  totalErrors b'
  = (totalErrors b
     + if decide (ofKind "backend" ["transport_error"; "server_exception"] e)
       then 1 else 0)%nat /\
  retries b'
  = (retries b + if decide (ofKind "backend" ["retry"] e) then 1 else 0)%nat.
Proof.
  cbv zeta. unfold accumulateBackend.
  destruct (String.eqb_spec (logType e) "backend") as [Ht|Ht]; simpl.
  - rewrite <- (ofKind_two _ _ _ e _ Ht), <- !(ofKind_one _ _ e _ Ht).
    split; [|split; [|split]].
    all: repeat case_decide; simpl; try reflexivity; clash.
  - rewrite !ofKind_no_type by exact Ht. repeat split; lia.
Qed.

(** Whenever [deriveStatistics] returns, the backend totals count the
    events of the backend log by family: requests, responses, errors
    ("transport_error" and "server_exception") and retries; an event of
    any other family, or of another log, changes none of them. *)
Theorem backend_counters_count (proto : Dict.ObjectPrototype)
    (results : list ParsedLogResult) (st : Statistics) :
  deriveStatistics numberToString proto results = Ok st ->
  totalRequests (backend st) = countIf (ofKind "backend" ["request"]) (allEvents results) /\
  totalResponses (backend st) = countIf (ofKind "backend" ["response"]) (allEvents results) /\
  totalErrors (backend st)
  = countIf (ofKind "backend" ["transport_error"; "server_exception"]) (allEvents results) /\
  retries (backend st) = countIf (ofKind "backend" ["retry"]) (allEvents results).
Proof.
  intros H. apply deriveStatistics_Ok in H as [proto' H].
  repeat split.
  - count_with (fun s => totalRequests (backend s)) H.
    intros e p s s' p' Hs. apply accumulateEvent_Ok in Hs as (-> & _).
    apply accumulateBackend_counters.
  - count_with (fun s => totalResponses (backend s)) H.
    intros e p s s' p' Hs. apply accumulateEvent_Ok in Hs as (-> & _).
    apply accumulateBackend_counters.
  - count_with (fun s => totalErrors (backend s)) H.
    intros e p s s' p' Hs. apply accumulateEvent_Ok in Hs as (-> & _).
    apply accumulateBackend_counters.
  - count_with (fun s => retries (backend s)) H.
    intros e p s s' p' Hs. apply accumulateEvent_Ok in Hs as (-> & _).
    apply accumulateBackend_counters.
Qed.

Lemma accumulateOthers_counters e proto st st' proto' :
  accumulateEvent numberToString e proto st = Ok (st', proto') ->
  totalRejections (inventory st')
  = (totalRejections (inventory st) + if decide (ofType "inventory" e) then 1 else 0)%nat /\
  pushConnections (push st')
  = (pushConnections (push st)
     + if decide (ofKind "push-notifications" ["connection_params"] e) then 1 else 0)%nat /\
  drops (push st')
  = (drops (push st)
     + if decide (ofKind "push-notifications" ["dropped"] e) then 1 else 0)%nat /\
  notifications (push st')
  = (notifications (push st)
     + if decide (ofKind "push-notifications" ["notification"; "simple_notification"] e)
       then 1 else 0)%nat /\
  initSuccess (audio st')
  = (initSuccess (audio st)
     + if decide (ofKind "spatial-audio" ["init_success"] e) then 1 else 0)%nat /\
  occlusionErrors (audio st')
  = (occlusionErrors (audio st)
     + if decide (ofKind "spatial-audio" ["occlusion_error"] e) then 1 else 0)%nat.
Proof.
  intros H. apply accumulateEvent_Ok in H as (_ & _ & -> & _ & _ & -> & -> & _).
  unfold accumulateInventory, accumulatePush, accumulateAudio, ofType.
  split; [|split; [|split; [|split; [|split]]]].
  - destruct (String.eqb_spec (logType e) "inventory") as [Ht|Ht]; simpl.
    + rewrite decide_True by exact Ht. lia.
    + rewrite decide_False by exact Ht. lia.
  - destruct (String.eqb_spec (logType e) "push-notifications") as [Ht|Ht]; simpl;
      [|rewrite ofKind_no_type by exact Ht; lia].
    rewrite <- (ofKind_one _ _ e _ Ht).
    repeat case_decide; simpl; try reflexivity; clash.
  - destruct (String.eqb_spec (logType e) "push-notifications") as [Ht|Ht]; simpl;
      [|rewrite ofKind_no_type by exact Ht; lia].
    rewrite <- (ofKind_one _ _ e _ Ht).
    repeat case_decide; simpl; try reflexivity; clash.
  - destruct (String.eqb_spec (logType e) "push-notifications") as [Ht|Ht]; simpl;
      [|rewrite ofKind_no_type by exact Ht; lia].
    rewrite <- (ofKind_two _ _ _ e _ Ht).
    repeat case_decide; simpl; try reflexivity; clash.
  - destruct (String.eqb_spec (logType e) "spatial-audio") as [Ht|Ht]; simpl;
      [|rewrite ofKind_no_type by exact Ht; lia].
    rewrite <- (ofKind_one _ _ e _ Ht).
    repeat case_decide; simpl; try reflexivity; clash.
  - destruct (String.eqb_spec (logType e) "spatial-audio") as [Ht|Ht]; simpl;
      [|rewrite ofKind_no_type by exact Ht; lia].
    rewrite <- (ofKind_one _ _ e _ Ht).
    repeat case_decide; simpl; try reflexivity; clash.
Qed.

(** Whenever [deriveStatistics] returns, [inventory.totalRejections]
    counts the events of the inventory log, the push counters count the
    push-notifications events by family, and the audio counters count the
    "init_success" and "occlusion_error" events of the spatial-audio log. *)
Theorem inventory_push_audio_count (proto : Dict.ObjectPrototype)
    (results : list ParsedLogResult) (st : Statistics) :
  deriveStatistics numberToString proto results = Ok st ->
  totalRejections (inventory st) = countIf (ofType "inventory") (allEvents results) /\
  pushConnections (push st)
  = countIf (ofKind "push-notifications" ["connection_params"]) (allEvents results) /\
  drops (push st) = countIf (ofKind "push-notifications" ["dropped"]) (allEvents results) /\
  notifications (push st)
  = countIf (ofKind "push-notifications" ["notification"; "simple_notification"])
      (allEvents results) /\
  initSuccess (audio st)
  = countIf (ofKind "spatial-audio" ["init_success"]) (allEvents results) /\
  occlusionErrors (audio st)
  = countIf (ofKind "spatial-audio" ["occlusion_error"]) (allEvents results).
Proof.
  intros H. apply deriveStatistics_Ok in H as [proto' H].
  repeat split.
  - count_with (fun s => totalRejections (inventory s)) H.
    intros e p s s' p' Hs. apply (accumulateOthers_counters e p s s' p' Hs).
  - count_with (fun s => pushConnections (push s)) H.
    intros e p s s' p' Hs. apply (accumulateOthers_counters e p s s' p' Hs).
  - count_with (fun s => drops (push s)) H.
    intros e p s s' p' Hs. apply (accumulateOthers_counters e p s s' p' Hs).
  - count_with (fun s => notifications (push s)) H.
    intros e p s s' p' Hs. apply (accumulateOthers_counters e p s s' p' Hs).
  - count_with (fun s => initSuccess (audio s)) H.
    intros e p s s' p' Hs. apply (accumulateOthers_counters e p s s' p' Hs).
  - count_with (fun s => occlusionErrors (audio s)) H.
    intros e p s s' p' Hs. apply (accumulateOthers_counters e p s s' p' Hs).
Qed.

Lemma accumulateAnticheat_counters e ac ac' :
  accumulateAnticheat e ac = Ok ac' ->
  (initLines ac <= initLines ac')%nat /\ (anticheatErrors ac <= anticheatErrors ac')%nat.
Proof.
  unfold accumulateAnticheat.
  destruct (negb _); [intros Hk; injection Hk as <-; lia|].
  repeat case_decide; try destruct (message e); try destruct (Str.includes _ _);
    intros Hk; try discriminate Hk; injection Hk as <-; simpl; lia.
Qed.

Lemma accumulateEvent_monotone e proto st st' proto' :
  accumulateEvent numberToString e proto st = Ok (st', proto') ->
  Forall2 le (scalarCounters st) (scalarCounters st').
Proof.
  intros H. unfold scalarCounters.
  destruct (accumulateOthers_counters e proto st st' proto' H) as (I1 & P1 & P2 & P3 & A1 & A2).
  pose proof (accumulateEvent_Ok numberToString e proto st st' proto' H)
    as (Hb & Hc & _ & _ & Hn & _ & _ & He & Hac & _).
  destruct (accumulateBackend_counters e proto (backend st)) as (B1 & B2 & B3 & B4).
  destruct (accumulateNetwork_counters e proto (network st) _ _ Hn) as (N1 & N2 & N3 & N4).
  cbv zeta in *. rewrite <- Hb in B1, B2, B3, B4.
  apply accumulateAnticheat_counters in Hac as [C1 C2].
  assert (hits (cache st) <= hits (cache st') /\ misses (cache st) <= misses (cache st'))%nat
    as [H1 H2].
  { rewrite Hc. unfold accumulateCache.
    destruct (negb _); [lia|]. destruct (isFalse _); simpl; lia. }
  assert (totals (errors st) <= totals (errors st'))%nat as H3.
  { rewrite He. unfold accumulateErrors. destruct (negb _); simpl; lia. }
  repeat (apply Forall2_cons; split; [lia|]). apply Forall2_nil. exact I.
Qed.

Lemma foldEvents_monotone evs proto st st' proto' :
  foldEvents numberToString evs proto st = Ok (st', proto') ->
  Forall2 le (scalarCounters st) (scalarCounters st').
Proof.
  revert proto st. induction evs as [|e evs IH]; intros proto st H; simpl in H.
  - injection H as <- _. reflexivity.
  - apply bind_Ok in H as ([st1 p1] & H1 & H).
    apply accumulateEvent_monotone in H1. apply IH in H.
    etransitivity; [exact H1|exact H].
Qed.

(** Folding more results never lowers a counter: when [deriveStatistics]
    returns on a list of results followed by further results, it also
    returns on the list alone, and every scalar counter of the longer run
    is at least the one of the shorter run. *)
Theorem counters_never_decrease (proto : Dict.ObjectPrototype)
    (results more : list ParsedLogResult) (st2 : Statistics) :
  deriveStatistics numberToString proto (results ++ more) = Ok st2 ->
  exists st1,
    deriveStatistics numberToString proto results = Ok st1 /\
    Forall2 le (scalarCounters st1) (scalarCounters st2).
Proof.
  intros H. apply deriveStatistics_Ok in H as [proto2 H].
  unfold allEvents in H. rewrite map_app, concat_app, foldEvents_app in H.
  apply bind_Ok in H as ([st1 p1] & H1 & H). exists st1. split.
  - apply deriveStatistics_Ok. exists p1. exact H1.
  - apply (foldEvents_monotone _ _ _ _ _ H).
Qed.

Lemma ofKind_single type a e :
  logType e = type -> ofKind type [a] e <-> eventFamily e = Some a.
Proof.
  intros Ht. split.
  - intros [_ (f & E & Hin)]. apply list_elem_of_singleton in Hin. congruence.
  - intros E. split; [exact Ht|]. exists a. split; [exact E|].
    apply list_elem_of_singleton. reflexivity.
Qed.

Lemma accumulateAnticheat_step e ac ac' :
  accumulateAnticheat e ac = Ok ac' ->
  initLines ac' = (initLines ac + if decide (isAnticheatLine e) then 1 else 0)%nat /\
  anticheatErrors ac'
  = (anticheatErrors ac + if decide (isBattlEyeError e) then 1 else 0)%nat /\
  lastStatus ac' = (if decide (isAnticheatLine e) then message e else lastStatus ac).
Proof.
  unfold accumulateAnticheat.
  destruct (String.eqb_spec (logType e) "application") as [Ht|Ht]; simpl.
  2:{ intros Hk. injection Hk as <-.
      rewrite !(decide_False (P := isAnticheatLine e)) by (intros [? _]; contradiction).
      rewrite (decide_False (P := isBattlEyeError e)) by (intros [[? _] _]; contradiction).
      auto with lia. }
  pose proof (ofKind_single _ "anticheat" e Ht) as Ka.
  pose proof (ofKind_single _ "error" e Ht) as Ke.
  destruct (decide (eventFamily e = Some "anticheat")) as [Ea|Ea];
    destruct (decide (eventFamily e = Some "error")) as [Ee|Ee].
  - exfalso. rewrite Ea in Ee. discriminate Ee.
  - intros Hk. injection Hk as <-. simpl.
    rewrite !(decide_True (P := isAnticheatLine e)) by (apply Ka; exact Ea).
    rewrite (decide_False (P := isBattlEyeError e))
      by (intros [Hc _]; apply Ke in Hc; contradiction).
    auto with lia.
  - rewrite !(decide_False (P := isAnticheatLine e))
      by (unfold isAnticheatLine; rewrite Ka; exact Ea).
    destruct (message e) as [msg|] eqn:Em; [|discriminate]. simpl.
    destruct (Str.includes (Str.toLowerCase msg) "battleye") eqn:Hb;
      intros Hk; injection Hk as <-; simpl.
    + rewrite (decide_True (P := isBattlEyeError e)); [auto with lia|].
      split; [apply Ke; exact Ee|]. unfold messageOrEmpty. rewrite Em. exact Hb.
    + rewrite (decide_False (P := isBattlEyeError e)); [auto with lia|].
      intros [_ Hc]. unfold messageOrEmpty in Hc. rewrite Em in Hc. simpl in Hc. congruence.
  - intros Hk. injection Hk as <-.
    rewrite !(decide_False (P := isAnticheatLine e))
      by (unfold isAnticheatLine; rewrite Ka; exact Ea).
    rewrite (decide_False (P := isBattlEyeError e))
      by (intros [Hc _]; apply Ke in Hc; contradiction).
    auto with lia.
Qed.

(** A member the accumulators overwrite on the events of a kind holds what
    the last event of that kind wrote. *)
Lemma foldEvents_last {A} (proj : Statistics -> A) (P : Event -> Prop) (write : Event -> A)
    `{!forall e, Decision (P e)} :
  (forall e proto st st' proto',
      accumulateEvent numberToString e proto st = Ok (st', proto') ->
      proj st' = if decide (P e) then write e else proj st) ->
  forall evs proto st st' proto',
    foldEvents numberToString evs proto st = Ok (st', proto') ->
    proj st' = from_option write (proj st) (last (filter P evs)).
Proof.
  intros Hstep. induction evs as [|e evs IH]; intros proto st st' proto' Hf; simpl in Hf.
  - injection Hf as <- _. reflexivity.
  - apply bind_Ok in Hf as ([st1 p1] & H1 & Hf).
    rewrite (IH _ _ _ _ Hf), (Hstep _ _ _ _ _ H1), filter_cons.
    destruct (decide (P e)) as [Hp|Hp]; [|reflexivity].
    rewrite last_cons. destruct (last (filter P evs)); reflexivity.
Qed.

(** Whenever [deriveStatistics] returns, [anticheat.initLines] counts the
    "anticheat" events of the application log, [anticheat.lastStatus] is
    the message of the last of them in the order the fold visits the
    events (absent when there is none), and [anticheat.errors] counts the
    application "error" events whose message contains "battleye" in any
    letter case. *)
Theorem anticheat_last_write_wins (proto : Dict.ObjectPrototype)
    (results : list ParsedLogResult) (st : Statistics) :
  deriveStatistics numberToString proto results = Ok st ->
  initLines (anticheat st) = countIf isAnticheatLine (allEvents results) /\
  anticheatErrors (anticheat st) = countIf isBattlEyeError (allEvents results) /\
  lastStatus (anticheat st)
  = from_option message None (last (filter isAnticheatLine (allEvents results))).
Proof.
  intros H. apply deriveStatistics_Ok in H as [proto' H].
  repeat split.
  - count_with (fun s => initLines (anticheat s)) H.
    intros e p s s' p' Hs.
    apply accumulateEvent_Ok in Hs as (_ & _ & _ & _ & _ & _ & _ & _ & Hs & _).
    apply (accumulateAnticheat_step _ _ _ Hs).
  - count_with (fun s => anticheatErrors (anticheat s)) H.
    intros e p s s' p' Hs.
    apply accumulateEvent_Ok in Hs as (_ & _ & _ & _ & _ & _ & _ & _ & Hs & _).
    apply (accumulateAnticheat_step _ _ _ Hs).
  - apply (foldEvents_last (fun s => lastStatus (anticheat s)) isAnticheatLine message) in H;
      [exact H|].
    intros e p s s' p' Hs.
    apply accumulateEvent_Ok in Hs as (_ & _ & _ & _ & _ & _ & _ & _ & Hs & _).
    apply (accumulateAnticheat_step _ _ _ Hs).
Qed.

(** *** Quest records *)

Lemma accumulateRewardItems_Ok e current r :
  accumulateRewardItems numberToString e current = Ok r ->
  iterableOrFalsy (field e "questRewardItems").
Proof.
  unfold accumulateRewardItems, iterableOrFalsy.
  destruct (field e "questRewardItems") as [| |[|]|q|s|l|p]; simpl;
    rewrite ?orb_true_r, ?orb_false_r; simpl; try tauto; try discriminate.
  destruct (Qeq_bool q 0); simpl; rewrite ?orb_true_r; simpl; [tauto|discriminate].
Qed.

Lemma statusSource_stringOrAbsent e src :
  statusSource e = Ok src -> stringOrAbsent (field e "questStatus").
Proof.
  unfold statusSource, stringOrAbsent.
  destruct (field e "questStatus"); simpl; intros H; try exact I; discriminate H.
Qed.

(** What [accumulateQuest] writes into the record of a quest. *)
Lemma updateQuest_fields e proto key q qs ts qs' ts' :
  updateQuest numberToString e proto key q qs ts = Ok (qs', ts') ->
  exists q',
    qs' = <[key := q']> qs /\
    questId q' = questId q /\
    relatedEvents q' = (relatedEvents q ++ [e])%list /\
    rewardRubles q' = addWhenNumber (rewardRubles q) (field e "questRewardRubles") /\
    traderId q'
    = match traderId q with
      | Some t => Some t
      | None => if truthy (field e "questTraderId")
                then Some (field e "questTraderId") else None
      end /\
    stringOrAbsent (field e "questStatus") /\
    iterableOrFalsy (field e "questRewardItems").
Proof.
  unfold updateQuest. intros H.
  apply bind_Ok in H as (src & Hsrc & H). apply statusSource_stringOrAbsent in Hsrc.
  apply bind_Ok in H as (items' & Hitems & H). apply accumulateRewardItems_Ok in Hitems.
  destruct (traderId q); [|destruct (truthy (field e "questTraderId"))];
    injection H as <- <-; eexists; repeat split; assumption.
Qed.

Lemma accumulateQuest_cases e proto qs ts qs' ts' :
  accumulateQuest numberToString e proto qs ts = Ok (qs', ts') ->
  match findQuestId e with
  | None => qs' = qs
  | Some qid =>
      let key := toString numberToString qid in
      exists q q',
        (qs !! key = Some q \/
         qs !! key = None /\ q = mkQuest qid Unknown [] None None None) /\
        (is_Some (qs !! key) \/ Dict.inheritedKey key = false) /\
        qs' = <[key := q']> qs /\
        questId q' = questId q /\
        relatedEvents q' = (relatedEvents q ++ [e])%list /\
        rewardRubles q' = addWhenNumber (rewardRubles q) (field e "questRewardRubles") /\
        traderId q'
        = match traderId q with
          | Some t => Some t
          | None => if truthy (field e "questTraderId")
                    then Some (field e "questTraderId") else None
          end /\
        stringOrAbsent (field e "questStatus") /\
        iterableOrFalsy (field e "questRewardItems")
  end.
Proof.
  unfold accumulateQuest. intros H.
  destruct (findQuestId e) as [qid|]; [|injection H as <- <-; reflexivity].
  cbv zeta. unfold Dict.get in H.
  destruct (qs !! toString numberToString qid) as [q|] eqn:E.
  - apply updateQuest_fields in H as (q' & H).
    exists q, q'. split; [left; reflexivity|]. split; [left; eauto|]. exact H.
  - destruct (Dict.inheritedKey _) eqn:Ek; [discriminate H|].
    destruct (Dict.addedKey proto _);
      apply updateQuest_fields in H as (q' & H);
      (eexists _, q'; split; [right; split; reflexivity|]; split; [right; reflexivity|];
       exact H).
Qed.

Lemma sumQ_snoc xs x : (sumQ (xs ++ [x]) == sumQ xs + x)%Q.
Proof.
  induction xs as [|y xs IH].
  - unfold sumQ. simpl. ring.
  - change (y + sumQ (xs ++ [x]) == y + sumQ xs + x)%Q. rewrite IH. ring.
Qed.

Lemma rubleSamples_snoc l e :
  rubleSamples (l ++ [e])
  = (rubleSamples l
     ++ match asNumber (field e "questRewardRubles") with Some x => [x] | None => [] end)%list.
Proof.
  unfold rubleSamples. rewrite omap_app. reflexivity.
Qed.

Lemma traderSamples_snoc l e :
  traderSamples (l ++ [e])
  = (traderSamples l
     ++ if truthy (field e "questTraderId") then [field e "questTraderId"] else [])%list.
Proof.
  unfold traderSamples. rewrite map_app, filter_app. f_equal.
  cbn [map]. rewrite filter_cons, filter_nil.
  destruct (truthy (field e "questTraderId")); case_decide; congruence.
Qed.

Lemma rubles_step l e (r : option Q) :
  match rubleSamples l with
  | [] => r = None
  | x :: xs => exists a, r = Some a /\ (a == sumQ (x :: xs))%Q
  end ->
  match rubleSamples (l ++ [e]) with
  | [] => addWhenNumber r (field e "questRewardRubles") = None
  | x :: xs =>
      exists a, addWhenNumber r (field e "questRewardRubles") = Some a /\
                (a == sumQ (x :: xs))%Q
  end.
Proof.
  rewrite rubleSamples_snoc. unfold addWhenNumber.
  destruct (asNumber (field e "questRewardRubles")) as [y|].
  - destruct (rubleSamples l) as [|x xs].
    + intros ->. simpl. eexists. split; [reflexivity|]. unfold sumQ. simpl. ring.
    + intros (a & -> & Ha). simpl. eexists. split; [reflexivity|].
      change (a + y == sumQ ((x :: xs) ++ [y]))%Q.
      rewrite sumQ_snoc, Ha. reflexivity.
  - rewrite app_nil_r. tauto.
Qed.

Lemma trader_step l e :
  match head (traderSamples l) with
  | Some t => Some t
  | None => if truthy (field e "questTraderId")
            then Some (field e "questTraderId") else None
  end = head (traderSamples (l ++ [e])).
Proof.
  rewrite traderSamples_snoc.
  destruct (traderSamples l) as [|t ts]; simpl; [|reflexivity].
  destruct (truthy (field e "questTraderId")); reflexivity.
Qed.

Lemma eventsOf_snoc key evs e :
  eventsOf numberToString key (evs ++ [e])
  = (eventsOf numberToString key evs
     ++ if decide (questKey numberToString e = Some key) then [e] else [])%list.
Proof.
  unfold eventsOf. rewrite filter_app. reflexivity.
Qed.

(** The table of quests after the events [evs]: a record under every key
    an event names and under no other, holding the events that name it,
    the id as the first of them gave it, the sum of the numeric rewards
    and the first truthy trader id. *)
Lemma quests_invariant evs proto0 st proto :
  foldEvents numberToString evs proto0 emptyStatistics = Ok (st, proto) ->
  forall key,
    match quests st !! key with
    | Some q =>
        relatedEvents q = eventsOf numberToString key evs /\
        relatedEvents q <> [] /\
        head (omap findQuestId (relatedEvents q)) = Some (questId q) /\
        Dict.inheritedKey key = false /\
        match rubleSamples (relatedEvents q) with
        | [] => rewardRubles q = None
        | x :: xs => exists a, rewardRubles q = Some a /\ (a == sumQ (x :: xs))%Q
        end /\
        traderId q = head (traderSamples (relatedEvents q))
    | None => eventsOf numberToString key evs = []
    end.
Proof.
  revert st proto. revert evs.
  apply (foldEvents_ind numberToString (fun evs _ st => forall key, _)).
  { intros key. simpl. rewrite lookup_empty. reflexivity. }
  intros evs e p st st' p' _ IH He key.
  apply accumulateEvent_Ok in He as (_ & _ & _ & _ & _ & _ & _ & _ & _ & He).
  apply accumulateQuest_cases in He. rewrite eventsOf_snoc. unfold questKey.
  destruct (findQuestId e) as [qid|] eqn:Eq; simpl.
  2:{ rewrite He, app_nil_r. apply IH. }
  destruct He as (q & q' & Hcur & Hin & -> & Hid & Hrel & Hrub & Htr & _).
  destruct (decide (toString numberToString qid = key)) as [<-|Hne].
  2:{ rewrite lookup_insert_ne by exact Hne.
      rewrite decide_False by congruence. rewrite app_nil_r. apply IH. }
  rewrite lookup_insert_eq, decide_True by reflexivity.
  specialize (IH (toString numberToString qid)).
  assert (Hq : relatedEvents q = eventsOf numberToString (toString numberToString qid) evs /\
               head (omap findQuestId (relatedEvents q ++ [e])%list) = Some (questId q) /\
               Dict.inheritedKey (toString numberToString qid) = false /\
               match rubleSamples (relatedEvents q) with
               | [] => rewardRubles q = None
               | x :: xs => exists a, rewardRubles q = Some a /\ (a == sumQ (x :: xs))%Q
               end /\
               traderId q = head (traderSamples (relatedEvents q))).
  { destruct Hcur as [Hcur|[Hcur ->]]; rewrite Hcur in IH.
    - destruct IH as (H1 & H2 & H3 & H4 & H5 & H6).
      repeat split; try assumption.
      rewrite omap_app. destruct (omap findQuestId (relatedEvents q)); [discriminate H3|].
      exact H3.
    - simpl. rewrite IH. repeat split.
      + unfold omap. simpl. rewrite Eq. reflexivity.
      + destruct Hin as [[? Hin]|Hin]; [congruence|exact Hin]. }
  destruct Hq as (H1 & H3 & H4 & H5 & H6).
  rewrite Hrel, Hid, Hrub, Htr, H6, <- H1.
  split; [reflexivity|]. split; [destruct (relatedEvents q); discriminate|].
  split; [exact H3|]. split; [exact H4|].
  split; [apply rubles_step, H5 | apply trader_step].
Qed.

(** Whenever [deriveStatistics] returns, there is a quest record under a
    key exactly when some event names that quest; its [relatedEvents] are
    the events that name it, in the order the fold visits them, and its
    [id] is the id as the first of them gave it. *)
Theorem quest_related_events (proto : Dict.ObjectPrototype)
    (results : list ParsedLogResult) (st : Statistics) (key : string) :
  deriveStatistics numberToString proto results = Ok st ->
  match quests st !! key with
  | Some q =>
      relatedEvents q = eventsOf numberToString key (allEvents results) /\
      relatedEvents q <> [] /\
      head (omap findQuestId (relatedEvents q)) = Some (questId q)
  | None => eventsOf numberToString key (allEvents results) = []
  end.
Proof.
  intros H. apply deriveStatistics_Ok in H as [proto' H].
  pose proof (quests_invariant _ _ _ _ H key) as Hq.
  destruct (quests st !! key); [|exact Hq]. tauto.
Qed.

(** Whenever [deriveStatistics] returns, every quest record holds in
    [rewardRubles] the sum of the numeric [questRewardRubles] of its
    events (and nothing when no event carried a number), and in
    [traderId] the first truthy [questTraderId] of its events: a later
    event does not replace the trader. *)
Theorem quest_rewards_and_trader (proto : Dict.ObjectPrototype)
    (results : list ParsedLogResult) (st : Statistics) (key : string) (q : QuestStat) :
  deriveStatistics numberToString proto results = Ok st ->
  quests st !! key = Some q ->
  match rubleSamples (relatedEvents q) with
  | [] => rewardRubles q = None
  | x :: xs => exists a, rewardRubles q = Some a /\ (a == sumQ (x :: xs))%Q
  end /\
  traderId q = head (traderSamples (relatedEvents q)).
Proof.
  intros H Hk. apply deriveStatistics_Ok in H as [proto' H].
  pose proof (quests_invariant _ _ _ _ H key) as Hq. rewrite Hk in Hq. tauto.
Qed.

(** *** The quest id found in a message *)

Lemma takeHex_sound n s tok rest :
  Str.takeHex n s = Some (tok, rest) ->
  s = tok +:+ rest /\ String.length tok = n /\ allHex tok = true.
Proof.
  revert s tok rest. induction n as [|n IH]; intros s tok rest; simpl.
  - intros H. injection H as <- <-. auto.
  - destruct s as [|c r]; [discriminate|].
    destruct (Str.isHex c) eqn:Hc; [|discriminate].
    destruct (Str.takeHex n r) as [[tok' rest']|] eqn:E; [|discriminate].
    intros H. injection H as <- <-.
    destruct (IH _ _ _ E) as (-> & <- & Hh). simpl. rewrite Hc, Hh. auto.
Qed.

Lemma takeHex_complete tok rest :
  allHex tok = true -> Str.takeHex (String.length tok) (tok +:+ rest) = Some (tok, rest).
Proof.
  induction tok as [|c tok IH]; simpl; [reflexivity|].
  intros H. apply andb_true_iff in H as [-> H]. rewrite (IH H). reflexivity.
Qed.

Lemma endsInWord_cons c s :
  endsInWord (String c s) = match s with EmptyString => Str.isWord c | _ => endsInWord s end.
Proof. destruct s; reflexivity. Qed.

(** The matcher, started after a character that is a word character or
    not as [prevWord] tells. *)
Lemma matchHex24_spec s :
  forall prevWord,
    match Str.matchHex24 prevWord s with
    | Some tok =>
        exists before after,
          s = before +:+ tok +:+ after /\
          String.length tok = 24%nat /\ allHex tok = true /\
          match before with EmptyString => prevWord | _ => endsInWord before end = false /\
          beginsWithWord after = false
    | None =>
        forall before tok after,
          s = before +:+ tok +:+ after ->
          String.length tok = 24%nat -> allHex tok = true ->
          match before with EmptyString => prevWord | _ => endsInWord before end = false ->
          beginsWithWord after = false -> False
    end.
Proof.
  induction s as [|c r IH]; intros prevWord.
  { simpl. intros before tok after H Hl. destruct before; [|discriminate H].
    destruct tok; [discriminate Hl|discriminate H]. }
  cbn [Str.matchHex24].
  destruct (if prevWord then None
            else match Str.takeHex 24 (String c r) with
                 | Some (tok, rest) => if Str.atWordEnd rest then Some tok else None
                 | None => None
                 end) as [tok|] eqn:Hhere.
  - destruct prevWord; [discriminate Hhere|].
    destruct (Str.takeHex 24 (String c r)) as [[tok' rest]|] eqn:E; [|discriminate Hhere].
    destruct (Str.atWordEnd rest) eqn:Hend; [|discriminate Hhere].
    injection Hhere as ->. apply takeHex_sound in E as (E & Hl & Hh).
    exists "", rest. repeat split; try assumption.
    destruct rest; [reflexivity|]. simpl in *. destruct (Str.isWord a); [discriminate|reflexivity].
  - specialize (IH (Str.isWord c)).
    destruct (Str.matchHex24 (Str.isWord c) r) as [tok|].
    + destruct IH as (before & after & -> & Hl & Hh & Hb & Ha).
      exists (String c before), after. rewrite endsInWord_cons. auto.
    + intros before tok after H Hl Hh Hb Ha. destruct before as [|c' before].
      * destruct prevWord; [discriminate Hb|].
        change (String c r = tok +:+ after) in H. rewrite H in Hhere.
        rewrite <- Hl, (takeHex_complete tok after Hh) in Hhere.
        destruct after as [|a after]; [discriminate Hhere|].
        simpl in *. rewrite Ha in Hhere. discriminate Hhere.
      * injection H as <- ->. rewrite endsInWord_cons in Hb.
        exact (IH before tok after eq_refl Hl Hh Hb Ha).
Qed.

(** The quest id of an event is read off its message when the message
    holds 24 hexadecimal digits between word boundaries: the id is then
    that token, in the letter case the message has it, and the [questId]
    field is not looked at. Only when the message holds no such token is
    the id the [questId] field, if truthy. *)
Theorem findQuestId_message_first (e : Event) :
  match Str.matchHex24 false (messageOrEmpty e) with
  | Some tok =>
      findQuestId e = Some (JStr tok) /\
      exists before after, tokenAt (messageOrEmpty e) before tok after
  | None =>
      (forall before tok after, ~ tokenAt (messageOrEmpty e) before tok after) /\
      findQuestId e
      = (if truthy (field e "questId") then Some (field e "questId") else None)
  end.
Proof.
  pose proof (matchHex24_spec (messageOrEmpty e) false) as H. unfold findQuestId.
  destruct (Str.matchHex24 false (messageOrEmpty e)) as [tok|].
  - split; [reflexivity|].
    destruct H as (before & after & H1 & H2 & H3 & H4 & H5).
    exists before, after. repeat split; try assumption.
    destruct before; [reflexivity|exact H4].
  - split; [|reflexivity].
    intros before tok after (H1 & H2 & H3 & H4 & H5).
    apply (H before tok after H1 H2 H3); [|exact H5].
    destruct before; [reflexivity|exact H4].
Qed.

(** *** Counting dictionaries *)

(** Raising the slot [k0] of a dictionary whose slot [k] holds the tally
    [n]. The state of [Object.prototype] has no say for a key that is not
    the name of an entry member. *)
Lemma bump_tally proto (m : gmap string Counter) (n : nat) (k0 k : string) :
  entryMemberName k = false ->
  m !! k = tally k n ->
  bump proto m k0 !! k = tally k (if decide (k0 = k) then S n else n).
Proof.
  intros Hk Hm. unfold bump, Dict.get.
  destruct (decide (k0 = k)) as [->|Hne].
  - assert (Dict.addedKey proto k = false) as Ha.
    { destruct (Dict.addedKey proto k) eqn:E; [|reflexivity].
      apply addedKey_member in E. congruence. }
    rewrite Ha. unfold tally in *. destruct (m !! k) as [[c|k' c|]|] eqn:E.
    + rewrite lookup_insert_eq.
      destruct n as [|n']; [discriminate Hm|].
      destruct (Dict.inheritedKey k); [destruct (String.eqb k "__proto__"); discriminate Hm|].
      congruence.
    + rewrite lookup_insert_eq.
      destruct n as [|n']; [discriminate Hm|].
      destruct (Dict.inheritedKey k); [|discriminate Hm].
      destruct (String.eqb k "__proto__"); [discriminate Hm|]. congruence.
    + destruct n as [|n']; [discriminate Hm|].
      destruct (Dict.inheritedKey k); [destruct (String.eqb k "__proto__")|];
        discriminate Hm.
    + destruct (Dict.inheritedKey k) eqn:Hi.
      * destruct (String.eqb k "__proto__") eqn:Hp; [exact E|].
        rewrite lookup_insert_eq. destruct n; [reflexivity|discriminate Hm].
      * rewrite lookup_insert_eq. destruct n; [reflexivity|discriminate Hm].
  - rewrite <- Hm.
    destruct (m !! k0) as [[c|k' c|]|];
      [| | |destruct (Dict.inheritedKey k0);
            [destruct (String.eqb k0 "__proto__")|destruct (Dict.addedKey proto k0)]];
      rewrite ?lookup_insert_ne by exact Hne; reflexivity.
Qed.

(** A dictionary that the accumulators raise at the key an event gives
    holds, after a run from the empty statistics, the tally of the events
    that gave each key. *)
Lemma foldEvents_tally (proj : Statistics -> gmap string Counter)
    (keyOf : Event -> option string) (k : string) :
  entryMemberName k = false ->
  proj emptyStatistics = ∅ ->
  (forall e proto st st' proto',
      accumulateEvent numberToString e proto st = Ok (st', proto') ->
      exists p, proj st' = match keyOf e with
                           | Some k0 => bump p (proj st) k0
                           | None => proj st
                           end) ->
  forall evs proto0 st proto,
    foldEvents numberToString evs proto0 emptyStatistics = Ok (st, proto) ->
    proj st !! k = tally k (countIf (fun e => keyOf e = Some k) evs).
Proof.
  intros Hk H0 Hstep evs proto0. revert evs.
  apply (foldEvents_ind numberToString (fun evs _ st => proj st !! k = tally k _)).
  { rewrite H0, lookup_empty. reflexivity. }
  intros evs' e p st st' p' _ IH He. rewrite countIf_snoc.
  destruct (Hstep _ _ _ _ _ He) as [q ->].
  destruct (keyOf e) as [k0|].
  - rewrite (bump_tally q _ _ k0 k Hk IH).
    destruct (decide (k0 = k)) as [->|Hne].
    + rewrite decide_True by reflexivity. f_equal. lia.
    + rewrite decide_False by congruence. f_equal. lia.
  - rewrite decide_False by discriminate. rewrite IH. f_equal. lia.
Qed.

(** Whenever [deriveStatistics] returns, [errors.byFamily] holds under
    every family the tally of the events of the errors log of that family
    ("unknown" for an event without one): a number, except that a family
    named like a standard member of [Object.prototype] is kept as text
    and [__proto__] is not kept. This holds of every family but
    "connect", "disconnect" and "timeout", whatever the network log did
    to [Object.prototype]. *)
Theorem error_families_tally (proto : Dict.ObjectPrototype)
    (results : list ParsedLogResult) (st : Statistics) (family : string) :
  entryMemberName family = false ->
  deriveStatistics numberToString proto results = Ok st ->
  byFamily (errors st) !! family
  = tally family (countIf (fun e => errorFamilyKey e = Some family) (allEvents results)).
Proof.
  intros Hk H. apply deriveStatistics_Ok in H as [proto' H].
  refine (foldEvents_tally (fun s => byFamily (errors s)) errorFamilyKey family Hk
            eq_refl _ _ _ _ _ H).
  intros e p s s' p' Hs.
  apply accumulateEvent_Ok in Hs as (_ & _ & _ & _ & _ & _ & _ & -> & _).
  exists p'. unfold accumulateErrors, errorFamilyKey.
  destruct (String.eqb_spec (logType e) "errors") as [Ht|Ht]; simpl.
  - rewrite decide_True by exact Ht. reflexivity.
  - rewrite decide_False by exact Ht. reflexivity.
Qed.

Lemma accumulateBackend_dictionaries e proto b :
  byEndpoint (accumulateBackend numberToString e proto b)
  = match endpointKey numberToString e with
    | Some k => bump proto (byEndpoint b) k
    | None => byEndpoint b
    end /\
  byStatusCode (accumulateBackend numberToString e proto b)
  = match statusCodeKey numberToString e with
    | Some k => bump proto (byStatusCode b) k
    | None => byStatusCode b
    end.
Proof.
  unfold accumulateBackend, endpointKey, statusCodeKey, bumpWhen.
  destruct (String.eqb_spec (logType e) "backend") as [Ht|Ht]; simpl.
  2:{ rewrite !(decide_False (P := _ /\ _)) by tauto. split; reflexivity. }
  split.
  - destruct (decide (eventFamily e = Some "request")) as [H1|H1];
      [|destruct (decide (eventFamily e = Some "response")) as [H2|H2]].
    1,2: rewrite (decide_True (P := _ /\ _)) by tauto; simpl;
         destruct (truthy (field e "url")); reflexivity.
    rewrite (decide_False (P := _ /\ _)) by tauto. repeat case_decide; reflexivity.
  - destruct (decide (eventFamily e = Some "request")) as [H1|H1].
    { rewrite (decide_False (P := _ /\ _)); [reflexivity|].
      rewrite H1. intros [_ [?|[?|?]]]; discriminate. }
    destruct (decide (eventFamily e = Some "response")) as [H2|H2].
    { rewrite (decide_True (P := _ /\ _)) by tauto. simpl.
      destruct (truthy (field e "responseCode")); reflexivity. }
    destruct (decide (eventFamily e = Some "transport_error" \/
                      eventFamily e = Some "server_exception")) as [H3|H3].
    { rewrite (decide_True (P := _ /\ _)) by tauto. simpl.
      destruct (truthy (field e "responseCode")); reflexivity. }
    rewrite (decide_False (P := _ /\ _)) by tauto. case_decide; reflexivity.
Qed.

(** Whenever [deriveStatistics] returns, [backend.byEndpoint] tallies
    under every url the "request" and "response" events of the backend
    log that carry it, and [backend.byStatusCode] under every code the
    "response", "transport_error" and "server_exception" events that
    carry it; a falsy url or code (absent, empty, zero) is not tallied.
    This holds of every key but "connect", "disconnect" and "timeout". *)
Theorem backend_dictionaries_tally (proto : Dict.ObjectPrototype)
    (results : list ParsedLogResult) (st : Statistics) (k : string) :
  entryMemberName k = false ->
  deriveStatistics numberToString proto results = Ok st ->
  byEndpoint (backend st) !! k
  = tally k (countIf (fun e => endpointKey numberToString e = Some k) (allEvents results)) /\
  byStatusCode (backend st) !! k
  = tally k (countIf (fun e => statusCodeKey numberToString e = Some k) (allEvents results)).
Proof.
  intros Hk H. apply deriveStatistics_Ok in H as [proto' H]. split.
  - refine (foldEvents_tally (fun s => byEndpoint (backend s)) (endpointKey numberToString)
              k Hk eq_refl _ _ _ _ _ H).
    intros e p s s' p' Hs. apply accumulateEvent_Ok in Hs as (-> & _).
    exists p. apply accumulateBackend_dictionaries.
  - refine (foldEvents_tally (fun s => byStatusCode (backend s))
              (statusCodeKey numberToString) k Hk eq_refl _ _ _ _ _ H).
    intros e p s s' p' Hs. apply accumulateEvent_Ok in Hs as (-> & _).
    exists p. apply accumulateBackend_dictionaries.
Qed.

Lemma accumulateInventory_dictionaries e proto inv its :
  let inv' := fst (accumulateInventory numberToString e proto inv its) in
  byOperation inv'
  = match operationKey numberToString e with
    | Some k => bump proto (byOperation inv) k
    | None => byOperation inv
    end /\
  byCode inv'
  = match codeKey numberToString e with
    | Some k => bump proto (byCode inv) k
    | None => byCode inv
    end /\
  inventoryItems inv'
  = match itemKey numberToString e with
    | Some k => bump proto (inventoryItems inv) k
    | None => inventoryItems inv
    end.
Proof.
  cbv zeta. unfold accumulateInventory, operationKey, codeKey, itemKey, bumpWhen.
  destruct (String.eqb_spec (logType e) "inventory") as [Ht|Ht]; simpl.
  - rewrite !decide_True by exact Ht. repeat split.
    + destruct (truthy (field e "operationType")); reflexivity.
    + destruct (field e "code"); reflexivity.
    + destruct (truthy (field e "itemId")); reflexivity.
  - rewrite !decide_False by exact Ht. repeat split.
Qed.

(** Whenever [deriveStatistics] returns, the dictionaries of the
    inventory aggregate tally the events of the inventory log: by
    operation (when truthy), by code (whenever the event has one, zero,
    null and the empty string included) and by item id (when truthy).
    This holds of every key but "connect", "disconnect" and "timeout". *)
Theorem inventory_dictionaries_tally (proto : Dict.ObjectPrototype)
    (results : list ParsedLogResult) (st : Statistics) (k : string) :
  entryMemberName k = false ->
  deriveStatistics numberToString proto results = Ok st ->
  byOperation (inventory st) !! k
  = tally k (countIf (fun e => operationKey numberToString e = Some k) (allEvents results)) /\
  byCode (inventory st) !! k
  = tally k (countIf (fun e => codeKey numberToString e = Some k) (allEvents results)) /\
  inventoryItems (inventory st) !! k
  = tally k (countIf (fun e => itemKey numberToString e = Some k) (allEvents results)).
Proof.
  intros Hk H. apply deriveStatistics_Ok in H as [proto' H]. split; [|split].
  - refine (foldEvents_tally (fun s => byOperation (inventory s))
              (operationKey numberToString) k Hk eq_refl _ _ _ _ _ H).
    intros e p s s' p' Hs. apply accumulateEvent_Ok in Hs as (_ & _ & -> & _).
    exists p. apply accumulateInventory_dictionaries.
  - refine (foldEvents_tally (fun s => byCode (inventory s)) (codeKey numberToString)
              k Hk eq_refl _ _ _ _ _ H).
    intros e p s s' p' Hs. apply accumulateEvent_Ok in Hs as (_ & _ & -> & _).
    exists p. apply accumulateInventory_dictionaries.
  - refine (foldEvents_tally (fun s => inventoryItems (inventory s))
              (itemKey numberToString) k Hk eq_refl _ _ _ _ _ H).
    intros e p s s' p' Hs. apply accumulateEvent_Ok in Hs as (_ & _ & -> & _).
    exists p. apply accumulateInventory_dictionaries.
Qed.

(** *** Packet totals *)

Lemma sum_step (xs : list Q) (r : option Q) (y : option Q) :
  match xs with
  | [] => r = None
  | x :: xs' => exists a, r = Some a /\ (a == sumQ (x :: xs'))%Q
  end ->
  match (xs ++ option_list y)%list with
  | [] => match y with Some v => Some (default 0%Q r + v)%Q | None => r end = None
  | x :: xs' =>
      exists a, match y with Some v => Some (default 0%Q r + v)%Q | None => r end = Some a /\
                (a == sumQ (x :: xs'))%Q
  end.
Proof.
  destruct y as [v|]; simpl.
  - destruct xs as [|x xs'].
    + intros ->. simpl. eexists. split; [reflexivity|]. unfold sumQ. simpl. ring.
    + intros (a & -> & Ha). simpl. eexists. split; [reflexivity|].
      change (a + v == sumQ ((x :: xs') ++ [v]))%Q. rewrite sumQ_snoc, Ha. reflexivity.
  - rewrite app_nil_r. tauto.
Qed.

(** A member that the accumulators raise by the number an event carries
    holds, after a run from the empty statistics, the sum of the numbers
    carried, and nothing when no event carried one. *)
Lemma foldEvents_sum (get : Statistics -> option Q) (sample : Event -> option Q) :
  get emptyStatistics = None ->
  (forall e proto st st' proto',
      accumulateEvent numberToString e proto st = Ok (st', proto') ->
      get st' = match sample e with
                | Some v => Some (default 0%Q (get st) + v)%Q
                | None => get st
                end) ->
  forall proto0 evs st proto,
    foldEvents numberToString evs proto0 emptyStatistics = Ok (st, proto) ->
    match omap sample evs with
    | [] => get st = None
    | x :: xs => exists a, get st = Some a /\ (a == sumQ (x :: xs))%Q
    end.
Proof.
  intros H0 Hstep proto0.
  apply (foldEvents_ind numberToString
           (fun evs _ st => match omap sample evs with [] => _ | _ => _ end)).
  { exact H0. }
  intros evs e p st st' p' _ IH He. rewrite (Hstep _ _ _ _ _ He), omap_app.
  change (omap sample [e]) with (option_list (sample e)).
  apply sum_step, IH.
Qed.

Lemma accumulateNetwork_packets e proto nw nw' proto' :
  accumulateNetwork numberToString e proto nw = Ok (nw', proto') ->
  let m := metrics nw in
  let m' := metrics nw' in
  totalPacketsLost m'
  = match packetSample "packetsLost" e with
    | Some v => Some (default 0%Q (totalPacketsLost m) + v)%Q
    | None => totalPacketsLost m
    end /\
  totalPacketsSent m'
  = match packetSample "packetsSent" e with
    | Some v => Some (default 0%Q (totalPacketsSent m) + v)%Q
    | None => totalPacketsSent m
    end /\
  totalPacketsReceived m'
  = match packetSample "packetsReceived" e with
    | Some v => Some (default 0%Q (totalPacketsReceived m) + v)%Q
    | None => totalPacketsReceived m
    end.
Proof.
  intros H. cbv zeta. unfold packetSample.
  destruct (decide (logType e = "network-connection")) as [Ht|Ht].
  - rewrite accumulateNetwork_connection in H by exact Ht.
    destruct (decide (eventFamily e = Some "statistics")) as [Hs|Hs].
    + rewrite !(decide_True (P := _ /\ _)) by tauto.
      destruct (accumulateConnection_statistics numberToString e proto nw Hs) as [table E].
      rewrite E in H. injection H as <- _. simpl. unfold addWhenNumber.
      repeat split.
    + rewrite !(decide_False (P := _ /\ _)) by tauto.
      rewrite (accumulateConnection_other numberToString _ _ _ _ _ Hs H). repeat split.
  - rewrite !(decide_False (P := _ /\ _)) by tauto.
    destruct (decide (logType e = "network-messages")) as [Hm|Hm].
    + rewrite accumulateNetwork_messages_log in H by exact Hm.
      injection H as <- _. repeat split.
    + rewrite accumulateNetwork_other in H by assumption.
      injection H as <- _. repeat split.
Qed.

(** Whenever [deriveStatistics] returns, each packet total of the network
    metrics is the sum of the numbers the "statistics" events of the
    network-connection log carry in the field of that name, and is absent
    when none carries a number. *)
Theorem packet_totals_are_sums (proto : Dict.ObjectPrototype)
    (results : list ParsedLogResult) (st : Statistics) :
  deriveStatistics numberToString proto results = Ok st ->
  let total (get : NetworkMetrics -> option Q) (name : string) :=
    match omap (packetSample name) (allEvents results) with
    | [] => get (metrics (network st)) = None
    | x :: xs => exists a, get (metrics (network st)) = Some a /\ (a == sumQ (x :: xs))%Q
    end in
  total totalPacketsLost "packetsLost" /\
  total totalPacketsSent "packetsSent" /\
  total totalPacketsReceived "packetsReceived".
Proof.
  intros H. apply deriveStatistics_Ok in H as [proto' H]. cbv zeta.
  split; [|split].
  - refine (foldEvents_sum (fun s => totalPacketsLost (metrics (network s)))
              (packetSample "packetsLost") eq_refl _ _ _ _ _ H).
    intros e p s s' p' Hs. apply accumulateEvent_Ok in Hs as (_ & _ & _ & _ & Hn & _).
    apply (accumulateNetwork_packets _ _ _ _ _ Hn).
  - refine (foldEvents_sum (fun s => totalPacketsSent (metrics (network s)))
              (packetSample "packetsSent") eq_refl _ _ _ _ _ H).
    intros e p s s' p' Hs. apply accumulateEvent_Ok in Hs as (_ & _ & _ & _ & Hn & _).
    apply (accumulateNetwork_packets _ _ _ _ _ Hn).
  - refine (foldEvents_sum (fun s => totalPacketsReceived (metrics (network s)))
              (packetSample "packetsReceived") eq_refl _ _ _ _ _ H).
    intros e p s s' p' Hs. apply accumulateEvent_Ok in Hs as (_ & _ & _ & _ & Hn & _).
    apply (accumulateNetwork_packets _ _ _ _ _ Hn).
Qed.

(** *** Addresses *)

(** A connection event leaves the slots of the other addresses alone. *)
Lemma accumulateConnection_elsewhere e proto nw nw' proto' k :
  accumulateConnection numberToString e proto nw = Ok (nw', proto') ->
  addressOf numberToString e <> k ->
  byAddress nw' !! k = byAddress nw !! k.
Proof.
  unfold accumulateConnection. fold (addressOf numberToString e). intros H Hne.
  assert (Hstore : forall s,
             (if String.eqb (addressOf numberToString e) "__proto__" then byAddress nw
              else <[addressOf numberToString e := s]> (byAddress nw)) !! k
             = byAddress nw !! k).
  { intros s. destruct (String.eqb _ _); [reflexivity|].
    apply lookup_insert_ne, Hne. }
  repeat case_decide;
    try (apply bind_Ok in H as ([entry' p] & _ & H));
    try destruct (asNumber (field e "rtt"));
    simpl in H; injection H as <- _; simpl; apply Hstore.
Qed.

(** What a connection event does to the entry of its address. *)
Lemma accumulateConnection_entry e proto nw nw' proto' en :
  accumulateConnection numberToString e proto nw = Ok (nw', proto') ->
  String.eqb (addressOf numberToString e) "__proto__" = false ->
  Dict.get proto (byAddress nw) (addressOf numberToString e) = Dict.Own (Entry en) \/
  (Dict.get proto (byAddress nw) (addressOf numberToString e) = Dict.Missing /\
   en = mkEntry 0 0 0) ->
  byAddress nw' !! addressOf numberToString e
  = Some (Entry (mkEntry (connect en + if decide (connectFamily e) then 1 else 0)
                   (disconnect en + if decide (disconnectFamily e) then 1 else 0)
                   (timeout en + if decide (timeoutFamily e) then 1 else 0))).
Proof.
  unfold accumulateConnection, connectFamily, disconnectFamily, timeoutFamily.
  fold (addressOf numberToString e). intros H Hp Hget. rewrite Hp in H.
  assert (match Dict.get proto (byAddress nw) (addressOf numberToString e) with
          | Dict.Own s => s
          | Dict.Inherited => Builtin (addressOf numberToString e)
          | Dict.InheritedNaN => NaNValue
          | Dict.Missing => Entry (mkEntry 0 0 0)
          end = Entry en) as Hentry.
  { destruct Hget as [->|[-> ->]]; reflexivity. }
  rewrite Hentry in H. clear Hentry Hget.
  destruct (decide (eventFamily e = Some "connect" \/ eventFamily e = Some "state_enter"))
    as [H1|H1].
  { rewrite !decide_False by (intros ?; clash). simpl in H. injection H as <- _. simpl.
    rewrite lookup_insert_eq. do 2 f_equal. f_equal; lia. }
  destruct (decide (eventFamily e = Some "disconnect" \/ eventFamily e = Some "send_disconnect"))
    as [H2|H2].
  { rewrite !decide_False by (intros ?; clash). simpl in H. injection H as <- _. simpl.
    rewrite lookup_insert_eq. do 2 f_equal. f_equal; lia. }
  assert (forall c d t : nat, Entry (mkEntry c d t)
            = Entry (mkEntry (c + 0) (d + 0) (t + 0))) as Hzero.
  { intros c d t. do 2 f_equal; lia. }
  destruct (decide (eventFamily e = Some "timeout")) as [H3|H3].
  { simpl in H. injection H as <- _. simpl.
    rewrite lookup_insert_eq. do 2 f_equal. f_equal; lia. }
  destruct en as [c d t].
  case_decide; [destruct (asNumber (field e "rtt"))|];
    simpl in H; injection H as <- _; simpl; rewrite lookup_insert_eq; f_equal; apply Hzero.
Qed.

Lemma entryOf_counts mine :
  default (Entry (mkEntry 0 0 0)) (entryOf mine)
  = Entry (mkEntry (countIf connectFamily mine) (countIf disconnectFamily mine)
             (countIf timeoutFamily mine)).
Proof. destruct mine; reflexivity. Qed.

Lemma entryOf_snoc mine e :
  entryOf (mine ++ [e])
  = Some (Entry (mkEntry
                   (countIf connectFamily mine + if decide (connectFamily e) then 1 else 0)
                   (countIf disconnectFamily mine
                    + if decide (disconnectFamily e) then 1 else 0)
                   (countIf timeoutFamily mine + if decide (timeoutFamily e) then 1 else 0))).
Proof.
  unfold entryOf. rewrite !countIf_snoc. destruct mine; reflexivity.
Qed.

(** Whenever [deriveStatistics] returns, [network.byAddress] holds under
    every address that names no member of [Object.prototype] and no
    member of an entry an entry exactly when some event of the
    network-connection log is filed under that address (under "unknown"
    when the event has none), whatever the family of the event; the entry
    counts the events filed there by family. *)
Theorem address_entries_count (proto : Dict.ObjectPrototype)
    (results : list ParsedLogResult) (st : Statistics) (address : string) :
  deriveStatistics numberToString proto results = Ok st ->
  Dict.inheritedKey address = false ->
  entryMemberName address = false ->
  byAddress (network st) !! address
  = entryOf (connectionEventsAt numberToString address (allEvents results)).
Proof.
  intros H Ha Hm. apply deriveStatistics_Ok in H as [proto' H].
  revert H. generalize (allEvents results). intros evs. revert st proto'. revert evs.
  apply (foldEvents_ind numberToString
           (fun evs _ st =>
              byAddress (network st) !! address
              = entryOf (connectionEventsAt numberToString address evs))).
  { simpl. rewrite lookup_empty. reflexivity. }
  intros evs' e p st st' p' _ IH He.
  apply accumulateEvent_Ok in He as (_ & _ & _ & _ & Hn & _).
  unfold connectionEventsAt. rewrite filter_app, filter_cons, filter_nil.
  fold (connectionEventsAt numberToString address evs').
  destruct (decide (logType e = "network-connection")) as [Ht|Ht].
  2:{ rewrite (decide_False (P := _ /\ _)) by tauto. rewrite app_nil_r, <- IH.
      destruct (decide (logType e = "network-messages")) as [Hmsg|Hmsg].
      - rewrite accumulateNetwork_messages_log in Hn by exact Hmsg.
        injection Hn as <- _. reflexivity.
      - rewrite accumulateNetwork_other in Hn by assumption.
        injection Hn as <- _. reflexivity. }
  rewrite accumulateNetwork_connection in Hn by exact Ht.
  destruct (decide (addressOf numberToString e = address)) as [<-|Hd].
  - rewrite (decide_True (P := _ /\ _)) by tauto. rewrite entryOf_snoc.
    set (mine := connectionEventsAt numberToString (addressOf numberToString e) evs') in *.
    pose proof (entryOf_counts mine) as Hc. rewrite <- IH in Hc.
    apply (accumulateConnection_entry e p (network st) (network st') p'
             (mkEntry (countIf connectFamily mine) (countIf disconnectFamily mine)
                (countIf timeoutFamily mine)) Hn).
    + destruct (String.eqb_spec (addressOf numberToString e) "__proto__") as [E|];
        [rewrite E in Ha; discriminate Ha | reflexivity].
    + unfold Dict.get. rewrite Ha.
      assert (Dict.addedKey p (addressOf numberToString e) = false) as ->.
      { destruct (Dict.addedKey p (addressOf numberToString e)) eqn:E; [|reflexivity].
        apply addedKey_member in E. congruence. }
      destruct (byAddress (network st) !! addressOf numberToString e) as [s|]; simpl in Hc.
      * left. rewrite Hc. reflexivity.
      * right. split; [reflexivity|]. injection Hc as <- <- <-. reflexivity.
  - rewrite (decide_False (P := _ /\ _)) by tauto. rewrite app_nil_r, <- IH.
    apply (accumulateConnection_elsewhere _ _ _ _ _ _ Hn Hd).
Qed.

End Facts.

Lemma network_counters_count_witness :
  match deriveStatistics printNatural Dict.standardPrototype trafficInput with
  | Ok st =>
      connections (network st) = 2%nat /\ disconnects (network st) = 1%nat /\
      timeouts (network st) = 1%nat /\ samples (metrics (network st)) = 2%nat
  | Throw _ => False
  end.
Proof.
  destruct (deriveStatistics printNatural Dict.standardPrototype trafficInput) as [st|err] eqn:H.
  - destruct (network_counters_count printNatural Dict.standardPrototype trafficInput st H) as (-> & -> & -> & ->).
    vm_compute. repeat split.
  - vm_compute in H. discriminate H.
Defined.

Lemma backend_counters_count_witness :
  match deriveStatistics printNatural Dict.standardPrototype backendInput with
  | Ok st =>
      totalRequests (backend st) = 2%nat /\ totalResponses (backend st) = 1%nat /\
      totalErrors (backend st) = 1%nat /\ retries (backend st) = 1%nat
  | Throw _ => False
  end.
Proof.
  destruct (deriveStatistics printNatural Dict.standardPrototype backendInput) as [st|err] eqn:H.
  - destruct (backend_counters_count printNatural Dict.standardPrototype backendInput st H) as (-> & -> & -> & ->).
    vm_compute. repeat split.
  - vm_compute in H. discriminate H.
Defined.

Lemma inventory_push_audio_count_witness :
  match deriveStatistics printNatural Dict.standardPrototype inventoryInput with
  | Ok st =>
      totalRejections (inventory st) = 2%nat /\
      pushConnections (push st) = 1%nat /\ drops (push st) = 1%nat /\
      notifications (push st) = 2%nat /\
      initSuccess (audio st) = 1%nat /\ occlusionErrors (audio st) = 2%nat
  | Throw _ => False
  end.
Proof.
  destruct (deriveStatistics printNatural Dict.standardPrototype inventoryInput) as [st|err] eqn:H.
  - destruct (inventory_push_audio_count printNatural Dict.standardPrototype inventoryInput st H)
      as (-> & -> & -> & -> & -> & ->).
    vm_compute. repeat split.
  - vm_compute in H. discriminate H.
Defined.

Lemma counters_never_decrease_witness :
  match deriveStatistics printNatural Dict.standardPrototype (trafficInput ++ backendInput) with
  | Ok st2 =>
      exists st1,
        deriveStatistics printNatural Dict.standardPrototype trafficInput = Ok st1 /\
        Forall2 le (scalarCounters st1) (scalarCounters st2)
  | Throw _ => False
  end.
Proof.
  destruct (deriveStatistics printNatural Dict.standardPrototype (trafficInput ++ backendInput)) as [st2|err] eqn:H.
  - exact (counters_never_decrease printNatural Dict.standardPrototype trafficInput backendInput st2 H).
  - vm_compute in H. discriminate H.
Defined.

Lemma anticheat_last_write_wins_witness :
  match deriveStatistics printNatural Dict.standardPrototype anticheatInput with
  | Ok st =>
      initLines (anticheat st) = 2%nat /\ anticheatErrors (anticheat st) = 1%nat /\
      lastStatus (anticheat st) = Some "BattlEye: ready"
  | Throw _ => False
  end.
Proof.
  destruct (deriveStatistics printNatural Dict.standardPrototype anticheatInput) as [st|err] eqn:H.
  - destruct (anticheat_last_write_wins printNatural Dict.standardPrototype anticheatInput st H) as (-> & -> & ->).
    vm_compute. repeat split.
  - vm_compute in H. discriminate H.
Defined.

Lemma quest_related_events_witness :
  match deriveStatistics printNatural Dict.standardPrototype questInput with
  | Ok st =>
      match quests st !! "5ac23c6186f7741247042bad" with
      | Some q =>
          List.length (relatedEvents q) = 3%nat /\
          questId q = JStr "5ac23c6186f7741247042bad"
      | None => False
      end
  | Throw _ => False
  end.
Proof.
  destruct (deriveStatistics printNatural Dict.standardPrototype questInput) as [st|err] eqn:H.
  - pose proof (quest_related_events printNatural Dict.standardPrototype questInput st
                  "5ac23c6186f7741247042bad" H) as T.
    destruct (quests st !! "5ac23c6186f7741247042bad") as [q|].
    + destruct T as (T1 & _ & T3). rewrite T1 in T3 |- *. split.
      * vm_compute. reflexivity.
      * assert (E : Some (questId q) = Some (JStr "5ac23c6186f7741247042bad"))
          by (rewrite <- T3; vm_compute; reflexivity).
        injection E as ->. reflexivity.
    + vm_compute in T. discriminate T.
  - vm_compute in H. discriminate H.
Defined.

Lemma quest_rewards_and_trader_witness :
  match deriveStatistics printNatural Dict.standardPrototype questInput with
  | Ok st =>
      match quests st !! "5ac23c6186f7741247042bad" with
      | Some q =>
          (exists a, rewardRubles q = Some a /\ (a == 1500)%Q) /\
          traderId q = Some (JStr "prapor")
      | None => False
      end
  | Throw _ => False
  end.
Proof.
  destruct (deriveStatistics printNatural Dict.standardPrototype questInput) as [st|err] eqn:H;
    [|vm_compute in H; discriminate H].
  destruct (quests st !! "5ac23c6186f7741247042bad") as [q|] eqn:Hk.
  - destruct (quest_rewards_and_trader printNatural Dict.standardPrototype questInput st _ q H Hk) as [Hr Ht].
    vm_compute in H. injection H as <-. vm_compute in Hk. injection Hk as <-.
    split.
    + cbn in Hr. destruct Hr as (a & Ha & Hs). exists a. split; [exact Ha|].
      rewrite Hs. vm_compute. reflexivity.
    + rewrite Ht. vm_compute. reflexivity.
  - vm_compute in H. injection H as <-. vm_compute in Hk. discriminate Hk.
Defined.

Lemma error_families_tally_witness :
  match deriveStatistics printNatural Dict.standardPrototype familiesInput with
  | Ok st =>
      byFamily (errors st) !! "exception" = Some (Count 2) /\
      byFamily (errors st) !! "unknown" = Some (Count 1) /\
      byFamily (errors st) !! "constructor" = Some (Text "constructor" 2)
  | Throw _ => False
  end.
Proof.
  destruct (deriveStatistics printNatural Dict.standardPrototype familiesInput) as [st|err] eqn:H.
  - rewrite (error_families_tally printNatural Dict.standardPrototype familiesInput st
               "exception" eq_refl H).
    rewrite (error_families_tally printNatural Dict.standardPrototype familiesInput st
               "unknown" eq_refl H).
    rewrite (error_families_tally printNatural Dict.standardPrototype familiesInput st
               "constructor" eq_refl H).
    vm_compute. repeat split.
  - vm_compute in H. discriminate H.
Defined.

Lemma backend_dictionaries_tally_witness :
  match deriveStatistics printNatural Dict.standardPrototype backendInput with
  | Ok st =>
      byEndpoint (backend st) !! "/client/items" = Some (Count 2) /\
      byStatusCode (backend st) !! "500" = Some (Count 1)
  | Throw _ => False
  end.
Proof.
  destruct (deriveStatistics printNatural Dict.standardPrototype backendInput) as [st|err] eqn:H.
  - rewrite (proj1 (backend_dictionaries_tally printNatural Dict.standardPrototype
                       backendInput st "/client/items" eq_refl H)).
    rewrite (proj2 (backend_dictionaries_tally printNatural Dict.standardPrototype
                       backendInput st "500" eq_refl H)).
    vm_compute. repeat split.
  - vm_compute in H. discriminate H.
Defined.

Lemma inventory_dictionaries_tally_witness :
  match deriveStatistics printNatural Dict.standardPrototype inventoryInput with
  | Ok st =>
      byOperation (inventory st) !! "Move" = Some (Count 1) /\
      byCode (inventory st) !! "0" = Some (Count 1) /\
      inventoryItems (inventory st) !! "item1" = Some (Count 1)
  | Throw _ => False
  end.
Proof.
  destruct (deriveStatistics printNatural Dict.standardPrototype inventoryInput) as [st|err] eqn:H.
  - destruct (inventory_dictionaries_tally printNatural Dict.standardPrototype
                inventoryInput st "Move" eq_refl H) as (-> & _ & _).
    destruct (inventory_dictionaries_tally printNatural Dict.standardPrototype
                inventoryInput st "0" eq_refl H) as (_ & -> & _).
    destruct (inventory_dictionaries_tally printNatural Dict.standardPrototype
                inventoryInput st "item1" eq_refl H) as (_ & _ & ->).
    vm_compute. repeat split.
  - vm_compute in H. discriminate H.
Defined.

Lemma packet_totals_are_sums_witness :
  match deriveStatistics printNatural Dict.standardPrototype trafficInput with
  | Ok st =>
      (exists a, totalPacketsLost (metrics (network st)) = Some a /\ (a == 2)%Q) /\
      (exists a, totalPacketsSent (metrics (network st)) = Some a /\ (a == 150)%Q) /\
      totalPacketsReceived (metrics (network st)) = None
  | Throw _ => False
  end.
Proof.
  destruct (deriveStatistics printNatural Dict.standardPrototype trafficInput) as [st|err] eqn:H.
  - destruct (packet_totals_are_sums printNatural Dict.standardPrototype trafficInput st H) as (H1 & H2 & H3).
    assert (E1 : omap (packetSample "packetsLost") (allEvents trafficInput) = [2%Q])
      by (vm_compute; reflexivity).
    assert (E2 : omap (packetSample "packetsSent") (allEvents trafficInput) = [100%Q; 50%Q])
      by (vm_compute; reflexivity).
    assert (E3 : omap (packetSample "packetsReceived") (allEvents trafficInput) = [])
      by (vm_compute; reflexivity).
    rewrite E1 in H1. rewrite E2 in H2. rewrite E3 in H3.
    split; [|split; [|exact H3]].
    + destruct H1 as (a & Ha & Hs). exists a. split; [exact Ha|]. rewrite Hs. reflexivity.
    + destruct H2 as (a & Ha & Hs). exists a. split; [exact Ha|]. rewrite Hs. reflexivity.
  - vm_compute in H. discriminate H.
Defined.

Lemma rtt_average_is_mean_witness :
  match deriveStatistics printNatural Dict.standardPrototype trafficInput with
  | Ok st =>
      default 0%nat (rttSamples (metrics (network st))) = 2%nat /\
      exists a, rttAvg (metrics (network st)) = Some a /\ (a == 40)%Q
  | Throw _ => False
  end.
Proof.
  destruct (deriveStatistics printNatural Dict.standardPrototype trafficInput) as [st|err] eqn:H.
  - destruct (rtt_average_is_mean printNatural Dict.standardPrototype trafficInput st H) as [H1 H2].
    assert (E : omap rttSample (allEvents trafficInput) = [30%Q; 50%Q])
      by (vm_compute; reflexivity).
    rewrite E in H1, H2. split; [exact H1|].
    destruct H2 as (a & Ha & Hs). exists a. split; [exact Ha|]. rewrite Hs. reflexivity.
  - vm_compute in H. discriminate H.
Defined.

Lemma rpi_average_is_mean_when_dense_witness :
  match deriveStatistics printNatural Dict.standardPrototype trafficInput with
  | Ok st => exists a, rpiAvg (metrics (network st)) = Some a /\ (a == 5)%Q
  | Throw _ => False
  end.
Proof.
  destruct (deriveStatistics printNatural Dict.standardPrototype trafficInput) as [st|err] eqn:H.
  - assert (Hdense : Forall (fun e => isMessagesEvent e -> is_Some (rpiSample e))
                       (allEvents trafficInput)).
    { apply Forall_forall. intros e He. vm_compute in He.
      repeat (apply elem_of_cons in He as [->|He]; [vm_compute; eauto; intros; discriminate|]).
      apply elem_of_nil in He. contradiction. }
    pose proof (rpi_average_is_mean_when_dense printNatural Dict.standardPrototype trafficInput st H Hdense) as H1.
    assert (E : omap rpiSample (allEvents trafficInput) = [4%Q; 6%Q])
      by (vm_compute; reflexivity).
    rewrite E in H1.
    destruct H1 as (a & Ha & Hs). exists a. split; [exact Ha|]. rewrite Hs. reflexivity.
  - vm_compute in H. discriminate H.
Defined.

Lemma address_entries_count_witness :
  match deriveStatistics printNatural Dict.standardPrototype trafficInput with
  | Ok st =>
      byAddress (network st) !! "10.0.0.1" = Some (Entry (mkEntry 2 0 0)) /\
      byAddress (network st) !! "unknown" = Some (Entry (mkEntry 0 1 0)) /\
      byAddress (network st) !! "10.0.0.3" = None
  | Throw _ => False
  end.
Proof.
  destruct (deriveStatistics printNatural Dict.standardPrototype trafficInput) as [st|err] eqn:H.
  - rewrite (address_entries_count printNatural Dict.standardPrototype trafficInput st
               "10.0.0.1" H eq_refl eq_refl).
    rewrite (address_entries_count printNatural Dict.standardPrototype trafficInput st
               "unknown" H eq_refl eq_refl).
    rewrite (address_entries_count printNatural Dict.standardPrototype trafficInput st
               "10.0.0.3" H eq_refl eq_refl).
    vm_compute. repeat split.
  - vm_compute in H. discriminate H.
Defined.


Lemma errors_isolated_witness :
  match deriveStatistics printNatural Dict.standardPrototype familiesInput with
  | Ok st =>
      totals (errors st) = 5%nat /\
      errors st
      = errorsOf Dict.standardPrototype (filter isErrorsEvent (allEvents familiesInput))
  | Throw _ => False
  end.
Proof.
  destruct (deriveStatistics printNatural Dict.standardPrototype familiesInput)
    as [st|err] eqn:H.
  - destruct (errors_isolated printNatural Dict.standardPrototype familiesInput st H)
      as [Ht Hall].
    split; [rewrite Ht; vm_compute; reflexivity|].
    apply Hall. unfold allEvents, familiesInput. simpl.
    repeat (apply Forall_cons; split; [intros [Hlog _]; discriminate Hlog|]).
    apply Forall_nil. exact I.
  - vm_compute in H. discriminate H.
Defined.


End MoreAnalyticsFacts.

(* ===================================================================== *)
(** ** Properties of the session builder                                  *)
(* ===================================================================== *)

Module SessionFacts.
Import Analytics AnalyticsSpec MoreAnalyticsSpec.

Lemma countLevels_fold (evs : list Event) (acc : nat * nat) :
  foldl (fun (acc : nat * nat) (e : Event) =>
           (if decide (level e = Some "Error") then S (fst acc) else fst acc,
            if decide (level e = Some "Warn" \/ level e = Some "Warning")
            then S (snd acc) else snd acc)) acc evs
  = ((fst acc + countIf atLevelError evs)%nat, (snd acc + countIf atLevelWarning evs)%nat).
Proof.
  revert acc. induction evs as [|e evs IH]; intros [a b]; simpl.
  - unfold countIf. simpl. f_equal; lia.
  - rewrite IH. unfold countIf, atLevelError, atLevelWarning. rewrite !filter_cons. simpl.
    destruct (decide (level e = Some "Error"));
      destruct (decide (level e = Some "Warn" \/ level e = Some "Warning"));
      simpl; f_equal; lia.
Qed.

Lemma countLevels_record (evs : list Event) :
  countLevels evs
  = mkCounts (length evs) (countIf atLevelError evs) (countIf atLevelWarning evs).
Proof. unfold countLevels. cbv zeta. rewrite countLevels_fold. reflexivity. Qed.

(** [countLevels] returns the number of events, the number of events at
    level "Error" and the number at level "Warn" or "Warning"; an event
    without a level, or at any other level, counts as an event only. *)
Theorem countLevels_counts (evs : list Event) :
  eventCount (countLevels evs) = length evs /\
  errorCount (countLevels evs) = countIf atLevelError evs /\
  warningCount (countLevels evs) = countIf atLevelWarning evs.
Proof. rewrite countLevels_record. auto. Qed.

(** *** The map of sessions *)

Lemma mapGet_None {V} (k : string) (m : list (string * V)) :
  mapGet k m = None <-> k ∉ map fst m.
Proof.
  induction m as [|[k' v] m IH]; simpl.
  - split; [intros _ H; inversion H | reflexivity].
  - destruct (String.eqb_spec k k') as [->|Hne].
    + split; [discriminate | intros H; destruct H; left].
    + rewrite IH. rewrite not_elem_of_cons. tauto.
Qed.

Lemma mapUpdate_keys {V} (k : string) (v : V) (m : list (string * V)) :
  map fst (mapUpdate k v m) = map fst m.
Proof.
  induction m as [|[k' v'] m IH]; simpl; [reflexivity|].
  destruct (String.eqb k k'); simpl; [reflexivity | rewrite IH; reflexivity].
Qed.

Lemma mapUpdate_total (f : LevelCounts -> nat) (k : string) (old new : SessionSummary)
    (m : list (string * SessionSummary)) :
  mapGet k m = Some old ->
  (totalOf f (mapUpdate k new m) + f (sessionTotals old)
   = totalOf f m + f (sessionTotals new))%nat.
Proof.
  unfold totalOf. induction m as [|[k' v'] m IH]; simpl; [discriminate|].
  destruct (String.eqb k k'); simpl.
  - intros H. injection H as ->. lia.
  - intros H. specialize (IH H). lia.
Qed.

Lemma mapUpdate_ids (k : string) (old new : SessionSummary)
    (m : list (string * SessionSummary)) :
  mapGet k m = Some old -> sessionId new = sessionId old ->
  map (fun kv => sessionId (snd kv)) (mapUpdate k new m)
  = map (fun kv => sessionId (snd kv)) m.
Proof.
  induction m as [|[k' v'] m IH]; simpl; [discriminate|].
  destruct (String.eqb k k'); simpl.
  - intros H E. injection H as ->. rewrite E. reflexivity.
  - intros H E. rewrite (IH H E). reflexivity.
Qed.

(** One result: its counts go to the session it belongs to, which is new
    at the end of the map or an existing one in its place. *)
Lemma addResult_step (m : list (string * SessionSummary)) (r : ParsedLogResult * ResultMeta) :
  let id := sessionOf (fst r) (snd r) in
  map fst (addResult m r)
  = (if decide (id ∈ map fst m) then map fst m else map fst m ++ [id])%list /\
  (map (fun kv => sessionId (snd kv)) m = map fst m ->
   map (fun kv => sessionId (snd kv)) (addResult m r) = map fst (addResult m r)) /\
  forall f : LevelCounts -> nat,
    (forall c1 c2,
        f (mkCounts (eventCount c1 + eventCount c2) (errorCount c1 + errorCount c2)
             (warningCount c1 + warningCount c2)) = (f c1 + f c2)%nat) ->
    totalOf f (addResult m r) = (totalOf f m + f (countLevels (events (fst r))))%nat.
Proof.
  destruct r as [res meta]. cbv zeta. unfold addResult. simpl fst. simpl snd.
  destruct (mapGet (sessionOf res meta) m) as [existing|] eqn:Hget.
  - assert (sessionOf res meta ∈ map fst m) as Hin.
    { destruct (decide (sessionOf res meta ∈ map fst m)) as [H|H]; [exact H|].
      apply mapGet_None in H. congruence. }
    rewrite (decide_True (P := sessionOf res meta ∈ map fst m)) by exact Hin.
    split; [apply mapUpdate_keys|]. split.
    + intros Hids. rewrite mapUpdate_keys, <- Hids.
      apply (mapUpdate_ids _ existing); [exact Hget | reflexivity].
    + intros f Hf.
      pose proof (mapUpdate_total f _ existing
                    (mkSession (sessionId existing)
                       (if negb (truthyString (sessionBuildVersion existing)) &&
                           truthyString (buildVersion meta)
                        then buildVersion meta else sessionBuildVersion existing)
                       (if truthyString (earliestTimestamp meta) &&
                           (negb (truthyString (sessionEarliest existing)) ||
                            String.ltb (default "" (earliestTimestamp meta))
                              (default "" (sessionEarliest existing)))
                        then earliestTimestamp meta else sessionEarliest existing)
                       (if truthyString (latestTimestamp meta) &&
                           (negb (truthyString (sessionLatest existing)) ||
                            String.ltb (default "" (sessionLatest existing))
                              (default "" (latestTimestamp meta)))
                        then latestTimestamp meta else sessionLatest existing)
                       (if decide (resultLogType res ∈ sessionLogTypes existing)
                        then sessionLogTypes existing
                        else (sessionLogTypes existing ++ [resultLogType res])%list)
                       (mkCounts
                          (eventCount (sessionTotals existing)
                           + eventCount (countLevels (events res)))
                          (errorCount (sessionTotals existing)
                           + errorCount (countLevels (events res)))
                          (warningCount (sessionTotals existing)
                           + warningCount (countLevels (events res)))))
                    m Hget) as Hsum.
      cbn [sessionTotals] in Hsum. rewrite Hf in Hsum. lia.
  - apply mapGet_None in Hget.
    rewrite (decide_False (P := sessionOf res meta ∈ map fst m)) by exact Hget.
    split; [rewrite map_app; reflexivity|]. split.
    + intros Hids. rewrite !map_app, Hids. reflexivity.
    + intros f _. unfold totalOf. rewrite sum_list_with_app. simpl. lia.
Qed.

Lemma foldl_addResult (results : list (ParsedLogResult * ResultMeta))
    (m : list (string * SessionSummary)) :
  NoDup (map fst m) ->
  map (fun kv => sessionId (snd kv)) m = map fst m ->
  let m' := foldl addResult m results in
  NoDup (map fst m') /\
  map (fun kv => sessionId (snd kv)) m' = map fst m' /\
  (forall id, id ∈ map fst m' <->
              id ∈ map fst m \/ exists r, r ∈ results /\ sessionOf (fst r) (snd r) = id) /\
  forall f : LevelCounts -> nat,
    (forall c1 c2,
        f (mkCounts (eventCount c1 + eventCount c2) (errorCount c1 + errorCount c2)
             (warningCount c1 + warningCount c2)) = (f c1 + f c2)%nat) ->
    totalOf f m'
    = (totalOf f m + sum_list_with (fun r => f (countLevels (events (fst r)))) results)%nat.
Proof.
  revert m. induction results as [|r results IH]; intros m Hnd Hids; cbv zeta; simpl.
  - split; [exact Hnd|]. split; [exact Hids|]. split.
    + intros id. split; [auto|]. intros [H|(r & H & _)]; [exact H | inversion H].
    + intros f _. lia.
  - destruct (addResult_step m r) as (Hkeys & Hid & Hsum). cbv zeta in *.
    assert (NoDup (map fst (addResult m r))) as Hnd1.
    { rewrite Hkeys. case_decide; [exact Hnd|].
      apply NoDup_app. split; [exact Hnd|]. split; [|apply NoDup_singleton].
      intros x Hx Hx'. apply list_elem_of_singleton in Hx'. subst x. contradiction. }
    destruct (IH (addResult m r) Hnd1 (Hid Hids)) as (H1 & H2 & H3 & H4).
    split; [exact H1|]. split; [exact H2|]. split.
    + intros id. rewrite H3, Hkeys. split.
      * intros [H|(r' & Hr' & E)].
        -- case_decide; [left; exact H|].
           apply elem_of_app in H as [H|H]; [left; exact H|].
           apply list_elem_of_singleton in H. right. exists r. split; [left | auto].
        -- right. exists r'. split; [right; exact Hr' | exact E].
      * intros [H|(r' & Hr' & E)].
        -- left. case_decide; [exact H | apply elem_of_app; left; exact H].
        -- apply elem_of_cons in Hr' as [->|Hr'].
           ++ left. case_decide; [congruence|].
              apply elem_of_app. right. apply list_elem_of_singleton. auto.
           ++ right. exists r'. auto.
    + intros f Hf. rewrite (H4 f Hf), (Hsum f Hf). lia.
Qed.

Lemma sum_event_counts (f : LevelCounts -> nat) (P : Event -> Prop)
    `{!forall e, Decision (P e)} (results : list (ParsedLogResult * ResultMeta)) :
  (forall evs, f (countLevels evs) = countIf P evs) ->
  sum_list_with (fun r => f (countLevels (events (fst r)))) results
  = countIf P (allEvents (map fst results)).
Proof.
  intros Hf. induction results as [|r results IH]; [reflexivity|].
  simpl. rewrite IH, Hf. unfold allEvents, countIf. simpl.
  rewrite filter_app, length_app. reflexivity.
Qed.

Lemma sum_list_with_snd {K V} (g : V -> nat) (m : list (K * V)) :
  sum_list_with g (map snd m) = sum_list_with (fun kv => g (snd kv)) m.
Proof. induction m as [|kv m IH]; simpl; [reflexivity | rewrite IH; reflexivity]. Qed.

(** [buildSessions] makes one session for each session id among the
    results, and no other: the ids are distinct, and an id is there
    exactly when it is the id of some result (the meta data's prefix, or
    the one found in the path, or "unknown"). Over the sessions, the
    event totals add up to the number of events of all results, the error
    totals to the number of events at level "Error", and the warning
    totals to the number at level "Warn" or "Warning". *)
Theorem buildSessions_totals (results : list (ParsedLogResult * ResultMeta)) :
  let sessions := buildSessions results in
  NoDup (map sessionId sessions) /\
  (forall id, id ∈ map sessionId sessions <->
              exists r, r ∈ results /\ sessionOf (fst r) (snd r) = id) /\
  sum_list_with (fun s => eventCount (sessionTotals s)) sessions
  = length (allEvents (map fst results)) /\
  sum_list_with (fun s => errorCount (sessionTotals s)) sessions
  = countIf atLevelError (allEvents (map fst results)) /\
  sum_list_with (fun s => warningCount (sessionTotals s)) sessions
  = countIf atLevelWarning (allEvents (map fst results)).
Proof.
  cbv zeta. unfold buildSessions.
  destruct (foldl_addResult results []) as (Hnd & Hids & Hin & Hsum).
  { apply NoDup_nil_2. }
  { reflexivity. }
  cbv zeta in *. set (m := foldl addResult [] results) in *.
  pose proof (fun g : SessionSummary -> nat => sum_list_with_snd g m) as Hmap.
  assert (map sessionId (map snd m) = map fst m) as Hkeys.
  { rewrite map_map. exact Hids. }
  rewrite Hkeys. split; [exact Hnd|]. split.
  { intros id. rewrite Hin. split.
    - intros [H|H]; [inversion H | exact H].
    - intros H. right. exact H. }
  rewrite !Hmap.
  pose proof (Hsum eventCount (fun _ _ => eq_refl)) as He.
  pose proof (Hsum errorCount (fun _ _ => eq_refl)) as Hr.
  pose proof (Hsum warningCount (fun _ _ => eq_refl)) as Hw.
  unfold totalOf in He, Hr, Hw. cbn [sum_list_with] in He, Hr, Hw.
  rewrite Nat.add_0_l in He, Hr, Hw.
  rewrite He, Hr, Hw. split; [|split].
  - rewrite (sum_event_counts eventCount (fun _ => True)).
    + unfold countIf. f_equal. induction (allEvents (map fst results)) as [|e l IH];
        [reflexivity|]. rewrite filter_cons. simpl. rewrite IH. reflexivity.
    + intros evs. rewrite countLevels_record. cbn [eventCount]. unfold countIf.
      induction evs as [|e l IH]; [reflexivity|]. rewrite filter_cons. simpl.
      rewrite <- IH. reflexivity.
  - apply (sum_event_counts errorCount atLevelError). intros evs.
    rewrite countLevels_record. reflexivity.
  - apply (sum_event_counts warningCount atLevelWarning). intros evs.
    rewrite countLevels_record. reflexivity.
Qed.

(** *** The session prefix of a path *)

Lemma matchAtoms_sound (pattern : list Atom) (s matched rest : string) :
  matchAtoms pattern s = Some (matched, rest) ->
  s = matched +:+ rest /\ String.length matched = length pattern /\
  matchAtoms pattern matched = Some (matched, EmptyString).
Proof.
  revert s matched rest. induction pattern as [|a pattern IH]; intros s matched rest; simpl.
  - intros H. injection H as <- <-. destruct s; auto.
  - destruct s as [|c r]; [discriminate|].
    destruct (matchesAtom a c) eqn:Ha; [|discriminate].
    destruct (matchAtoms pattern r) as [[m' rest']|] eqn:Hm; [|discriminate].
    intros H. injection H as <- <-.
    destruct (IH _ _ _ Hm) as (-> & Hlen & Hself).
    simpl. rewrite Ha, Hself, Hlen. auto.
Qed.

Lemma takeName_sound (s : string) :
  exists after,
    s = takeName s +:+ after /\ separatorFree (takeName s) = true /\ endsName after = true.
Proof.
  induction s as [|c r IH]; simpl.
  - exists EmptyString. auto.
  - destruct (isSeparator c) eqn:Hc.
    + exists (String c r). simpl. auto.
    + destruct IH as (after & E & Hfree & Hend). exists after.
      split; [|split; [|exact Hend]].
      * change (String c r = String c (takeName r +:+ after)). f_equal. exact E.
      * simpl. rewrite Hc. exact Hfree.
Qed.

Lemma matchSession_sound (s found : string) :
  matchSession s = Some found ->
  exists before stamp name after,
    s = before +:+ stamp +:+ name +:+ after /\
    found = stamp +:+ name /\
    matchAtoms sessionPattern stamp = Some (stamp, EmptyString) /\
    separatorFree name = true /\ endsName after = true.
Proof.
  induction s as [|c r IH].
  - simpl. discriminate.
  - intros H.
    assert (Hcases :
              (exists stamp rest, matchAtoms sessionPattern (String c r) = Some (stamp, rest) /\
                                  found = stamp +:+ takeName rest) \/
              matchSession r = Some found).
    { revert H. unfold matchSession; fold matchSession.
      destruct (matchAtoms sessionPattern (String c r)) as [[stamp rest]|].
      - intros H. injection H as <-. left. eauto.
      - intros H. right. exact H. }
    destruct Hcases as [(stamp & rest & Hm & ->)|Hr].
    + apply matchAtoms_sound in Hm as (E & _ & Hself).
      destruct (takeName_sound rest) as (after & Er & Hfree & Hend).
      exists EmptyString, stamp, (takeName rest), after.
      split; [|auto].
      change (String c r = stamp +:+ (takeName rest +:+ after)).
      rewrite <- Er. exact E.
    + destruct (IH Hr) as (before & stamp & name & after & E & Hf & Hs & Hn & Ha).
      exists (String c before), stamp, name, after.
      split; [|auto].
      change (String c r = String c (before +:+ stamp +:+ name +:+ after)).
      rewrite <- E. reflexivity.
Qed.

(** What [extractSessionPrefix] returns stands in the path: it begins
    with a stamp of the form [log_dddd.dd.dd_dd-dd-dd] and goes on up to
    the next path separator or the end of the path. For no path and for
    the empty path it returns nothing. *)
Theorem extractSessionPrefix_sound (path : option string) (found : string) :
  extractSessionPrefix path = Some found ->
  exists p before stamp name after,
    path = Some p /\ p <> EmptyString /\
    p = before +:+ stamp +:+ name +:+ after /\
    found = stamp +:+ name /\
    matchAtoms sessionPattern stamp = Some (stamp, EmptyString) /\
    String.length stamp = 23%nat /\
    separatorFree name = true /\ endsName after = true.
Proof.
  unfold extractSessionPrefix. destruct path as [p|]; [|discriminate].
  destruct (String.eqb_spec p "") as [->|Hne]; [discriminate|].
  intros H. apply matchSession_sound in H
    as (before & stamp & name & after & E & Hf & Hs & Hn & Ha).
  exists p, before, stamp, name, after.
  pose proof (matchAtoms_sound _ _ _ _ Hs) as (_ & Hlen & _).
  auto 10.
Qed.

Lemma extractSessionPrefix_sound_witness :
  extractSessionPrefix (Some "C:\Logs\log_2025.01.16_09-00-00_0.16.1\errors.log")
  = Some "log_2025.01.16_09-00-00_0.16.1" /\
  exists p before stamp name after,
    Some "C:\Logs\log_2025.01.16_09-00-00_0.16.1\errors.log" = Some p /\
    p <> EmptyString /\
    p = before +:+ stamp +:+ name +:+ after /\
    "log_2025.01.16_09-00-00_0.16.1" = stamp +:+ name /\
    matchAtoms sessionPattern stamp = Some (stamp, EmptyString) /\
    String.length stamp = 23%nat /\
    separatorFree name = true /\ endsName after = true.
Proof.
  split; [vm_compute; reflexivity|].
  apply (extractSessionPrefix_sound
           (Some "C:\Logs\log_2025.01.16_09-00-00_0.16.1\errors.log")).
  vm_compute. reflexivity.
Defined.

(** [sessionsInput]: the third result joins the session of the first,
    which keeps its place, gains a log type and the earlier of the two
    starting times; the second result makes a session of its own, named
    by the folder in its path. *)
Example buildSessions_sample :
  map (fun s => (sessionId s, sessionLogTypes s, sessionTotals s, sessionEarliest s,
                 sessionBuildVersion s))
    (buildSessions sessionsInput)
  = [ ("log_2025.01.15_14-30-00", ["application"; "backend"], mkCounts 5 2 1,
       Some "2025-01-15T14:30:01Z", None);
      ("log_2025.01.16_09-00-00_0.16.1", ["errors"], mkCounts 1 0 1, None,
       Some "0.16.1") ].
Proof. vm_compute. reflexivity. Qed.

End SessionFacts.

(* ===================================================================== *)
(** ** Properties of the file reader                                      *)
(* ===================================================================== *)

Module FileReaderFacts.
Import FileReader FileReaderSpec.

Lemma split_cases (s : string) :
  (hasSeparator s = false /\ split s = [s]) \/
  (hasSeparator s = true /\ exists piece next pieces, split s = piece :: next :: pieces).
Proof.
  induction s as [|c r IH]; simpl.
  - left. auto.
  - destruct (isSeparator c) eqn:Hc; simpl.
    + right. split; [reflexivity|].
      destruct IH as [[_ ->]|(_ & piece & next & pieces & ->)]; eauto.
    + destruct IH as [[Hr ->]|(Hr & piece & next & pieces & ->)].
      * left. auto.
      * right. eauto.
Qed.

Lemma default_last (d d' x : string) (l : list string) :
  default d (last (x :: l)) = default d' (last (x :: l)).
Proof.
  revert x. induction l as [|y l IH]; intros x; [reflexivity|].
  rewrite !last_cons_cons. apply IH.
Qed.

(** The last piece of a path, by recursion on the path. *)
Lemma lastPiece_cons (c : ascii) (r : string) :
  lastPiece (String c r)
  = if isSeparator c || hasSeparator r then lastPiece r else String c r.
Proof.
  unfold lastPiece. simpl. destruct (isSeparator c) eqn:Hc; simpl.
  - destruct (split_cases r) as [[_ ->]|(_ & piece & next & pieces & ->)];
      [reflexivity|].
    rewrite last_cons_cons. apply default_last.
  - destruct (split_cases r) as [[-> ->]|(-> & piece & next & pieces & ->)];
      [reflexivity|].
    rewrite !last_cons_cons. apply default_last.
Qed.

Lemma endsWith_lastPiece (s : string) :
  endsWith (lastPiece s) ".log" = endsWith s ".log".
Proof.
  induction s as [|c r IH]; [reflexivity|].
  rewrite lastPiece_cons.
  destruct (isSeparator c || hasSeparator r) eqn:Hsep; [|reflexivity].
  rewrite IH. change (endsWith (String c r) ".log")
    with (String.eqb (String c r) ".log" || endsWith r ".log").
  destruct (String.eqb_spec (String c r) ".log") as [E|_]; [|reflexivity].
  injection E as -> ->. discriminate Hsep.
Qed.

Lemma endsWith_suffix (s suffix : string) :
  endsWith s suffix = true <-> exists before, s = before +:+ suffix.
Proof.
  induction s as [|c r IH].
  - change (endsWith EmptyString suffix) with (String.eqb EmptyString suffix || false).
    rewrite orb_false_r, String.eqb_eq. split.
    + intros <-. exists EmptyString. reflexivity.
    + intros [before H]. destruct before; simpl in H; [exact H | discriminate H].
  - change (endsWith (String c r) suffix)
      with (String.eqb (String c r) suffix || endsWith r suffix).
    rewrite orb_true_iff, IH, String.eqb_eq. split.
    + intros [<-|[before ->]].
      * exists EmptyString. reflexivity.
      * exists (String c before). reflexivity.
    + intros [before H]. destruct before as [|b before]; simpl in H.
      * left. exact H.
      * injection H as <- ->. right. eauto.
Qed.

(** [isLogFile] holds of the names that end in ".log": taking the last
    piece of the path first changes nothing. *)
Theorem isLogFile_iff_suffix (fileName : string) :
  isLogFile fileName = endsWith fileName ".log" /\
  (isLogFile fileName = true <-> exists before, fileName = before +:+ ".log").
Proof.
  assert (isLogFile fileName = endsWith fileName ".log") as E.
  { apply endsWith_lastPiece. }
  split; [exact E|]. rewrite E. apply endsWith_suffix.
Qed.

Lemma find_first (p : string -> bool) (parts : list string) :
  match find p parts with
  | Some part =>
      exists before after,
        parts = (before ++ part :: after)%list /\ p part = true /\
        Forall (fun q => p q = false) before
  | None => Forall (fun q => p q = false) parts
  end.
Proof.
  induction parts as [|part rest IH]; simpl; [constructor|].
  destruct (p part) eqn:Hp.
  - exists [], rest. auto.
  - destruct (find p rest) as [found|].
    + destruct IH as (before & after & -> & Hf & Hb). exists (part :: before), after.
      split; [reflexivity|]. split; [exact Hf|]. constructor; assumption.
    + constructor; assumption.
Qed.

Lemma split_separatorFree (s : string) :
  Forall (fun piece => hasSeparator piece = false) (split s).
Proof.
  induction s as [|c r IH]; simpl; [repeat constructor|].
  destruct (isSeparator c) eqn:Hc.
  - constructor; [reflexivity | exact IH].
  - destruct (split r) as [|piece pieces]; [repeat constructor; simpl; rewrite Hc; reflexivity|].
    apply Forall_cons in IH as [Hp Hrest]. constructor; [|exact Hrest].
    simpl. rewrite Hc. exact Hp.
Qed.

(** [extractSessionFromPath] returns the first piece of the path that
    begins with "log_": a piece between separators, with none inside,
    before which no piece begins with "log_"; and it returns nothing
    exactly when no piece does. *)
Theorem extractSessionFromPath_first (filePath : string) :
  match extractSessionFromPath filePath with
  | Some session =>
      exists before after,
        split filePath = (before ++ session :: after)%list /\
        Str.startsWith "log_" session = true /\
        hasSeparator session = false /\
        Forall (fun piece => Str.startsWith "log_" piece = false) before
  | None => Forall (fun piece => Str.startsWith "log_" piece = false) (split filePath)
  end.
Proof.
  unfold extractSessionFromPath.
  pose proof (find_first (Str.startsWith "log_") (split filePath)) as H.
  destruct (find (Str.startsWith "log_") (split filePath)) as [session|]; [|exact H].
  destruct H as (before & after & E & Hs & Hb). exists before, after.
  split; [exact E|]. split; [exact Hs|]. split; [|exact Hb].
  pose proof (split_separatorFree filePath) as Hfree. rewrite E in Hfree.
  apply Forall_app in Hfree as [_ Hfree]. apply Forall_cons in Hfree as [Hfree _].
  exact Hfree.
Qed.

End FileReaderFacts.

(* ===================================================================== *)
(** ** Properties of the selectors over parsed files                      *)
(* ===================================================================== *)

Module FileSelectorsFacts.
Import Analytics AnalyticsSpec Selectors SessionFacts.

(** [getTotalEventCount] is the number of events of all results. *)
Theorem getTotalEventCount_all (results : list ParsedLogResult) :
  getTotalEventCount results = length (allEvents results).
Proof.
  unfold getTotalEventCount.
  assert (forall acc, foldl (fun sum r => (sum + length (events r))%nat) acc results
                      = (acc + length (allEvents results))%nat) as H.
  { induction results as [|r results IH]; intros acc; simpl; [unfold allEvents; simpl; lia|].
    rewrite IH. unfold allEvents. simpl. rewrite length_app. lia. }
  rewrite H. reflexivity.
Qed.

Lemma setAdd_spec (set : list string) (x : string) :
  NoDup set ->
  NoDup (setAdd set x) /\
  (forall y, y ∈ setAdd set x <-> y ∈ set \/ y = x) /\
  sublist set (setAdd set x).
Proof.
  intros Hnd. unfold setAdd. destruct (decide (x ∈ set)) as [Hin|Hin].
  - split; [exact Hnd|]. split; [|reflexivity].
    intros y. split; [auto|]. intros [H| ->]; assumption.
  - split; [|split].
    + apply NoDup_app. split; [exact Hnd|]. split; [|apply NoDup_singleton].
      intros y Hy Hy'. apply list_elem_of_singleton in Hy'. subst y. contradiction.
    + intros y. rewrite elem_of_app, list_elem_of_singleton. reflexivity.
    + apply sublist_inserts_r. reflexivity.
Qed.

Lemma foldl_setAdd (xs set : list string) :
  NoDup set ->
  NoDup (foldl setAdd set xs) /\
  (forall y, y ∈ foldl setAdd set xs <-> y ∈ set \/ y ∈ xs) /\
  sublist (foldl setAdd set xs) (set ++ xs)%list.
Proof.
  revert set. induction xs as [|x xs IH]; intros set Hnd; simpl.
  - rewrite app_nil_r. split; [exact Hnd|]. split; [|reflexivity].
    intros y. split; [auto|]. intros [H|H]; [exact H | inversion H].
  - destruct (setAdd_spec set x Hnd) as (Hnd1 & Hin1 & Hsub1).
    destruct (IH (setAdd set x) Hnd1) as (H1 & H2 & H3).
    split; [exact H1|]. split.
    + intros y. rewrite H2, Hin1, elem_of_cons. tauto.
    + etransitivity; [exact H3|].
      unfold setAdd. destruct (decide (x ∈ set)).
      * apply sublist_app; [reflexivity|]. apply sublist_cons. reflexivity.
      * rewrite <- app_assoc. reflexivity.
Qed.

(** [getUniqueLogTypes] returns each log type of the results once: the
    types are distinct, a type is there exactly when some result has it,
    and they stand in the order the results have them. *)
Theorem getUniqueLogTypes_once (results : list ParsedLogResult) :
  NoDup (getUniqueLogTypes results) /\
  (forall type, type ∈ getUniqueLogTypes results <->
                exists r, r ∈ results /\ resultLogType r = type) /\
  sublist (getUniqueLogTypes results) (map resultLogType results).
Proof.
  unfold getUniqueLogTypes.
  destruct (foldl_setAdd (map resultLogType results) []) as (H1 & H2 & H3);
    [apply NoDup_nil_2|].
  split; [exact H1|]. split; [|exact H3].
  intros type. rewrite H2. split.
  - intros [H|H]; [inversion H|].
    apply list_elem_of_fmap in H as (r & -> & Hr). eauto.
  - intros (r & Hr & <-). right. apply list_elem_of_fmap. eauto.
Qed.

Lemma mapGet_app {V} (k : string) (m1 m2 : list (string * V)) :
  mapGet k (m1 ++ m2)
  = match mapGet k m1 with Some v => Some v | None => mapGet k m2 end.
Proof.
  induction m1 as [|[k' v'] m1 IH]; simpl; [reflexivity|].
  destruct (String.eqb k k'); [reflexivity | exact IH].
Qed.

Lemma mapGet_mapUpdate {V} (k k0 : string) (v : V) (m : list (string * V)) :
  mapGet k (mapUpdate k0 v m)
  = if decide (k = k0) then (match mapGet k0 m with Some _ => Some v | None => None end)
    else mapGet k m.
Proof.
  induction m as [|[k' v'] m IH]; simpl.
  - destruct (decide (k = k0)); reflexivity.
  - destruct (String.eqb_spec k0 k') as [->|Hne]; simpl.
    + destruct (decide (k = k')) as [->|Hk].
      * rewrite String.eqb_refl. reflexivity.
      * destruct (String.eqb_spec k k'); [contradiction | reflexivity].
    + destruct (String.eqb_spec k k') as [->|Hk].
      * rewrite decide_False by congruence. reflexivity.
      * exact IH.
Qed.

Lemma groupResults_fold (results : list ParsedLogResult) :
  let grouped := groupResultsByLogType results in
  map fst grouped = getUniqueLogTypes results /\
  forall type,
    mapGet type grouped
    = match filter (fun r => resultLogType r = type) results with
      | [] => None
      | group => Some group
      end.
Proof.
  cbv zeta. unfold groupResultsByLogType, getUniqueLogTypes.
  induction results as [|r results IH] using rev_ind.
  - simpl. auto.
  - rewrite map_app, !foldl_app. simpl.
    destruct IH as [Hkeys Hget].
    set (grouped := foldl _ [] results) in *.
    set (types := foldl setAdd [] (map resultLogType results)) in *.
    assert (Hin : resultLogType r ∈ types <-> is_Some (mapGet (resultLogType r) grouped)).
    { rewrite <- Hkeys. split.
      - intros H. destruct (mapGet (resultLogType r) grouped) eqn:E; [eauto|].
        apply mapGet_None in E. contradiction.
      - intros [v E] . destruct (decide (resultLogType r ∈ map fst grouped)) as [H|H];
          [exact H|]. apply mapGet_None in H. congruence. }
    destruct (mapGet (resultLogType r) grouped) as [existing|] eqn:E.
    + split.
      * rewrite mapUpdate_keys, Hkeys. unfold setAdd.
        rewrite decide_True by (apply Hin; eauto). reflexivity.
      * intros type. rewrite mapGet_mapUpdate, filter_app, filter_cons, filter_nil.
        destruct (decide (type = resultLogType r)) as [->|Hne].
        -- rewrite E. rewrite decide_True by reflexivity.
           specialize (Hget (resultLogType r)). rewrite E in Hget.
           destruct (filter _ results) as [|x xs]; [discriminate Hget|].
           injection Hget as ->. reflexivity.
        -- rewrite decide_False by congruence. rewrite app_nil_r. apply Hget.
    + split.
      * rewrite map_app, Hkeys. unfold setAdd.
        rewrite decide_False; [reflexivity|].
        intros H. apply Hin in H. destruct H as [v H]. discriminate H.
      * intros type. rewrite mapGet_app, filter_app, filter_cons, filter_nil. simpl.
        specialize (Hget type).
        destruct (decide (resultLogType r = type)) as [Heq|Hne].
        -- rewrite <- Heq in *. rewrite E in *. rewrite String.eqb_refl.
           destruct (filter _ results) as [|x xs]; [reflexivity | discriminate Hget].
        -- rewrite app_nil_r.
           destruct (String.eqb_spec type (resultLogType r)) as [->|_]; [contradiction|].
           rewrite Hget. destruct (filter _ results); reflexivity.
Qed.

(** [groupResultsByLogType] has one group for each log type of the
    results, in the order the types first occur; the group of a type
    holds the results of that type, all of them and no other, in the
    order of the input. *)
Theorem groupResultsByLogType_groups (results : list ParsedLogResult) :
  let grouped := groupResultsByLogType results in
  map fst grouped = getUniqueLogTypes results /\
  (forall type group,
      (type, group) ∈ grouped ->
      group = filter (fun r => resultLogType r = type) results /\ group <> []) /\
  (forall r, r ∈ results ->
             exists group, mapGet (resultLogType r) grouped = Some group /\ r ∈ group).
Proof.
  cbv zeta. destruct (groupResults_fold results) as [Hkeys Hget]. cbv zeta in *.
  split; [exact Hkeys|]. split.
  - intros type group Hin.
    assert (mapGet type (groupResultsByLogType results) = Some group) as E.
    { pose proof (proj1 (foldl_setAdd (map resultLogType results) [] NoDup_nil_2))
        as Hnd.
      fold (getUniqueLogTypes results) in Hnd. rewrite <- Hkeys in Hnd.
      revert Hnd Hin. generalize (groupResultsByLogType results). intros m.
      induction m as [|[k v] m IH]; intros Hnd Hin; [inversion Hin|].
      simpl in *. apply NoDup_cons in Hnd as [Hk Hnd].
      apply elem_of_cons in Hin as [Hin|Hin].
      - injection Hin as <- <-. rewrite String.eqb_refl. reflexivity.
      - destruct (String.eqb_spec type k) as [->|_]; [|apply IH; assumption].
        exfalso. apply Hk. apply list_elem_of_fmap. exists (k, group). auto. }
    rewrite Hget in E. destruct (filter _ results) as [|x xs]; [discriminate E|].
    injection E as <-. split; [reflexivity | discriminate].
  - intros r Hr. rewrite Hget.
    assert (r ∈ filter (fun r' => resultLogType r' = resultLogType r) results) as Hin.
    { apply list_elem_of_filter. auto. }
    destruct (filter _ results) as [|x xs]; [inversion Hin|]. eauto.
Qed.

End FileSelectorsFacts.
